(** * SimpleColorKeyer: the alpha computation of [SimpleColorKeyer.cpp]

    A shallow embedding of the [SimpleColorKeyerIop] node: the per-pixel
    alpha computation (the private [calculate_*_alpha] member functions and
    the gain / clamp / invert step of [engine]), and the loop of [engine]
    over the rows of an image, with [_request] and [_validate].

    The C++ type [float] is read as IEEE 754 binary32 with round to nearest,
    ties to even, every operation rounded on its own (no fused multiply-add,
    no wider intermediate format).  The arithmetic is the executable
    specification [SpecFloat] of the Standard Library at precision 24 and
    maximal exponent 128, so every definition below evaluates on concrete
    inputs.  [sqrt] and [sqrtf] are both the correctly rounded binary32
    square root (rounding the binary64 root of a binary32 number to binary32
    gives the same number).

    The first part of the file holds the definitions: the arithmetic, the
    node and its alpha computation, and the notions the statements and proofs
    use.  The second part proves that the operations of [SpecFloat] return
    the rounding of their exact result and that rounding is monotone, and
    derives the claims C1 to C10 from that.  The last part proves further
    properties of the code. *)

From Stdlib Require Import ZArith Lia Bool List.
From Stdlib Require Import Floats.SpecFloat.
Import ListNotations.

Local Open Scope Z_scope.

(** ** Binary32 arithmetic *)

Definition prec : Z := 24.
Definition emax : Z := 128.

Definition float : Type := spec_float.

Definition fadd (x y : float) : float := SFadd prec emax x y.
Definition fsub (x y : float) : float := SFsub prec emax x y.
Definition fmul (x y : float) : float := SFmul prec emax x y.
Definition fdiv (x y : float) : float := SFdiv prec emax x y.
Definition fsqrt (x : float) : float := SFsqrt prec emax x.
Definition fabs (x : float) : float := SFabs x.
Definition flt (x y : float) : bool := SFltb x y.
Definition fle (x y : float) : bool := SFleb x y.

(** A well-formed binary32 datum.  Every binary32 value is exactly one of
    them: a zero or an infinity of either sign, NaN (its payload is not
    modelled), or a finite number [m * 2^e] stored with its canonical
    mantissa and exponent ([m < 2^24] and [-149 <= e <= 104], with
    [2^23 <= m] unless [e = -149]). *)
Definition wf (x : float) : bool := valid_binary prec emax x.

(** [std::max(a, b)] is [(a < b) ? b : a] and [std::min(a, b)] is
    [(b < a) ? b : a]: when a comparison involves a NaN the first argument is
    returned. *)
Definition fmax (a b : float) : float := if flt a b then b else a.
Definition fmin (a b : float) : float := if flt b a then b else a.

(** [std::max({a, b, c})] and [std::min({a, b, c})]: a left-to-right scan that
    keeps the first extremal element. *)
Definition fmax3 (a b c : float) : float :=
  let m := a in
  let m := if flt m b then b else m in
  if flt m c then c else m.
Definition fmin3 (a b c : float) : float :=
  let m := a in
  let m := if flt b m then b else m in
  if flt c m then c else m.

Declare Scope f32_scope.
Delimit Scope f32_scope with f32.
Bind Scope f32_scope with float.
Infix "+" := fadd : f32_scope.
Infix "-" := fsub : f32_scope.
Infix "*" := fmul : f32_scope.
Infix "/" := fdiv : f32_scope.
Infix "<?" := flt : f32_scope.
Notation "x >? y" := (flt y x) : f32_scope.

(** The literals of the source, as the binary32 numbers nearest to them.
    [lit n d] is the correctly rounded quotient of two small integers, which
    is how a decimal literal [n/d] is converted. *)
Definition of_Z (z : Z) : float := binary_normalize prec emax z 0 false.
Definition lit (n d : Z) : float := fdiv (of_Z n) (of_Z d).

Definition f0 : float := S754_zero false.                       (* 0.0f   *)
Definition f1 : float := S754_finite false 8388608 (-23).       (* 1.0f   *)
Definition f0_5 : float := S754_finite false 8388608 (-24).     (* 0.5f   *)
Definition f0_001 : float := S754_finite false 8589935 (-33).   (* 0.001f *)
Definition f0_1 : float := S754_finite false 13421773 (-27).    (* 0.1f   *)
Definition f0_299 : float := S754_finite false 10032775 (-25).  (* 0.299f *)
Definition f0_587 : float := S754_finite false 9848226 (-24).   (* 0.587f *)
Definition f0_114 : float := S754_finite false 15300821 (-27).  (* 0.114f *)
Definition f0_3 : float := S754_finite false 10066330 (-25).    (* 0.3f   *)
Definition f0_7 : float := S754_finite false 11744051 (-24).    (* 0.7f   *)

(** Further binary32 numbers used in examples. *)
Definition f2 : float := S754_finite false 8388608 (-22).       (* 2.0f   *)
Definition f0_9 : float := S754_finite false 15099494 (-24).    (* 0.9f   *)
Definition f0_25 : float := S754_finite false 8388608 (-25).    (* 0.25f  *)
Definition f0_75 : float := S754_finite false 12582912 (-24).   (* 0.75f  *)
Definition f1e8 : float := S754_finite false 12500000 3.        (* 1e8f   *)

(** ** The data of the node *)

(** [struct Color3]. *)
Record Color3 : Type := mkColor3 { r : float; g : float; b : float }.

(** The knob-backed members of [class SimpleColorKeyerIop]. *)
Record SimpleColorKeyerIop : Type := mkIop {
  key_color_ : Color3;
  variance_ : float;
  range_red_ : float;
  range_magenta_ : float;
  range_green_ : float;
  range_yellow_ : float;
  range_blue_ : float;
  range_cyan_ : float;
  gain_ : float;
  invert_ : bool;
  keying_method_ : Z
}.

Definition wf_color (c : Color3) : bool := wf (r c) && wf (g c) && wf (b c).

Definition wf_ranges (k : SimpleColorKeyerIop) : bool :=
  wf (range_red_ k) && wf (range_green_ k) && wf (range_blue_ k) &&
  wf (range_yellow_ k) && wf (range_magenta_ k) && wf (range_cyan_ k).

Definition wf_iop (k : SimpleColorKeyerIop) : bool :=
  wf_color (key_color_ k) && wf (variance_ k) && wf_ranges k && wf (gain_ k).

(** The state the constructor leaves. *)
Definition default_iop : SimpleColorKeyerIop :=
  {| key_color_ := mkColor3 f0 f1 f0;
     variance_ := f0_3;
     range_red_ := f0; range_magenta_ := f0; range_green_ := f0;
     range_yellow_ := f0; range_blue_ := f0; range_cyan_ := f0;
     gain_ := f1; invert_ := false; keying_method_ := 0 |}.

(** ** The alpha computation *)

Section Alpha.
Local Open Scope f32_scope.

(** [Color3::distance_to]. *)
Definition distance_to (c other : Color3) : float :=
  let dr := r c - r other in
  let dg := g c - g other in
  let db := b c - b other in
  fsqrt (dr * dr + dg * dg + db * db).

(** The tolerance that [calculate_distance_alpha] divides by: the statements
    from [float effective_tolerance = variance_;] to
    [effective_tolerance = std::max(0.001f, effective_tolerance);]. *)
Definition effective_tolerance (k : SimpleColorKeyerIop) (pixel : Color3) : float :=
  let red_match := r pixel in
  let green_match := g pixel in
  let blue_match := b pixel in
  let yellow_match := fmin (r pixel) (g pixel) in
  let magenta_match := fmin (r pixel) (b pixel) in
  let cyan_match := fmin (g pixel) (b pixel) in
  let tol := variance_ k in
  let tol := if range_red_ k >? f0 then tol + range_red_ k * f0_1 * red_match else tol in
  let tol := if range_green_ k >? f0 then tol + range_green_ k * f0_1 * green_match else tol in
  let tol := if range_blue_ k >? f0 then tol + range_blue_ k * f0_1 * blue_match else tol in
  let tol := if range_yellow_ k >? f0 then tol + range_yellow_ k * f0_1 * yellow_match else tol in
  let tol := if range_magenta_ k >? f0 then tol + range_magenta_ k * f0_1 * magenta_match else tol in
  let tol := if range_cyan_ k >? f0 then tol + range_cyan_ k * f0_1 * cyan_match else tol in
  let tol := if range_red_ k <? f0 then tol + range_red_ k * f0_1 * red_match else tol in
  let tol := if range_green_ k <? f0 then tol + range_green_ k * f0_1 * green_match else tol in
  let tol := if range_blue_ k <? f0 then tol + range_blue_ k * f0_1 * blue_match else tol in
  let tol := if range_yellow_ k <? f0 then tol + range_yellow_ k * f0_1 * yellow_match else tol in
  let tol := if range_magenta_ k <? f0 then tol + range_magenta_ k * f0_1 * magenta_match else tol in
  let tol := if range_cyan_ k <? f0 then tol + range_cyan_ k * f0_1 * cyan_match else tol in
  fmax f0_001 tol.

Definition calculate_distance_alpha (k : SimpleColorKeyerIop) (pixel key : Color3) : float :=
  let base_distance := distance_to pixel key in
  let normalized_distance := base_distance / effective_tolerance k pixel in
  fmax f0 (f1 - normalized_distance).

(** The distance in the (u, v) plane that [calculate_chroma_alpha] normalises. *)
Definition chroma_distance (pixel key : Color3) : float :=
  let pixel_u := r pixel - g pixel in
  let pixel_v := b pixel - g pixel in
  let key_u := r key - g key in
  let key_v := b key - g key in
  fsqrt ((pixel_u - key_u) * (pixel_u - key_u) + (pixel_v - key_v) * (pixel_v - key_v)).

Definition calculate_chroma_alpha (k : SimpleColorKeyerIop) (pixel key : Color3) : float :=
  let normalized_distance := chroma_distance pixel key / variance_ k in
  fmax f0 (f1 - normalized_distance).

Definition luma (c : Color3) : float :=
  f0_299 * r c + f0_587 * g c + f0_114 * b c.

Definition luma_weight (pixel key : Color3) : float :=
  let luma_diff := fabs (luma pixel - luma key) in
  f1 - fmin f1 (luma_diff / f0_5).

Definition calculate_luma_weighted_alpha (k : SimpleColorKeyerIop) (pixel key : Color3) : float :=
  let color_alpha := calculate_distance_alpha k pixel key in
  color_alpha * luma_weight pixel key.

Definition key_saturation (key : Color3) : float :=
  fmax3 (r key) (g key) (b key) - fmin3 (r key) (g key) (b key).

Definition calculate_adaptive_alpha (k : SimpleColorKeyerIop) (pixel key : Color3) : float :=
  let distance_alpha := calculate_distance_alpha k pixel key in
  let chroma_alpha := calculate_chroma_alpha k pixel key in
  if key_saturation key >? f0_5
  then f0_3 * distance_alpha + f0_7 * chroma_alpha
  else f0_7 * distance_alpha + f0_3 * chroma_alpha.

(** [calculate_alpha]: the [switch] over [keying_method_]; no case matches a
    selector outside 0..3 and the initial value [0.0f] is returned. *)
Definition calculate_alpha (k : SimpleColorKeyerIop) (pixel key : Color3) : float :=
  let alpha := f0 in
  match keying_method_ k with
  | 0%Z => calculate_distance_alpha k pixel key
  | 1%Z => calculate_chroma_alpha k pixel key
  | 2%Z => calculate_luma_weighted_alpha k pixel key
  | 3%Z => calculate_adaptive_alpha k pixel key
  | _ => alpha
  end.

(** The three statements of [engine] between the call of [calculate_alpha] and
    the write to the alpha channel. *)
Definition post_process (k : SimpleColorKeyerIop) (alpha : float) : float :=
  let alpha := alpha * gain_ k in
  let alpha := fmax f0 (fmin f1 alpha) in
  if invert_ k then f1 - alpha else alpha.

(** The alpha that [engine] writes for one pixel of the row. *)
Definition engine_alpha (k : SimpleColorKeyerIop) (pixel : Color3) : float :=
  post_process k (calculate_alpha k pixel (key_color_ k)).

(** One row of [engine]: RGB is passed through and alpha is always written. *)
Definition engine (k : SimpleColorKeyerIop) (row : list Color3) : list (Color3 * float) :=
  map (fun pixel => (pixel, engine_alpha k pixel)) row.

End Alpha.

(** ** The node on the rows of an image

    [engine] is called with a line [y], a span from [x] up to but not
    including [r], the channels asked for and the output row; it fetches the
    red, green and blue samples of the input for that span and writes the
    output row.  The channels, channel masks and rows are those of the
    DDImage library, read as follows. *)

(** [enum Channel] of DDImage: a channel is a small number; the node touches
    the four below. *)
Definition Channel : Type := Z.

Definition Chan_Red : Channel := 1.

Definition Chan_Green : Channel := 2.

Definition Chan_Blue : Channel := 3.

Definition Chan_Alpha : Channel := 4.

(** [ChannelMask]: a set of channels, as the bit mask DDImage builds its
    [Mask_*] constants with, channel [z] at bit [z - 1]. *)
Definition ChannelMask : Type := Z.

Definition Mask_Red : ChannelMask := Z.shiftl 1 (Chan_Red - 1).

Definition Mask_Green : ChannelMask := Z.shiftl 1 (Chan_Green - 1).

Definition Mask_Blue : ChannelMask := Z.shiftl 1 (Chan_Blue - 1).

Definition Mask_Alpha : ChannelMask := Z.shiftl 1 (Chan_Alpha - 1).

Definition Mask_RGB : ChannelMask := Z.lor (Z.lor Mask_Red Mask_Green) Mask_Blue.

Definition Mask_RGBA : ChannelMask := Z.lor Mask_RGB Mask_Alpha.

(** [channels & mask] used as a condition: the two sets share a channel. *)
Definition intersects (channels mask : ChannelMask) : bool :=
  negb (Z.land channels mask =? 0).

(** Membership of one channel. *)
Definition contains (channels : ChannelMask) (z : Channel) : bool :=
  Z.testbit channels (z - 1).

(** [turn_on]: add the channels of [mask]. *)
Definition turn_on (channels mask : ChannelMask) : ChannelMask := Z.lor channels mask.

(** A [Row]: one buffer of samples per channel, indexed by the horizontal
    position.  An image gives a row for every [y]. *)
Definition Row : Type := Channel -> Z -> float.

Definition Image : Type := Z -> Row.

(** [row.writable(z)[X] = v]. *)
Definition write (row : Row) (z : Channel) (X : Z) (v : float) : Row :=
  fun z' X' => if (z' =? z) && (X' =? X) then v else row z' X'.

(** [Row input_row(x, r); input0().get(y, x, r, channels, input_row)]: the
    samples of line [y] of the input for the channels asked, from [x] up to
    but not including [r].  The model puts 0 everywhere else. *)
Definition get (input0 : Image) (y x r : Z) (channels : ChannelMask) : Row :=
  fun z X =>
    if contains channels z && (x <=? X) && (X <? r) then input0 y z X else f0.

(** The colour [engine] builds of the three samples at [X]. *)
Definition pixel_at (input_row : Row) (X : Z) : Color3 :=
  mkColor3 (input_row Chan_Red X) (input_row Chan_Green X) (input_row Chan_Blue X).

(** The body of the [for] loop of [engine], run [n] times from [X]. *)
Fixpoint engine_loop (k : SimpleColorKeyerIop) (channels : ChannelMask) (input_row : Row)
    (n : nat) (X : Z) (row : Row) : Row :=
  match n with
  | O => row
  | S n' =>
      let pixel_color := pixel_at input_row X in
      let alpha := engine_alpha k pixel_color in
      let row := if intersects channels Mask_Red
                 then write row Chan_Red X (input_row Chan_Red X) else row in
      let row := if intersects channels Mask_Green
                 then write row Chan_Green X (input_row Chan_Green X) else row in
      let row := if intersects channels Mask_Blue
                 then write row Chan_Blue X (input_row Chan_Blue X) else row in
      let row := write row Chan_Alpha X alpha in
      engine_loop k channels input_row n' (X + 1) row
  end.

(** [engine(y, x, r, channels, row)]: the loop [for (X = x; X < r; X++)] runs
    [r - x] times when [x < r] and not at all otherwise. *)
Definition engine_row (k : SimpleColorKeyerIop) (input0 : Image)
    (y x r : Z) (channels : ChannelMask) (row : Row) : Row :=
  let input_row := get input0 y x r Mask_RGB in
  engine_loop k channels input_row (Z.to_nat (r - x)) x row.

(** The arguments of a [request] call on the input: the box from [(x, y)] to
    [(r, t)], the channels and the count. *)
Record Request : Type := mkRequest {
  req_x : Z; req_y : Z; req_r : Z; req_t : Z;
  req_channels : ChannelMask; req_count : Z
}.

(** [_request]: the request passed on to the input, [Mask_RGB] whatever the
    channels asked of the node (the [if (channels & Mask_Alpha)] of the source
    has an empty body). *)
Definition _request (x y r t : Z) (channels : ChannelMask) (count : Z) : Request :=
  let input_channels := Mask_RGB in
  mkRequest x y r t input_channels count.

(** [_validate]: the channels of [info_] and the output channels it leaves,
    given the channels of the input (validated by [Iop::_validate]):
    [copy_info] takes the input's over, [set_out_channels] sets the second
    component, the two [turn_on] add alpha; [for_real] is only passed on. *)
Definition _validate (input0_channels : ChannelMask) : ChannelMask * ChannelMask :=
  let info_ := input0_channels in
  let out_channels_ := Mask_RGBA in
  let info_ := turn_on info_ Mask_Alpha in
  let info_ := if intersects info_ Mask_RGB then turn_on info_ Mask_Alpha else info_ in
  (info_, out_channels_).

(** ** Classes of numbers and the order index

    [ord] sends a well-formed number to an integer that orders like the number
    itself: a finite number to its value in units of 2^-149 (the least positive
    binary32 number), the infinities to plus and minus 2^277 (2^128 in the
    same units), both zeros and NaN to 0. *)

Definition is_nan (x : float) : bool :=
  match x with S754_nan => true | _ => false end.

Definition fsign (x : float) : bool :=
  match x with
  | S754_zero s | S754_infinity s | S754_finite s _ _ => s
  | S754_nan => false
  end.

Definition fin (x : float) : bool :=
  match x with S754_zero _ | S754_finite _ _ _ => true | _ => false end.

Definition inf_ord : Z := 2 ^ 277.

Definition ord (x : float) : Z :=
  match x with
  | S754_zero _ => 0
  | S754_nan => 0
  | S754_infinity s => cond_Zopp s inf_ord
  | S754_finite s m e => cond_Zopp s (Z.pos m * 2 ^ (e + 149))
  end.

(** ** Definitions used to state the claims *)

(** The six hue directions of the specification, in the order it lists them. *)
Inductive direction : Type := Red | Green | Blue | Yellow | Magenta | Cyan.



Definition dir_match (pixel : Color3) (d : direction) : float :=
  match d with
  | Red => r pixel | Green => g pixel | Blue => b pixel
  | Yellow => fmin (r pixel) (g pixel)
  | Magenta => fmin (r pixel) (b pixel)
  | Cyan => fmin (g pixel) (b pixel)
  end.






(** The same node with another variance. *)
Definition with_variance (k : SimpleColorKeyerIop) (v : float) : SimpleColorKeyerIop :=
  {| key_color_ := key_color_ k; variance_ := v;
     range_red_ := range_red_ k; range_magenta_ := range_magenta_ k;
     range_green_ := range_green_ k; range_yellow_ := range_yellow_ k;
     range_blue_ := range_blue_ k; range_cyan_ := range_cyan_ k;
     gain_ := gain_ k; invert_ := invert_ k; keying_method_ := keying_method_ k |}.

(** The same node with another range for one direction. *)
Definition with_range (k : SimpleColorKeyerIop) (d : direction) (range : float)
  : SimpleColorKeyerIop :=
  {| key_color_ := key_color_ k; variance_ := variance_ k;
     range_red_ := match d with Red => range | _ => range_red_ k end;
     range_magenta_ := match d with Magenta => range | _ => range_magenta_ k end;
     range_green_ := match d with Green => range | _ => range_green_ k end;
     range_yellow_ := match d with Yellow => range | _ => range_yellow_ k end;
     range_blue_ := match d with Blue => range | _ => range_blue_ k end;
     range_cyan_ := match d with Cyan => range | _ => range_cyan_ k end;
     gain_ := gain_ k; invert_ := invert_ k; keying_method_ := keying_method_ k |}.

(** The pixel with [d] added to its three channels, in binary32. *)
Definition shift (pixel : Color3) (d : float) : Color3 :=
  mkColor3 (fadd (r pixel) d) (fadd (g pixel) d) (fadd (b pixel) d).

Definition fin_color (c : Color3) : bool := fin (r c) && fin (g c) && fin (b c).

(** [pixel'] carries exactly the channels of [pixel] plus one common offset:
    the three channel differences, in units of 2^-149, are one integer. *)
Definition exact_shift (pixel pixel' : Color3) : Prop :=
  exists D : Z,
    ord (r pixel') = ord (r pixel) + D /\
    ord (g pixel') = ord (g pixel) + D /\
    ord (b pixel') = ord (b pixel) + D.

(** A method selector that no [case] of the [switch] matches. *)
Definition unknown_method (k : SimpleColorKeyerIop) : Prop :=
  keying_method_ k < 0 \/ 3 < keying_method_ k.

(** Parameter sets used in examples. *)
Definition iop_inf_gain : SimpleColorKeyerIop :=
  {| key_color_ := mkColor3 f0 f1 f0;
     variance_ := f0_3;
     range_red_ := f0; range_magenta_ := f0; range_green_ := f0;
     range_yellow_ := f0; range_blue_ := f0; range_cyan_ := f0;
     gain_ := S754_infinity false; invert_ := false; keying_method_ := 4 |}.

Definition iop_yellow_bias : SimpleColorKeyerIop :=
  {| key_color_ := mkColor3 f0 f1 f0;
     variance_ := f0_3;
     range_red_ := f0; range_magenta_ := f0; range_green_ := f0;
     range_yellow_ := S754_finite false 12582912 (-22);
     range_blue_ := f0; range_cyan_ := f0;
     gain_ := f1; invert_ := false; keying_method_ := 0 |}.

(** Further numbers used in examples. *)
Definition f3 : float := S754_finite false 12582912 (-22).      (* 3.0f   *)



(** ** Definitions used to state further properties *)

(** A colour with a NaN channel. *)
Definition has_nan (c : Color3) : bool := is_nan (r c) || is_nan (g c) || is_nan (b c).

(** The same node with another gain. *)
Definition with_gain (k : SimpleColorKeyerIop) (gain : float) : SimpleColorKeyerIop :=
  {| key_color_ := key_color_ k; variance_ := variance_ k;
     range_red_ := range_red_ k; range_magenta_ := range_magenta_ k;
     range_green_ := range_green_ k; range_yellow_ := range_yellow_ k;
     range_blue_ := range_blue_ k; range_cyan_ := range_cyan_ k;
     gain_ := gain; invert_ := invert_ k; keying_method_ := keying_method_ k |}.

(** A node that uses the Adaptive method, and one with gain 0. *)
Definition iop_adaptive : SimpleColorKeyerIop :=
  {| key_color_ := mkColor3 f0 f1 f0;
     variance_ := f0_3;
     range_red_ := f0; range_magenta_ := f0; range_green_ := f0;
     range_yellow_ := f0; range_blue_ := f0; range_cyan_ := f0;
     gain_ := f2; invert_ := false; keying_method_ := 3 |}.

Definition iop_no_gain : SimpleColorKeyerIop :=
  {| key_color_ := mkColor3 f0 f1 f0;
     variance_ := f0_3;
     range_red_ := f0; range_magenta_ := f0; range_green_ := f0;
     range_yellow_ := f0; range_blue_ := f0; range_cyan_ := f0;
     gain_ := f0; invert_ := true; keying_method_ := 0 |}.

(** An image of constant colour (0.1, 0.9, 0.1) and an empty output row. *)
Definition flat_image : Image :=
  fun _ z _ => if z =? Chan_Green then f0_9 else f0_1.

Definition blank_row : Row := fun _ _ => f0.

(** ** Notions used by the proofs *)

(** Round to nearest, ties to even, of the non-negative fraction [A / D] to
    an integer: [loc_of] places the remainder against one half. *)
Definition loc_of (A D : Z) : location :=
  if A mod D =? 0 then loc_Exact else loc_Inexact (2 * (A mod D) ?= D).
Definition rne (A D : Z) : Z := round_nearest_even (A / D) (loc_of A D).

(** [rounds_to VN VD v]: the positive fraction [VN / VD], read in units of
    2^-149, rounds to [v] (same units) before overflow is looked at.  [t] is
    the exponent of the last place and [A / D] the value in units of that
    place; the two bounds say that [t] is the place binary32 keeps for a
    value of that magnitude. *)
Definition rounds_to (VN VD v : Z) : Prop :=
  exists A D t,
    0 <= A /\ 0 < D /\ 0 <= t /\ A < 2 ^ 24 * D /\ (t = 0 \/ 2 ^ 23 * D <= A) /\
    A * 2 ^ t * VD = VN * D /\ v = rne A D * 2 ^ t.

(** A shift record holds the integer part of [A / C] and the position of the
    rest against one half. *)
Definition rec_repr (A C : Z) (mrs : shr_record) : Prop :=
  shr_m mrs = A / C /\ loc_of_shr_record mrs = loc_of A C.

(** The number [binary_round_aux] builds of a rounded mantissa [k] at
    exponent [T]. *)
Definition pack (s : bool) (k T : Z) : float :=
  match k with
  | Z0 => S754_zero s
  | Zpos m =>
      if k =? 16777216
      then (if T + 1 <=? 104 then S754_finite s 8388608 (T + 1) else S754_infinity s)
      else (if T <=? 104 then S754_finite s m T else S754_infinity s)
  | Zneg _ => S754_nan
  end.

(** [x] is the correctly rounded number of sign [s] and magnitude [VN / VD]. *)
Definition rounded (s : bool) (VN VD : Z) (x : float) : Prop :=
  wf x = true /\ is_nan x = false /\ fsign x = s /\
  exists v, rounds_to VN VD v /\ ord x = cond_Zopp s (Z.min v inf_ord).

(** [o] is the order index of the rounding of the signed fraction [N / VD]. *)
Definition sround (N VD o : Z) : Prop :=
  (N = 0 /\ o = 0) \/
  (0 < N /\ exists v, rounds_to N VD v /\ o = Z.min v inf_ord) \/
  (N < 0 /\ exists v, rounds_to (- N) VD v /\ o = - Z.min v inf_ord).

(** A number of the closed interval from 0 to 1. *)
Definition unit_interval (x : float) : Prop :=
  wf x = true /\ is_nan x = false /\ 0 <= ord x <= ord f1.

(** One conditional accumulation of [effective_tolerance], and the twelve of
    them as a list. *)
Definition step (c : bool) (t tol : float) : float := if c then fadd tol t else tol.

Definition tol_chain (k : SimpleColorKeyerIop) (pixel : Color3) : list (bool * float) :=
  let yellow_match := fmin (r pixel) (g pixel) in
  let magenta_match := fmin (r pixel) (b pixel) in
  let cyan_match := fmin (g pixel) (b pixel) in
  [ (flt f0 (range_red_ k), fmul (fmul (range_red_ k) f0_1) (r pixel));
    (flt f0 (range_green_ k), fmul (fmul (range_green_ k) f0_1) (g pixel));
    (flt f0 (range_blue_ k), fmul (fmul (range_blue_ k) f0_1) (b pixel));
    (flt f0 (range_yellow_ k), fmul (fmul (range_yellow_ k) f0_1) yellow_match);
    (flt f0 (range_magenta_ k), fmul (fmul (range_magenta_ k) f0_1) magenta_match);
    (flt f0 (range_cyan_ k), fmul (fmul (range_cyan_ k) f0_1) cyan_match);
    (flt (range_red_ k) f0, fmul (fmul (range_red_ k) f0_1) (r pixel));
    (flt (range_green_ k) f0, fmul (fmul (range_green_ k) f0_1) (g pixel));
    (flt (range_blue_ k) f0, fmul (fmul (range_blue_ k) f0_1) (b pixel));
    (flt (range_yellow_ k) f0, fmul (fmul (range_yellow_ k) f0_1) yellow_match);
    (flt (range_magenta_ k) f0, fmul (fmul (range_magenta_ k) f0_1) magenta_match);
    (flt (range_cyan_ k) f0, fmul (fmul (range_cyan_ k) f0_1) cyan_match) ].

Definition run_chain (l : list (bool * float)) (tol : float) : float :=
  fold_left (fun tol ct => step (fst ct) (snd ct) tol) l tol.

(** [below a1 a2]: the accumulated tolerance [a1] cannot end above [a2]. *)
Definition below (a1 a2 : float) : Prop :=
  is_nan a1 = true \/ a1 = S754_infinity true \/
  (is_nan a1 = false /\ is_nan a2 = false /\ ord a1 <= ord a2).

(** Two numbers that differ at most in the sign of a zero. *)
Definition eqz (x y : float) : Prop :=
  x = y \/ exists s s', x = S754_zero s /\ y = S754_zero s'.

(** Two entries of the accumulation that keep [below]: the same entry, or two
    entries related as in [below_step2]. *)
Definition step_le (ct1 ct2 : bool * float) : Prop :=
  (ct1 = ct2 /\ wf (snd ct1) = true) \/
  (wf (snd ct1) = true /\ wf (snd ct2) = true /\
   is_nan (snd ct1) = false /\ is_nan (snd ct2) = false /\
   (fst ct1 = true -> fst ct2 = true -> ord (snd ct1) <= ord (snd ct2)) /\
   (fst ct1 = false -> fst ct2 = true -> 0 <= ord (snd ct2)) /\
   (fst ct1 = true -> fst ct2 = false -> ord (snd ct1) <= 0)).

(** What [engine] leaves at channel [z] and position [X] of the span. *)
Definition engine_cell (k : SimpleColorKeyerIop) (channels : ChannelMask)
    (input_row row : Row) (z : Channel) (X : Z) : float :=
  if z =? Chan_Alpha then engine_alpha k (pixel_at input_row X)
  else if (z =? Chan_Blue) && intersects channels Mask_Blue then input_row Chan_Blue X
  else if (z =? Chan_Green) && intersects channels Mask_Green then input_row Chan_Green X
  else if (z =? Chan_Red) && intersects channels Mask_Red then input_row Chan_Red X
  else row z X.

(** * Rounding to nearest, ties to even, on integers *)

(** The rounded integer is within one half of the fraction, and a tie goes to
    the even neighbour. *)
Lemma rne_spec (A D : Z) :
  0 <= A -> 0 < D ->
  let k := rne A D in
  0 <= k /\ (2 * k - 1) * D <= 2 * A <= (2 * k + 1) * D /\
  (2 * A = (2 * k + 1) * D -> Z.even k = true) /\
  ((2 * k - 1) * D = 2 * A -> Z.even k = true).
Proof.
  intros HA HD. unfold rne, loc_of.
  pose proof (Z.div_mod A D ltac:(lia)) as Hdm.
  pose proof (Z.mod_pos_bound A D HD) as Hm.
  assert (Hq : 0 <= A / D) by (apply Z.div_pos; lia).
  set (q := A / D) in *. set (rho := A mod D) in *.
  destruct (Z.eqb_spec rho 0) as [H0|H0].
  - cbn [round_nearest_even]. subst rho. rewrite H0 in *. replace A with (D * q) in * by lia.
    split; [lia|]. split; [nia|]. split; intros; nia.
  - replace A with (D * q + rho) in * by lia. clear Hdm.
    destruct (Z.compare_spec (2 * rho) D) as [He|Hl|Hg]; cbn [round_nearest_even].
    + destruct (Z.even q) eqn:Ev.
      * split; [lia|]. split; [nia|]. split; intros; [exact Ev|nia].
      * split; [lia|]. split; [nia|]. split; intros; [nia|].
        rewrite Z.even_add, Ev. reflexivity.
    + split; [lia|]. split; [nia|]. split; intros; nia.
    + split; [lia|]. split; [nia|]. split; intros; nia.
Qed.

Lemma rne_mono (A1 D1 A2 D2 : Z) :
  0 <= A1 -> 0 < D1 -> 0 <= A2 -> 0 < D2 ->
  A1 * D2 <= A2 * D1 -> rne A1 D1 <= rne A2 D2.
Proof.
  intros HA1 HD1 HA2 HD2 Hle.
  destruct (rne_spec A1 D1 HA1 HD1) as (K1 & [L1 U1] & E1 & F1).
  destruct (rne_spec A2 D2 HA2 HD2) as (K2 & [L2 U2] & E2 & F2).
  set (k1 := rne A1 D1) in *. set (k2 := rne A2 D2) in *.
  destruct (Z_le_gt_dec k1 k2) as [|Hgt]; [assumption|exfalso].
  assert (H1 : (2 * k2 + 1) * D1 <= (2 * k1 - 1) * D1) by nia.
  assert (H2 : (2 * k1 - 1) * D1 * D2 <= 2 * A1 * D2) by nia.
  assert (H3 : 2 * A2 * D1 <= (2 * k2 + 1) * D2 * D1) by nia.
  assert (H4 : (2 * k1 - 1) * (D1 * D2) <= (2 * k2 + 1) * (D1 * D2)) by nia.
  assert (HDD : 0 < D1 * D2) by nia.
  assert (Hk : k1 = k2 + 1) by nia.
  assert (G1 : (2 * k1 - 1) * D1 = 2 * A1) by nia.
  assert (G2 : 2 * A2 = (2 * k2 + 1) * D2) by nia.
  specialize (F1 G1). specialize (E2 G2).
  rewrite Hk, Z.even_add, E2 in F1. discriminate.
Qed.

Lemma rne_le (A D n : Z) :
  0 <= A -> 0 < D -> 0 <= n -> A <= n * D -> rne A D <= n.
Proof.
  intros HA HD Hn Hlt.
  destruct (rne_spec A D HA HD) as (K & [L U] & _ & _).
  nia.
Qed.

Lemma rne_ge (A D n : Z) :
  0 <= A -> 0 < D -> 0 <= n -> n * D <= A -> n <= rne A D.
Proof.
  intros HA HD Hn Hlt.
  destruct (rne_spec A D HA HD) as (K & [L U] & _ & _).
  nia.
Qed.

(** ** Powers of two *)

Lemma pow2_pos (n : Z) : 0 <= n -> 0 < 2 ^ n.
Proof. intros. apply Z.pow_pos_nonneg; lia. Qed.

Lemma pow2_split (a c : Z) : 0 <= a <= c -> 2 ^ c = 2 ^ a * 2 ^ (c - a).
Proof. intros. rewrite <- Z.pow_add_r by lia. f_equal. lia. Qed.

Lemma pow2_lt_twice (a c : Z) : 0 <= a < c -> 2 * 2 ^ a <= 2 ^ c.
Proof.
  intros. rewrite (pow2_split (a + 1) c) by lia.
  rewrite Z.pow_add_r by lia. change (2 ^ 1) with 2.
  pose proof (pow2_pos (c - (a + 1)) ltac:(lia)). pose proof (pow2_pos a ltac:(lia)). nia.
Qed.

(** ** Rounding is monotone and single-valued *)

(** A smaller fraction never rounds above a larger one. *)
Lemma rounds_to_mono (VN1 VD1 v1 VN2 VD2 v2 : Z) :
  0 < VD1 -> 0 < VD2 ->
  rounds_to VN1 VD1 v1 -> rounds_to VN2 VD2 v2 ->
  VN1 * VD2 <= VN2 * VD1 -> v1 <= v2.
Proof.
  intros HVD1 HVD2 (A1 & D1 & t1 & HA1 & HD1 & Ht1 & Hu1 & Hl1 & Hid1 & ->)
         (A2 & D2 & t2 & HA2 & HD2 & Ht2 & Hu2 & Hl2 & Hid2 & ->) Hle.
  pose proof (pow2_pos t1 Ht1) as HP1. pose proof (pow2_pos t2 Ht2) as HP2.
  assert (Hcross : A1 * 2 ^ t1 * D2 <= A2 * 2 ^ t2 * D1).
  { apply (Z.mul_le_mono_pos_r _ _ (VD1 * VD2)); [nia|].
    replace (A1 * 2 ^ t1 * D2 * (VD1 * VD2)) with (A1 * 2 ^ t1 * VD1 * (D2 * VD2)) by ring.
    replace (A2 * 2 ^ t2 * D1 * (VD1 * VD2)) with (A2 * 2 ^ t2 * VD2 * (D1 * VD1)) by ring.
    rewrite Hid1, Hid2.
    replace (VN1 * D1 * (D2 * VD2)) with (VN1 * VD2 * (D1 * D2)) by ring.
    replace (VN2 * D2 * (D1 * VD1)) with (VN2 * VD1 * (D1 * D2)) by ring.
    apply Z.mul_le_mono_nonneg_r; nia. }
  set (P1 := 2 ^ t1) in *. set (P2 := 2 ^ t2) in *.
  destruct (Z.lt_trichotomy t1 t2) as [Hlt|[Heq|Hgt]].
  - (* the first value lies in a lower binade *)
    assert (HPP : 2 * P1 <= P2) by (apply pow2_lt_twice; lia).
    assert (K1 : rne A1 D1 <= 2 ^ 24) by (apply rne_le; lia).
    assert (K2 : 2 ^ 23 <= rne A2 D2) by (apply rne_ge; lia).
    change (2 ^ 24) with 16777216 in *. change (2 ^ 23) with 8388608 in *. nia.
  - assert (P1 = P2) by (unfold P1, P2; congruence).
    assert (Hc : A1 * D2 <= A2 * D1) by nia.
    pose proof (rne_mono A1 D1 A2 D2 HA1 HD1 HA2 HD2 Hc). nia.
  - exfalso.
    assert (HPP : 2 * P2 <= P1) by (apply pow2_lt_twice; lia).
    change (2 ^ 24) with 16777216 in *. change (2 ^ 23) with 8388608 in *.
    assert (H1 : 8388608 * D1 <= A1) by lia.
    assert (HX : 0 < P2 * D1) by nia.
    assert (H2 : A2 * (P2 * D1) < 16777216 * D2 * (P2 * D1))
      by (apply Z.mul_lt_mono_pos_r; lia).
    assert (HY : 0 < D1 * D2) by nia.
    assert (H3 : (2 * P2) * (8388608 * (D1 * D2)) <= P1 * (8388608 * (D1 * D2)))
      by (apply Z.mul_le_mono_nonneg_r; lia).
    assert (H4 : 8388608 * D1 * (P1 * D2) <= A1 * (P1 * D2))
      by (apply Z.mul_le_mono_nonneg_r; nia).
    nia.
Qed.

Lemma rounds_to_fun (VN VD v1 v2 : Z) :
  0 < VD -> rounds_to VN VD v1 -> rounds_to VN VD v2 -> v1 = v2.
Proof.
  intros HVD H1 H2.
  pose proof (rounds_to_mono _ _ _ _ _ _ HVD HVD H1 H2 ltac:(lia)).
  pose proof (rounds_to_mono _ _ _ _ _ _ HVD HVD H2 H1 ltac:(lia)).
  lia.
Qed.

Lemma rounds_to_nonneg (VN VD v : Z) : rounds_to VN VD v -> 0 <= v.
Proof.
  intros (A & D & t & HA & HD & Ht & _ & _ & _ & ->).
  destruct (rne_spec A D HA HD) as (K & _).
  pose proof (pow2_pos t Ht). nia.
Qed.

(** * The rounding of [SpecFloat]

    [binary_round_aux] shifts the mantissa right to the last kept place,
    rounds it on the round and sticky bits, and renormalises. *)

(** ** Number of binary digits *)

Lemma digits2_pos_bounds (p : positive) :
  2 ^ (Z.pos (digits2_pos p) - 1) <= Z.pos p < 2 ^ Z.pos (digits2_pos p).
Proof.
  induction p as [p IH|p IH|]; cbn [digits2_pos].
  - rewrite Pos2Z.inj_succ. change (Z.pos p~1) with (2 * Z.pos p + 1).
    replace (Z.succ (Z.pos (digits2_pos p)) - 1) with (Z.pos (digits2_pos p) - 1 + 1) by lia.
    unfold Z.succ. rewrite !Z.pow_add_r by lia. change (2 ^ 1) with 2.
    set (lo := 2 ^ (Z.pos (digits2_pos p) - 1)) in *.
    set (hi := 2 ^ Z.pos (digits2_pos p)) in *. lia.
  - rewrite Pos2Z.inj_succ. change (Z.pos p~0) with (2 * Z.pos p).
    replace (Z.succ (Z.pos (digits2_pos p)) - 1) with (Z.pos (digits2_pos p) - 1 + 1) by lia.
    unfold Z.succ. rewrite !Z.pow_add_r by lia. change (2 ^ 1) with 2.
    set (lo := 2 ^ (Z.pos (digits2_pos p) - 1)) in *.
    set (hi := 2 ^ Z.pos (digits2_pos p)) in *. lia.
  - simpl. lia.
Qed.

Lemma Zdigits2_bounds (m : Z) :
  0 < m -> 2 ^ (Zdigits2 m - 1) <= m < 2 ^ Zdigits2 m.
Proof.
  destruct m as [|p|p]; try lia. intros _. apply digits2_pos_bounds.
Qed.

Lemma Zdigits2_nonneg (m : Z) : 0 <= Zdigits2 m.
Proof. destruct m; simpl; lia. Qed.

Lemma Zdigits2_unique (m d : Z) :
  2 ^ (d - 1) <= m < 2 ^ d -> 0 < d -> Zdigits2 m = d.
Proof.
  intros [Hl Hu] Hd.
  assert (Hm : 0 < m) by (pose proof (pow2_pos (d - 1) ltac:(lia)); lia).
  destruct (Zdigits2_bounds m Hm) as [Hl' Hu'].
  assert (Hdm : 0 < Zdigits2 m) by (destruct m; simpl in *; lia).
  destruct (Z.lt_trichotomy (Zdigits2 m) d) as [H|[H|H]]; [exfalso| assumption |exfalso].
  - assert (2 ^ Zdigits2 m <= 2 ^ (d - 1)) by (apply Z.pow_le_mono_r; lia). lia.
  - assert (2 ^ d <= 2 ^ (Zdigits2 m - 1)) by (apply Z.pow_le_mono_r; lia). lia.
Qed.

Lemma Zdigits2_le (m d : Z) : 0 <= d -> 0 <= m < 2 ^ d -> Zdigits2 m <= d.
Proof.
  intros Hd [Hl Hu]. destruct (Z.eq_dec m 0) as [->|Hn]; [simpl; lia|].
  destruct (Zdigits2_bounds m ltac:(lia)) as [Hl' _].
  destruct (Z_le_gt_dec (Zdigits2 m) d); [assumption|exfalso].
  assert (2 ^ d <= 2 ^ (Zdigits2 m - 1)) by (apply Z.pow_le_mono_r; lia). lia.
Qed.

Lemma Zdigits2_ge (m d : Z) : 0 < d -> 2 ^ (d - 1) <= m -> d <= Zdigits2 m.
Proof.
  intros Hd Hl.
  assert (Hm : 0 < m) by (pose proof (pow2_pos (d - 1) ltac:(lia)); lia).
  destruct (Zdigits2_bounds m Hm) as [_ Hu'].
  destruct (Z_le_gt_dec d (Zdigits2 m)); [assumption|exfalso].
  assert (2 ^ Zdigits2 m <= 2 ^ (d - 1)) by (apply Z.pow_le_mono_r; [lia|]; lia). lia.
Qed.

(** ** Shifting right with round and sticky bits *)

Lemma shr_1_nonneg (m : Z) (r s : bool) :
  0 <= m ->
  shr_1 (Build_shr_record m r s) = Build_shr_record (m / 2) (Z.odd m) (r || s).
Proof.
  intros Hm. rewrite <- Z.div2_div.
  destruct m as [|p|p]; [reflexivity| |lia].
  destruct p; reflexivity.
Qed.

Lemma rec_repr_shr_1 (A C : Z) (mrs : shr_record) :
  0 <= A -> 0 < C -> rec_repr A C mrs -> rec_repr A (C * 2) (shr_1 mrs).
Proof.
  intros HA HC [Hm Hl]. destruct mrs as [m r s]. simpl in Hm.
  assert (Hm0 : 0 <= m) by (subst m; apply Z.div_pos; lia).
  rewrite shr_1_nonneg by assumption.
  unfold rec_repr. cbn [shr_m].
  split.
  - subst m. rewrite Z.div_div by lia. reflexivity.
  - unfold loc_of in *. rewrite Z.rem_mul_r by lia.
    rewrite <- Hm. rewrite Zmod_odd.
    pose proof (Z.mod_pos_bound A C HC) as Hb.
    set (rho := A mod C) in *.
    destruct (Z.odd m); cbn [loc_of_shr_record].
    + replace (rho + C * 1 =? 0) with false by (symmetry; apply Z.eqb_neq; lia).
      destruct (Z.eqb_spec rho 0) as [H0|H0].
      * destruct r, s; simpl in Hl; try discriminate. cbn [orb].
        f_equal. symmetry. apply Z.compare_eq_iff. lia.
      * assert (r || s = true) by (destruct r, s; simpl in Hl; try discriminate; reflexivity).
        rewrite H. f_equal. symmetry. apply Z.compare_gt_iff. lia.
    + replace (rho + C * 0) with rho by lia.
      destruct (Z.eqb_spec rho 0) as [H0|H0].
      * destruct r, s; simpl in Hl; try discriminate. reflexivity.
      * assert (r || s = true) by (destruct r, s; simpl in Hl; try discriminate; reflexivity).
        rewrite H. f_equal. symmetry. apply Z.compare_lt_iff. lia.
Qed.

Lemma pow2_xO (p : positive) : 2 ^ Z.pos p~0 = 2 ^ Z.pos p * 2 ^ Z.pos p.
Proof.
  replace (Z.pos p~0) with (Z.pos p + Z.pos p) by lia.
  apply Z.pow_add_r; lia.
Qed.

Lemma pow2_xI (p : positive) : 2 ^ Z.pos p~1 = 2 * 2 ^ Z.pos p * 2 ^ Z.pos p.
Proof.
  replace (Z.pos p~1) with (1 + Z.pos p + Z.pos p) by lia.
  rewrite !Z.pow_add_r by lia. reflexivity.
Qed.

Lemma rec_repr_iter_pos (p : positive) :
  forall (A C : Z) (mrs : shr_record),
    0 <= A -> 0 < C -> rec_repr A C mrs ->
    rec_repr A (C * 2 ^ Z.pos p) (iter_pos shr_1 p mrs).
Proof.
  induction p as [p IH|p IH|]; intros A C mrs HA HC H; cbn [iter_pos].
  - pose proof (pow2_pos (Z.pos p) ltac:(lia)) as HP.
    replace (C * 2 ^ Z.pos p~1) with (C * 2 * 2 ^ Z.pos p * 2 ^ Z.pos p)
      by (rewrite pow2_xI; ring).
    apply IH; [assumption|nia|]. apply IH; [assumption|lia|].
    apply rec_repr_shr_1; assumption.
  - pose proof (pow2_pos (Z.pos p) ltac:(lia)) as HP.
    replace (C * 2 ^ Z.pos p~0) with (C * 2 ^ Z.pos p * 2 ^ Z.pos p)
      by (rewrite pow2_xO; ring).
    apply IH; [assumption|nia|]. apply IH; assumption.
  - change (2 ^ 1) with 2. apply rec_repr_shr_1; assumption.
Qed.

Lemma rec_repr_shr (A C : Z) (mrs : shr_record) (e n : Z) :
  0 <= A -> 0 < C -> 0 <= n -> rec_repr A C mrs ->
  rec_repr A (C * 2 ^ n) (fst (shr mrs e n)) /\ snd (shr mrs e n) = e + n.
Proof.
  intros HA HC Hn H. unfold shr. destruct n as [|p|p]; [| |lia].
  - simpl. rewrite Z.mul_1_r, Z.add_0_r. auto.
  - simpl fst. simpl snd. split; [|reflexivity]. apply rec_repr_iter_pos; assumption.
Qed.

Lemma rec_repr_of_loc (A C : Z) :
  0 <= A -> 0 < C -> rec_repr A C (shr_record_of_loc (A / C) (loc_of A C)).
Proof.
  intros. unfold rec_repr. destruct (loc_of A C) as [|[]]; simpl; auto.
Qed.

(** ** [binary_round_aux] computes [pack] of the rounded mantissa *)

Lemma fexp_eq (e : Z) : fexp prec emax e = Z.max (e - 24) (-149).
Proof. reflexivity. Qed.

Lemma fexp_ge (e : Z) : -149 <= fexp prec emax e.
Proof. rewrite fexp_eq. lia. Qed.

Lemma target_proper (A0 C0 E : Z) :
  0 <= A0 -> 0 < C0 ->
  let T := fexp prec emax (Zdigits2 (A0 / C0) + E) in
  E <= T ->
  A0 < 2 ^ 24 * (C0 * 2 ^ (T - E)) /\
  (T = -149 \/ 2 ^ 23 * (C0 * 2 ^ (T - E)) <= A0).
Proof.
  intros HA HC T HT. subst T. rewrite fexp_eq in *.
  set (M := A0 / C0) in *. set (d := Zdigits2 M) in *.
  pose proof (Zdigits2_nonneg M) as Hd. fold d in Hd.
  assert (HM : 0 <= M) by (apply Z.div_pos; lia).
  pose proof (Z.div_mod A0 C0 ltac:(lia)) as Hdm. fold M in Hdm.
  pose proof (Z.mod_pos_bound A0 C0 HC) as Hmb.
  set (p := Z.max (d + E - 24) (-149) - E) in *.
  assert (Hp : 0 <= p) by lia.
  pose proof (pow2_pos p Hp) as HPp.
  split.
  - (* M < 2^d <= 2^(24 + p) *)
    assert (HMd : M < 2 ^ d).
    { destruct (Z.eq_dec M 0) as [->|Hn]; [apply pow2_pos; lia|].
      apply Zdigits2_bounds. lia. }
    assert (Hdp : 2 ^ d <= 2 ^ (24 + p)) by (apply Z.pow_le_mono_r; lia).
    rewrite Z.pow_add_r in Hdp by lia.
    set (P := 2 ^ p) in *. set (Q := 2 ^ d) in *. change (2 ^ 24) with 16777216 in *.
    assert (A0 < (M + 1) * C0) by nia.
    assert ((M + 1) * C0 <= 16777216 * P * C0) by (apply Z.mul_le_mono_nonneg_r; lia).
    lia.
  - destruct (Z_le_gt_dec (d + E - 24) (-149)) as [Hs|Hn]; [left; lia|right].
    assert (Hpd : p = d - 24) by lia.
    assert (HM1 : 0 < M) by (destruct M; simpl in d; lia).
    pose proof (Zdigits2_bounds M HM1) as [HMl _]. fold d in HMl.
    replace (d - 1) with (23 + p) in HMl by lia.
    rewrite Z.pow_add_r in HMl by lia.
    set (P := 2 ^ p) in *. change (2 ^ 23) with 8388608 in *.
    assert (8388608 * P * C0 <= M * C0) by (apply Z.mul_le_mono_nonneg_r; lia).
    nia.
Qed.

(** Provided the last kept place [T] is not below the exponent [E] of the
    input, [binary_round_aux] on the integer part and position of [A0 / C0]
    returns [pack] of the rounding of [A0 / C0] at place [T]. *)
Lemma bra_pack (s : bool) (A0 C0 E : Z) :
  0 <= A0 -> 0 < C0 ->
  let T := fexp prec emax (Zdigits2 (A0 / C0) + E) in
  E <= T ->
  binary_round_aux prec emax s (A0 / C0) E (loc_of A0 C0)
  = pack s (rne A0 (C0 * 2 ^ (T - E))) T.
Proof.
  intros HA HC T HT.
  destruct (target_proper A0 C0 E HA HC HT) as [Hu Hl]. fold T in Hu, Hl.
  pose proof (fexp_ge (Zdigits2 (A0 / C0) + E)) as HTge. fold T in HTge.
  set (D := C0 * 2 ^ (T - E)) in *.
  assert (HD : 0 < D) by (pose proof (pow2_pos (T - E) ltac:(lia)); unfold D; nia).
  unfold binary_round_aux, shr_fexp. fold T.
  destruct (rec_repr_shr A0 C0 (shr_record_of_loc (A0 / C0) (loc_of A0 C0)) E (T - E)
              HA HC ltac:(lia) (rec_repr_of_loc A0 C0 HA HC)) as [[Hm Hloc] He].
  fold D in Hm, Hloc.
  destruct (shr (shr_record_of_loc (A0 / C0) (loc_of A0 C0)) E (T - E)) as [mrs' e'].
  cbn [fst snd] in Hm, Hloc, He. subst e'.
  replace (E + (T - E)) with T by lia.
  rewrite Hm, Hloc. fold (rne A0 D).
  assert (Hk1 : rne A0 D <= 16777216) by (apply rne_le; [lia..|change (2 ^ 24) with 16777216 in Hu; lia]).
  assert (Hk0 : 0 <= rne A0 D) by (apply rne_spec; lia).
  assert (Hk2 : T = -149 \/ 8388608 <= rne A0 D).
  { destruct Hl as [Hl|Hl]; [left; assumption|right].
    apply rne_ge; [lia..|exact Hl]. }
  set (k := rne A0 D) in *.
  destruct (Z.eq_dec k 16777216) as [Hk|Hk].
  - rewrite Hk. simpl Zdigits2. rewrite fexp_eq.
    replace (Z.max (25 + T - 24) (-149) - T) with 1 by lia.
    cbn. replace (T + 1 <=? 104) with (T + 1 <=? 128 - 24) by reflexivity.
    reflexivity.
  - assert (Hd : Zdigits2 k <= 24) by (apply Zdigits2_le; [lia|change (2 ^ 24) with 16777216; lia]).
    assert (Hn2 : fexp prec emax (Zdigits2 k + T) - T = 0).
    { rewrite fexp_eq. destruct Hk2 as [Hk2|Hk2]; [lia|].
      assert (24 <= Zdigits2 k) by (apply Zdigits2_ge; [lia|change (2 ^ (24 - 1)) with 8388608; lia]).
      lia. }
    rewrite Hn2. cbn [shr shr_record_of_loc shr_m].
    unfold pack. destruct k as [|m|m]; [reflexivity| |lia].
    replace (Z.pos m =? 16777216) with false by (symmetry; apply Z.eqb_neq; assumption).
    reflexivity.
Qed.

(** ** Well-formedness and order index of the result *)

Lemma inf_ord_eq : inf_ord = 16777216 * 2 ^ 253.
Proof. reflexivity. Qed.

Lemma wf_finite_iff (s : bool) (m : positive) (e : Z) :
  wf (S754_finite s m e) = true <->
  (-149 <= e <= 104 /\ Z.pos m < 16777216 /\ (e = -149 \/ 8388608 <= Z.pos m)).
Proof.
  unfold wf, valid_binary, bounded, canonical_mantissa.
  rewrite andb_true_iff, Z.eqb_eq, Z.leb_le, fexp_eq.
  change (emax - prec) with 104.
  pose proof (digits2_pos_bounds m) as [Hl Hu].
  set (d := Z.pos (digits2_pos m)) in *.
  assert (Hd : 0 < d) by (unfold d; lia).
  split.
  - intros [Hc He]. split; [lia|].
    assert (Hd24 : d <= 24) by lia.
    assert (2 ^ d <= 2 ^ 24) by (apply Z.pow_le_mono_r; lia).
    change (2 ^ 24) with 16777216 in *. split; [lia|].
    destruct (Z.eq_dec e (-149)); [left; assumption|right].
    assert (d = 24) by lia. subst d. rewrite H0 in Hl.
    change (2 ^ (24 - 1)) with 8388608 in Hl. lia.
  - intros (He & Hm & Hn). split; [|lia].
    assert (Hd24 : d <= 24).
    { apply (Zdigits2_le (Z.pos m) 24); [lia|change (2 ^ 24) with 16777216; lia]. }
    destruct Hn as [Hn|Hn]; [lia|].
    assert (24 <= d).
    { apply (Zdigits2_ge (Z.pos m) 24); [lia|change (2 ^ (24 - 1)) with 8388608; lia]. }
    lia.
Qed.

Lemma pow2_le_253 (T : Z) : -149 <= T <= 104 -> 0 < 2 ^ (T + 149) <= 2 ^ 253.
Proof.
  intros. split; [apply pow2_pos; lia|apply Z.pow_le_mono_r; lia].
Qed.

Lemma pack_props (s : bool) (k T : Z) :
  0 <= k <= 16777216 -> -149 <= T -> (T = -149 \/ 8388608 <= k) ->
  wf (pack s k T) = true /\ is_nan (pack s k T) = false /\ fsign (pack s k T) = s /\
  ord (pack s k T) = cond_Zopp s (Z.min (k * 2 ^ (T + 149)) inf_ord).
Proof.
  intros Hk HT Hn. unfold pack.
  destruct k as [|m|m]; [| |lia].
  - repeat split. simpl. rewrite Z.min_l by (unfold inf_ord; lia). destruct s; reflexivity.
  - destruct (Z.eqb_spec (Z.pos m) 16777216) as [He|Hne].
    + destruct (Z.leb_spec (T + 1) 104) as [HT1|HT1].
      * split; [apply wf_finite_iff; lia|]. repeat split.
        cbn [ord]. f_equal. rewrite He.
        replace (T + 1 + 149) with (1 + (T + 149)) by lia.
        rewrite Z.pow_add_r by lia. change (2 ^ 1) with 2.
        pose proof (pow2_le_253 T ltac:(lia)) as HP. rewrite inf_ord_eq.
        set (P := 2 ^ (T + 149)) in *. set (Q := 2 ^ 253) in *. lia.
      * repeat split. cbn [ord]. f_equal. rewrite He.
        assert (2 ^ 253 <= 2 ^ (T + 149)) by (apply Z.pow_le_mono_r; lia).
        rewrite inf_ord_eq.
        set (P := 2 ^ (T + 149)) in *. set (Q := 2 ^ 253) in *. lia.
    + destruct (Z.leb_spec T 104) as [HT1|HT1].
      * split; [apply wf_finite_iff; lia|]. repeat split.
        cbn [ord]. f_equal.
        pose proof (pow2_le_253 T ltac:(lia)) as HP. rewrite inf_ord_eq.
        set (P := 2 ^ (T + 149)) in *. set (Q := 2 ^ 253) in *. nia.
      * repeat split. cbn [ord]. f_equal.
        assert (2 * 2 ^ 253 <= 2 ^ (T + 149)).
        { change (2 * 2 ^ 253) with (2 ^ 254). apply Z.pow_le_mono_r; lia. }
        rewrite inf_ord_eq.
        set (P := 2 ^ (T + 149)) in *. set (Q := 2 ^ 253) in *. nia.
Qed.

Lemma bra_rounded (s : bool) (A0 C0 E VN VD : Z) :
  0 <= A0 -> 0 < C0 -> 0 < VD ->
  let T := fexp prec emax (Zdigits2 (A0 / C0) + E) in
  E <= T ->
  A0 * 2 ^ (T + 149) * VD = VN * (C0 * 2 ^ (T - E)) ->
  rounded s VN VD (binary_round_aux prec emax s (A0 / C0) E (loc_of A0 C0)).
Proof.
  intros HA HC HVD T HT Hid.
  rewrite (bra_pack s A0 C0 E HA HC HT). fold T.
  destruct (target_proper A0 C0 E HA HC HT) as [Hu Hl]. fold T in Hu, Hl.
  pose proof (fexp_ge (Zdigits2 (A0 / C0) + E)) as HTge. fold T in HTge.
  set (D := C0 * 2 ^ (T - E)) in *.
  assert (HD : 0 < D) by (pose proof (pow2_pos (T - E) ltac:(lia)); unfold D; nia).
  assert (Hk1 : rne A0 D <= 16777216) by (apply rne_le; [lia..|change (2 ^ 24) with 16777216 in Hu; lia]).
  assert (Hk0 : 0 <= rne A0 D) by (apply rne_spec; lia).
  assert (Hk2 : T = -149 \/ 8388608 <= rne A0 D).
  { destruct Hl as [Hl|Hl]; [left; assumption|right].
    apply rne_ge; [lia..|exact Hl]. }
  destruct (pack_props s (rne A0 D) T ltac:(lia) HTge Hk2) as (W & N & S & O).
  split; [exact W|]. split; [exact N|]. split; [exact S|].
  exists (rne A0 D * 2 ^ (T + 149)). split; [|exact O].
  exists A0, D, (T + 149). repeat split; lia.
Qed.

Lemma loc_of_exact (A : Z) : loc_of A 1 = loc_Exact.
Proof. unfold loc_of. rewrite Z.mod_1_r. reflexivity. Qed.

Lemma loc_of_code (q : Z) (l : location) :
  0 <= q ->
  exists A, 0 <= A /\ A / 4 = q /\ loc_of A 4 = l.
Proof.
  intros Hq.
  set (c := match l with
            | loc_Exact => 0 | loc_Inexact Lt => 1
            | loc_Inexact Eq => 2 | loc_Inexact Gt => 3 end).
  assert (Hc : 0 <= c < 4) by (unfold c; destruct l as [|[]]; lia).
  exists (q * 4 + c). split; [lia|].
  assert (Hd : (q * 4 + c) / 4 = q).
  { symmetry. apply (Z.div_unique _ 4 q c); lia. }
  split; [exact Hd|].
  unfold loc_of.
  assert (Hm : (q * 4 + c) mod 4 = c).
  { symmetry. apply (Z.mod_unique _ 4 q c); lia. }
  rewrite Hm. unfold c. destruct l as [|[]]; reflexivity.
Qed.

Lemma bra_valid (s : bool) (M E : Z) (l : location) :
  0 <= M -> E <= fexp prec emax (Zdigits2 M + E) ->
  let x := binary_round_aux prec emax s M E l in
  wf x = true /\ is_nan x = false /\ fsign x = s.
Proof.
  intros HM HT x. subst x.
  destruct (loc_of_code M l HM) as (A & HA & Hq & Hl).
  rewrite <- Hq, <- Hl. rewrite <- Hq in HT.
  rewrite (bra_pack s A 4 E HA ltac:(lia) HT).
  destruct (target_proper A 4 E HA ltac:(lia) HT) as [Hu Hlo].
  pose proof (fexp_ge (Zdigits2 (A / 4) + E)) as HTge.
  set (T := fexp prec emax (Zdigits2 (A / 4) + E)) in *.
  set (D := 4 * 2 ^ (T - E)) in *.
  assert (HD : 0 < D) by (pose proof (pow2_pos (T - E) ltac:(lia)); unfold D; nia).
  assert (Hk1 : rne A D <= 16777216) by (apply rne_le; [lia..|change (2 ^ 24) with 16777216 in Hu; lia]).
  assert (Hk0 : 0 <= rne A D) by (apply rne_spec; lia).
  assert (Hk2 : T = -149 \/ 8388608 <= rne A D).
  { destruct Hlo as [Hlo|Hlo]; [left; assumption|right].
    apply rne_ge; [lia..|exact Hlo]. }
  destruct (pack_props s (rne A D) T ltac:(lia) HTge Hk2) as (W & N & S & O).
  auto.
Qed.

(** * Comparison is the comparison of order indices *)

Lemma ord_finite_bounds (s : bool) (m : positive) (e : Z) :
  wf (S754_finite s m e) = true ->
  0 < Z.pos m * 2 ^ (e + 149) < inf_ord.
Proof.
  intros H. apply wf_finite_iff in H. destruct H as (He & Hm & _).
  pose proof (pow2_le_253 e He) as HP. rewrite inf_ord_eq.
  set (P := 2 ^ (e + 149)) in *. set (Q := 2 ^ 253) in *. nia.
Qed.

Lemma ord_lt_exp (m1 m2 : positive) (e1 e2 : Z) :
  wf (S754_finite false m1 e1) = true -> wf (S754_finite false m2 e2) = true ->
  e1 < e2 -> Z.pos m1 * 2 ^ (e1 + 149) < Z.pos m2 * 2 ^ (e2 + 149).
Proof.
  intros H1 H2 Hlt.
  apply wf_finite_iff in H1. apply wf_finite_iff in H2.
  destruct H1 as (He1 & Hm1 & _). destruct H2 as (He2 & Hm2 & Hn2).
  assert (HPP : 2 * 2 ^ (e1 + 149) <= 2 ^ (e2 + 149)) by (apply pow2_lt_twice; lia).
  pose proof (pow2_pos (e1 + 149) ltac:(lia)).
  set (P := 2 ^ (e1 + 149)) in *. set (Q := 2 ^ (e2 + 149)) in *. nia.
Qed.

Lemma compare_pos_finite (m1 m2 : positive) (e1 e2 : Z) :
  wf (S754_finite false m1 e1) = true -> wf (S754_finite false m2 e2) = true ->
  match e1 ?= e2 with
  | Lt => Lt
  | Gt => Gt
  | Eq => Pos.compare_cont Eq m1 m2
  end = (Z.pos m1 * 2 ^ (e1 + 149) ?= Z.pos m2 * 2 ^ (e2 + 149)).
Proof.
  intros H1 H2. symmetry.
  destruct (Z.compare_spec e1 e2) as [He|He|He].
  - subst e2. pose proof (wf_finite_iff false m1 e1) as [W _]. specialize (W H1).
    pose proof (pow2_pos (e1 + 149) ltac:(lia)) as HP.
    rewrite <- Zmult_compare_compat_r by lia. reflexivity.
  - apply Z.compare_lt_iff. apply ord_lt_exp; assumption.
  - apply Z.compare_gt_iff. apply ord_lt_exp; assumption.
Qed.

Lemma wf_sign (s s' : bool) (m : positive) (e : Z) :
  wf (S754_finite s m e) = wf (S754_finite s' m e).
Proof. reflexivity. Qed.

(** On well-formed numbers other than NaN, [SFcompare] compares order indices. *)
Lemma compare_ord (x y : float) :
  wf x = true -> wf y = true -> is_nan x = false -> is_nan y = false ->
  SFcompare x y = Some (ord x ?= ord y).
Proof.
  intros Wx Wy Nx Ny.
  destruct x as [sx|sx| |sx mx ex]; try discriminate;
  destruct y as [sy|sy| |sy my ey]; try discriminate; cbn [SFcompare ord].
  - reflexivity.
  - destruct sy; reflexivity.
  - pose proof (ord_finite_bounds sy my ey Wy). destruct sy; cbn [cond_Zopp]; f_equal; symmetry.
    + apply Z.compare_gt_iff. lia.
    + apply Z.compare_lt_iff. lia.
  - destruct sx; reflexivity.
  - destruct sx, sy; reflexivity.
  - pose proof (ord_finite_bounds sy my ey Wy). unfold inf_ord in *.
    destruct sx, sy; cbn [cond_Zopp]; f_equal; symmetry;
      first [apply Z.compare_gt_iff; lia | apply Z.compare_lt_iff; lia].
  - pose proof (ord_finite_bounds sx mx ex Wx). destruct sx; cbn [cond_Zopp]; f_equal; symmetry.
    + apply Z.compare_lt_iff. lia.
    + apply Z.compare_gt_iff. lia.
  - pose proof (ord_finite_bounds sx mx ex Wx). unfold inf_ord in *.
    destruct sx, sy; cbn [cond_Zopp]; f_equal; symmetry;
      first [apply Z.compare_gt_iff; lia | apply Z.compare_lt_iff; lia].
  - pose proof (ord_finite_bounds sx mx ex Wx). pose proof (ord_finite_bounds sy my ey Wy).
    f_equal. destruct sx, sy; cbn [cond_Zopp].
    + rewrite (wf_sign true false) in Wx, Wy.
      rewrite Z.compare_opp.
      rewrite (Z.compare_antisym (Z.pos mx * 2 ^ (ex + 149)) (Z.pos my * 2 ^ (ey + 149))).
      rewrite <- (compare_pos_finite mx my ex ey Wx Wy).
      destruct (ex ?= ey); reflexivity.
    + symmetry. apply Z.compare_lt_iff. lia.
    + symmetry. apply Z.compare_gt_iff. lia.
    + apply (compare_pos_finite mx my ex ey Wx Wy).
Qed.

Lemma flt_ord (x y : float) :
  wf x = true -> wf y = true -> is_nan x = false -> is_nan y = false ->
  flt x y = (ord x <? ord y).
Proof.
  intros. unfold flt, SFltb. rewrite compare_ord by assumption.
  unfold Z.ltb. destruct (ord x ?= ord y); reflexivity.
Qed.

Lemma fle_ord (x y : float) :
  wf x = true -> wf y = true -> is_nan x = false -> is_nan y = false ->
  fle x y = (ord x <=? ord y).
Proof.
  intros. unfold fle, SFleb. rewrite compare_ord by assumption.
  unfold Z.leb. destruct (ord x ?= ord y); reflexivity.
Qed.

Lemma flt_nan_l (y : float) : flt S754_nan y = false.
Proof. reflexivity. Qed.

Lemma flt_nan_r (x : float) : flt x S754_nan = false.
Proof. destruct x; reflexivity. Qed.

(** * The arithmetic operations on finite operands

    Each operation returns the rounding of its exact result. *)

(** ** Addition, subtraction and multiplication *)

Lemma pos_iter_xO (m d : positive) : Z.pos (Pos.iter xO m d) = Z.pos m * 2 ^ Z.pos d.
Proof.
  induction d as [|d IH] using Pos.peano_ind.
  - simpl. lia.
  - rewrite Pos.iter_succ. change (Z.pos (Pos.iter xO m d)~0) with (2 * Z.pos (Pos.iter xO m d)).
    rewrite IH, Pos2Z.inj_succ. unfold Z.succ. rewrite Z.pow_add_r by lia.
    change (2 ^ 1) with 2. ring.
Qed.

Lemma shl_align_spec (mx : positive) (ex ez : Z) :
  ez <= ex ->
  Z.pos (fst (shl_align mx ex ez)) = Z.pos mx * 2 ^ (ex - ez) /\
  snd (shl_align mx ex ez) = ez.
Proof.
  intros H. unfold shl_align.
  destruct (ez - ex) as [|d|d] eqn:Hd; [|lia|].
  - assert (ex = ez) by lia. subst. rewrite Z.sub_diag. simpl. split; lia.
  - cbn [fst snd]. rewrite pos_iter_xO. replace (ex - ez) with (Z.pos d) by lia. auto.
Qed.

Lemma Zdigits2_shift (m d : Z) :
  0 < m -> 0 <= d -> Zdigits2 (m * 2 ^ d) = Zdigits2 m + d.
Proof.
  intros Hm Hd.
  pose proof (Zdigits2_bounds m Hm) as [Hl Hu].
  assert (H0 : 0 < Zdigits2 m) by (destruct m; simpl; lia).
  pose proof (pow2_pos d Hd) as HP.
  apply Zdigits2_unique; [|lia].
  replace (Zdigits2 m + d - 1) with (Zdigits2 m - 1 + d) by lia.
  rewrite !Z.pow_add_r by lia.
  set (P := 2 ^ d) in *. set (L := 2 ^ (Zdigits2 m - 1)) in *. set (U := 2 ^ Zdigits2 m) in *.
  nia.
Qed.

Lemma bra_exact_rounded (s : bool) (M E VN VD : Z) :
  0 <= M -> 0 < VD ->
  let T := fexp prec emax (Zdigits2 M + E) in
  E <= T ->
  M * 2 ^ (T + 149) * VD = VN * 2 ^ (T - E) ->
  rounded s VN VD (binary_round_aux prec emax s M E loc_Exact).
Proof.
  intros HM HVD T HT Hid.
  rewrite <- (Z.div_1_r M) at 1. rewrite <- (loc_of_exact M).
  apply bra_rounded; try lia.
  - rewrite Z.div_1_r. exact HT.
  - rewrite Z.div_1_r. fold T. rewrite Hid. ring.
Qed.

Lemma binary_round_rounded (s : bool) (mx : positive) (e : Z) :
  -149 <= e ->
  rounded s (Z.pos mx * 2 ^ (e + 149)) 1 (binary_round prec emax s mx e).
Proof.
  intros He. unfold binary_round.
  set (T0 := fexp prec emax (Z.pos (digits2_pos mx) + e)).
  pose proof (fexp_ge (Z.pos (digits2_pos mx) + e)) as HT0. fold T0 in HT0.
  destruct (Z_le_gt_dec T0 e) as [Hle|Hgt].
  - destruct (shl_align_spec mx e T0 Hle) as [Hf Hs].
    destruct (shl_align mx e T0) as [mz ez]. cbn [fst snd] in Hf, Hs. subst ez.
    assert (Hdig : Zdigits2 (Z.pos mz) + T0 = Z.pos (digits2_pos mx) + e).
    { rewrite Hf, Zdigits2_shift by lia. simpl Zdigits2. lia. }
    apply bra_exact_rounded; try lia.
    + rewrite Hdig. fold T0. lia.
    + rewrite Hdig. fold T0. rewrite Z.sub_diag, Hf. rewrite Z.mul_1_r.
      change (2 ^ 0) with 1. rewrite Z.mul_1_r.
      rewrite <- !Z.mul_assoc. f_equal. rewrite <- Z.pow_add_r by lia. f_equal. lia.
  - assert (Hsh : shl_align mx e T0 = (mx, e)).
    { unfold shl_align. destruct (T0 - e) eqn:Hd; try reflexivity. lia. }
    rewrite Hsh.
    apply bra_exact_rounded; try lia.
    + simpl Zdigits2. fold T0. lia.
    + simpl Zdigits2. fold T0. rewrite Z.mul_1_r.
      rewrite <- !Z.mul_assoc. f_equal. rewrite <- Z.pow_add_r by lia. f_equal. lia.
Qed.

Lemma binary_normalize_zero (e : Z) (sz : bool) :
  binary_normalize prec emax 0 e sz = S754_zero sz.
Proof. reflexivity. Qed.

Lemma binary_normalize_rounded (m e : Z) (sz : bool) :
  -149 <= e -> m <> 0 ->
  rounded (m <? 0) (Z.abs m * 2 ^ (e + 149)) 1 (binary_normalize prec emax m e sz).
Proof.
  intros He Hm. destruct m as [|p|p]; [lia| |]; cbn [binary_normalize Z.abs].
  - apply binary_round_rounded; assumption.
  - apply binary_round_rounded; assumption.
Qed.

(** The product of two finite numbers is the rounding of the exact product. *)
Lemma fmul_finite (sx sy : bool) (mx my : positive) (ex ey : Z) :
  wf (S754_finite sx mx ex) = true -> wf (S754_finite sy my ey) = true ->
  rounded (xorb sx sy)
          (Z.pos mx * 2 ^ (ex + 149) * (Z.pos my * 2 ^ (ey + 149))) (2 ^ 149)
          (fmul (S754_finite sx mx ex) (S754_finite sy my ey)).
Proof.
  intros Wx Wy. unfold fmul. cbn [SFmul].
  apply wf_finite_iff in Wx. apply wf_finite_iff in Wy.
  destruct Wx as (Hex & Hmx & Hnx). destruct Wy as (Hey & Hmy & Hny).
  change (Z.pos (mx * my)) with (Z.pos mx * Z.pos my).
  set (T := fexp prec emax (Zdigits2 (Z.pos mx * Z.pos my) + (ex + ey))).
  pose proof (fexp_ge (Zdigits2 (Z.pos mx * Z.pos my) + (ex + ey))) as HTge. fold T in HTge.
  assert (HT : ex + ey <= T).
  { unfold T. rewrite fexp_eq.
    destruct Hnx as [Hnx|Hnx], Hny as [Hny|Hny].
    - lia.
    - assert (24 <= Zdigits2 (Z.pos mx * Z.pos my)).
      { apply Zdigits2_ge; [lia|]. change (2 ^ (24 - 1)) with 8388608. nia. }
      lia.
    - assert (24 <= Zdigits2 (Z.pos mx * Z.pos my)).
      { apply Zdigits2_ge; [lia|]. change (2 ^ (24 - 1)) with 8388608. nia. }
      lia.
    - assert (47 <= Zdigits2 (Z.pos mx * Z.pos my)).
      { apply Zdigits2_ge; [lia|]. change (2 ^ (47 - 1)) with (8388608 * 8388608). nia. }
      lia. }
  apply bra_exact_rounded; [lia | apply pow2_pos; lia | exact HT | ].
  fold T.
  transitivity (Z.pos mx * Z.pos my * (2 ^ (T + 149) * 2 ^ 149)); [ring|].
  transitivity (Z.pos mx * Z.pos my * (2 ^ (ex + 149) * 2 ^ (ey + 149) * 2 ^ (T - (ex + ey)))); [|ring].
  f_equal. rewrite <- !Z.pow_add_r by lia. f_equal. lia.
Qed.

Lemma ord_finite_shl (s : bool) (m : positive) (e ez : Z) :
  -149 <= ez <= e ->
  cond_Zopp s (Z.pos (fst (shl_align m e ez))) * 2 ^ (ez + 149)
  = ord (S754_finite s m e).
Proof.
  intros H. destruct (shl_align_spec m e ez ltac:(lia)) as [Hf _]. rewrite Hf.
  cbn [ord].
  replace (2 ^ (e + 149)) with (2 ^ (e - ez) * 2 ^ (ez + 149))
    by (rewrite <- Z.pow_add_r by lia; f_equal; lia).
  destruct s; cbn [cond_Zopp]; ring.
Qed.

Lemma fadd_finite (sx sy : bool) (mx my : positive) (ex ey : Z) :
  let x := S754_finite sx mx ex in
  let y := S754_finite sy my ey in
  wf x = true -> wf y = true ->
  (ord x + ord y = 0 -> fadd x y = S754_zero false) /\
  (ord x + ord y <> 0 ->
   rounded (ord x + ord y <? 0) (Z.abs (ord x + ord y)) 1 (fadd x y)).
Proof.
  intros x y Wx Wy.
  pose proof Wx as Wx'. pose proof Wy as Wy'.
  apply wf_finite_iff in Wx'. apply wf_finite_iff in Wy'.
  unfold fadd, x, y. cbn [SFadd].
  set (ez := Z.min ex ey).
  set (S := cond_Zopp sx (Z.pos (fst (shl_align mx ex ez)))
            + cond_Zopp sy (Z.pos (fst (shl_align my ey ez)))).
  assert (HS : S * 2 ^ (ez + 149) = ord x + ord y).
  { unfold S, x, y. rewrite Z.mul_add_distr_r.
    rewrite !ord_finite_shl by (unfold ez; lia). reflexivity. }
  fold x y in HS |- *.
  pose proof (pow2_pos (ez + 149) ltac:(unfold ez; lia)) as HP.
  split.
  - intros H0. assert (S = 0) by nia. rewrite H. reflexivity.
  - intros Hn. assert (HSn : S <> 0) by (intros ->; lia).
    pose proof (binary_normalize_rounded S ez false ltac:(unfold ez; lia) HSn) as R.
    replace (ord x + ord y <? 0) with (S <? 0).
    + rewrite <- HS, Z.abs_mul, (Z.abs_eq (2 ^ (ez + 149))) by lia. exact R.
    + rewrite <- HS. destruct (Z.ltb_spec S 0), (Z.ltb_spec (S * 2 ^ (ez + 149)) 0); try reflexivity; nia.
Qed.

Lemma fsub_finite (sx sy : bool) (mx my : positive) (ex ey : Z) :
  let x := S754_finite sx mx ex in
  let y := S754_finite sy my ey in
  wf x = true -> wf y = true ->
  (ord x - ord y = 0 -> fsub x y = S754_zero false) /\
  (ord x - ord y <> 0 ->
   rounded (ord x - ord y <? 0) (Z.abs (ord x - ord y)) 1 (fsub x y)).
Proof.
  intros x y Wx Wy.
  pose proof Wx as Wx'. pose proof Wy as Wy'.
  apply wf_finite_iff in Wx'. apply wf_finite_iff in Wy'.
  unfold fsub, x, y. cbn [SFsub].
  set (ez := Z.min ex ey).
  set (S := cond_Zopp sx (Z.pos (fst (shl_align mx ex ez)))
            - cond_Zopp sy (Z.pos (fst (shl_align my ey ez)))).
  assert (HS : S * 2 ^ (ez + 149) = ord x - ord y).
  { unfold S, x, y. rewrite Z.mul_sub_distr_r.
    rewrite !ord_finite_shl by (unfold ez; lia). reflexivity. }
  fold x y in HS |- *.
  pose proof (pow2_pos (ez + 149) ltac:(unfold ez; lia)) as HP.
  split.
  - intros H0. assert (S = 0) by nia. rewrite H. reflexivity.
  - intros Hn. assert (HSn : S <> 0) by (intros ->; lia).
    pose proof (binary_normalize_rounded S ez false ltac:(unfold ez; lia) HSn) as R.
    replace (ord x - ord y <? 0) with (S <? 0).
    + rewrite <- HS, Z.abs_mul, (Z.abs_eq (2 ^ (ez + 149))) by lia. exact R.
    + rewrite <- HS. destruct (Z.ltb_spec S 0), (Z.ltb_spec (S * 2 ^ (ez + 149)) 0); try reflexivity; nia.
Qed.

(** ** Division and square root *)

Lemma new_location_loc_of (A D : Z) :
  0 <= A -> 0 < D -> new_location D (A mod D) = loc_of A D.
Proof.
  intros HA HD. pose proof (Z.mod_pos_bound A D HD) as Hb.
  unfold new_location, loc_of, new_location_even, new_location_odd.
  set (k := A mod D) in *.
  destruct (Z.even D) eqn:Ev.
  - reflexivity.
  - destruct (Z.eqb_spec k 0); [reflexivity|]. f_equal.
    assert (Hodd : 2 * k <> D).
    { intros Heq. rewrite <- Heq in Ev. rewrite Z.even_mul in Ev. discriminate. }
    destruct (Z.compare_spec (2 * k + 1) D), (Z.compare_spec (2 * k) D); try reflexivity; lia.
Qed.

Lemma div_core_spec (m1 m2 : positive) (e1 e2 : Z) :
  let e' := Z.min (fexp prec emax (Z.pos (digits2_pos m1) + e1 - (Z.pos (digits2_pos m2) + e2))) (e1 - e2) in
  let s := e1 - e2 - e' in
  SFdiv_core_binary prec emax (Z.pos m1) e1 (Z.pos m2) e2
  = ((Z.pos m1 * 2 ^ s) / Z.pos m2, e', loc_of (Z.pos m1 * 2 ^ s) (Z.pos m2)).
Proof.
  intros e' s. unfold SFdiv_core_binary. cbn [Zdigits2]. fold e'. fold s.
  assert (Hs : 0 <= s) by (unfold s, e'; lia).
  assert (Hm' : match s with Z.pos _ => Z.shiftl (Z.pos m1) s | 0 => Z.pos m1 | Z.neg _ => 0 end
                = Z.pos m1 * 2 ^ s).
  { destruct s as [|p|p]; [simpl; lia| |lia]. apply Z.shiftl_mul_pow2. lia. }
  rewrite Hm'.
  pose proof (pow2_pos s Hs) as HP.
  set (A := Z.pos m1 * 2 ^ s) in *.
  rewrite <- (new_location_loc_of A (Z.pos m2)) by (unfold A; nia).
  unfold Z.div, Z.modulo. destruct (Z.div_eucl A (Z.pos m2)). reflexivity.
Qed.

(** The quotient of two finite numbers is the rounding of the exact quotient. *)
Lemma fdiv_finite (sx sy : bool) (mx my : positive) (ex ey : Z) :
  wf (S754_finite sx mx ex) = true -> wf (S754_finite sy my ey) = true ->
  rounded (xorb sx sy)
          (Z.pos mx * 2 ^ (ex + 149) * 2 ^ 149) (Z.pos my * 2 ^ (ey + 149))
          (fdiv (S754_finite sx mx ex) (S754_finite sy my ey)).
Proof.
  intros Wx Wy. unfold fdiv. cbn [SFdiv].
  rewrite div_core_spec.
  apply wf_finite_iff in Wx. apply wf_finite_iff in Wy.
  destruct Wx as (Hex & Hmx & Hnx). destruct Wy as (Hey & Hmy & Hny).
  pose proof (digits2_pos_bounds mx) as [Hlx Hux].
  pose proof (digits2_pos_bounds my) as [Hly Huy].
  set (d1 := Z.pos (digits2_pos mx)) in *. set (d2 := Z.pos (digits2_pos my)) in *.
  set (e' := Z.min (fexp prec emax (d1 + ex - (d2 + ey))) (ex - ey)).
  set (s := ex - ey - e').
  assert (Hs : 0 <= s) by (unfold s, e'; lia).
  pose proof (pow2_pos s Hs) as HP.
  set (A := Z.pos mx * 2 ^ s).
  assert (HA : 0 <= A) by (unfold A; nia).
  set (T := fexp prec emax (Zdigits2 (A / Z.pos my) + e')).
  pose proof (fexp_ge (Zdigits2 (A / Z.pos my) + e')) as HTge. fold T in HTge.
  assert (HT : e' <= T).
  { destruct (Z_le_gt_dec e' (-149)) as [|Hgt]; [lia|].
    assert (HF : e' <= d1 + ex - (d2 + ey) - 24).
    { unfold e' in *. rewrite fexp_eq in *. lia. }
    assert (Hsd : d2 + 23 <= d1 - 1 + s) by (unfold s; lia).
    assert (Hq : 8388608 <= A / Z.pos my).
    { apply Z.div_le_lower_bound; [lia|].
      assert (H1 : 2 ^ (d2 + 23) <= 2 ^ (d1 - 1 + s)) by (apply Z.pow_le_mono_r; lia).
      rewrite !Z.pow_add_r in H1 by (unfold d1, d2; lia).
      change (2 ^ 23) with 8388608 in H1. unfold A.
      set (P := 2 ^ s) in *. set (L1 := 2 ^ (d1 - 1)) in *. set (U2 := 2 ^ d2) in *.
      nia. }
    assert (24 <= Zdigits2 (A / Z.pos my)).
    { apply Zdigits2_ge; [lia|]. change (2 ^ (24 - 1)) with 8388608. exact Hq. }
    unfold T. rewrite fexp_eq. lia. }
  apply bra_rounded; [exact HA | lia | | exact HT | ].
  - pose proof (pow2_pos (ey + 149) ltac:(lia)). nia.
  - fold T. unfold A.
    transitivity (Z.pos mx * Z.pos my * (2 ^ s * 2 ^ (T + 149) * 2 ^ (ey + 149))); [ring|].
    transitivity (Z.pos mx * Z.pos my * (2 ^ (ex + 149) * 2 ^ 149 * 2 ^ (T - e'))); [|ring].
    f_equal. rewrite <- !Z.pow_add_r by lia. f_equal. unfold s. lia.
Qed.

Lemma sqrt_core_valid (mx : positive) (ex : Z) :
  let '(mz, ez, lz) := SFsqrt_core_binary prec emax (Z.pos mx) ex in
  0 <= mz /\ ez <= fexp prec emax (Zdigits2 mz + ez).
Proof.
  unfold SFsqrt_core_binary. cbn [Zdigits2].
  pose proof (digits2_pos_bounds mx) as [Hl Hu].
  set (d := Z.pos (digits2_pos mx)) in *.
  assert (Hd : 0 < d) by (unfold d; lia).
  rewrite !Z.div2_div.
  set (e' := Z.min (fexp prec emax ((d + ex + 1) / 2)) (ex / 2)).
  set (s := ex - 2 * e').
  pose proof (Z.div_mod ex 2 ltac:(lia)) as Hdm.
  pose proof (Z.mod_pos_bound ex 2 ltac:(lia)) as Hmb.
  pose proof (Z.div_mod (d + ex + 1) 2 ltac:(lia)) as Hdm2.
  pose proof (Z.mod_pos_bound (d + ex + 1) 2 ltac:(lia)) as Hmb2.
  assert (Hs : 0 <= s) by (unfold s, e'; lia).
  assert (Hm' : match s with Z.pos _ => Z.shiftl (Z.pos mx) s | 0 => Z.pos mx | Z.neg _ => 0 end
                = Z.pos mx * 2 ^ s).
  { destruct s as [|p|p]; [simpl; lia| |lia]. apply Z.shiftl_mul_pow2. lia. }
  rewrite Hm'.
  pose proof (pow2_pos s Hs) as HP.
  set (A := Z.pos mx * 2 ^ s) in *.
  assert (HA : 0 <= A) by (unfold A; nia).
  pose proof (Z.sqrtrem_sqrt A) as Hq.
  destruct (Z.sqrtrem A) as [q rr]. cbn [fst] in Hq. subst q.
  split; [apply Z.sqrt_nonneg|].
  rewrite fexp_eq.
  destruct (Z_le_gt_dec e' (-149)) as [|Hgt]; [lia|].
  assert (HF : e' <= (d + ex + 1) / 2 - 24).
  { unfold e' in *. rewrite fexp_eq in *. lia. }
  assert (Hsd : 46 <= d - 1 + s) by (unfold s; lia).
  assert (H46 : 2 ^ 46 <= A).
  { assert (H1 : 2 ^ 46 <= 2 ^ (d - 1 + s)) by (apply Z.pow_le_mono_r; lia).
    rewrite Z.pow_add_r in H1 by lia. unfold A.
    set (P := 2 ^ s) in *. set (L1 := 2 ^ (d - 1)) in *. nia. }
  assert (Hq : 8388608 <= Z.sqrt A).
  { change 8388608 with (Z.sqrt (2 ^ 46)). apply Z.sqrt_le_mono. exact H46. }
  assert (24 <= Zdigits2 (Z.sqrt A)).
  { apply Zdigits2_ge; [lia|]. change (2 ^ (24 - 1)) with 8388608. exact Hq. }
  lia.
Qed.

(** The square root of a positive finite number is a well-formed number with
    a clear sign bit. *)
Lemma fsqrt_finite (mx : positive) (ex : Z) :
  let x := fsqrt (S754_finite false mx ex) in
  wf x = true /\ is_nan x = false /\ fsign x = false.
Proof.
  unfold fsqrt. cbn [SFsqrt].
  pose proof (sqrt_core_valid mx ex) as H.
  destruct (SFsqrt_core_binary prec emax (Z.pos mx) ex) as [[mz ez] lz].
  destruct H as [H0 HT]. apply bra_valid; assumption.
Qed.

(** ** Signed rounding *)

Lemma inf_ord_pos : 0 < inf_ord.
Proof. reflexivity. Qed.

Lemma sround_sign (N VD o : Z) :
  sround N VD o -> (0 <= N -> 0 <= o) /\ (N <= 0 -> o <= 0).
Proof.
  pose proof inf_ord_pos.
  intros [[-> ->]|[[HN (v & Hv & ->)]|[HN (v & Hv & ->)]]];
    try (apply rounds_to_nonneg in Hv); split; intros; lia.
Qed.

Lemma sround_mono (N1 VD1 o1 N2 VD2 o2 : Z) :
  0 < VD1 -> 0 < VD2 ->
  sround N1 VD1 o1 -> sround N2 VD2 o2 ->
  N1 * VD2 <= N2 * VD1 -> o1 <= o2.
Proof.
  intros HV1 HV2 H1 H2 Hle.
  pose proof (sround_sign _ _ _ H1) as [P1 Q1].
  pose proof (sround_sign _ _ _ H2) as [P2 Q2].
  destruct (Z_lt_le_dec N1 0) as [Hn1|Hn1]; destruct (Z_lt_le_dec 0 N2) as [Hn2|Hn2]; try lia.
  - (* both negative *)
    assert (N2 < 0 \/ N2 = 0) as [Hn|Hn] by lia; [|lia].
    destruct H1 as [[? _]|[[? _]|[_ (v1 & Hv1 & ->)]]]; try lia.
    destruct H2 as [[? _]|[[? _]|[_ (v2 & Hv2 & ->)]]]; try lia.
    pose proof (rounds_to_mono _ _ _ _ _ _ HV2 HV1 Hv2 Hv1 ltac:(lia)). lia.
  - (* both positive, or the first is zero *)
    assert (0 < N1 \/ N1 = 0) as [Hp|Hp] by lia; [|lia].
    destruct H1 as [[? _]|[[_ (v1 & Hv1 & ->)]|[? _]]]; try lia.
    destruct H2 as [[? _]|[[_ (v2 & Hv2 & ->)]|[? _]]]; try lia.
    pose proof (rounds_to_mono _ _ _ _ _ _ HV1 HV2 Hv1 Hv2 ltac:(lia)). lia.
Qed.

Lemma sround_bound (N VD o : Z) : sround N VD o -> - inf_ord <= o <= inf_ord.
Proof.
  pose proof inf_ord_pos.
  intros [[-> ->]|[[HN (v & Hv & ->)]|[HN (v & Hv & ->)]]];
    try (apply rounds_to_nonneg in Hv); lia.
Qed.

Lemma rounded_sround (s : bool) (VN VD : Z) (x : float) :
  0 < VN -> rounded s VN VD x -> sround (cond_Zopp s VN) VD (ord x).
Proof.
  intros HVN (_ & _ & _ & v & Hv & Ho). rewrite Ho.
  destruct s; cbn [cond_Zopp].
  - right; right. split; [lia|]. exists v. rewrite Z.opp_involutive. auto.
  - right; left. split; [lia|]. exists v. auto.
Qed.

Lemma rne_unit (m : Z) : 0 <= m -> rne m 1 = m.
Proof.
  intros Hm. destruct (rne_spec m 1 Hm ltac:(lia)) as (_ & [L U] & _ & _). lia.
Qed.

Lemma rounds_to_exact (s : bool) (m : positive) (e : Z) :
  wf (S754_finite s m e) = true ->
  rounds_to (Z.pos m * 2 ^ (e + 149)) 1 (Z.pos m * 2 ^ (e + 149)).
Proof.
  intros W. apply wf_finite_iff in W. destruct W as (He & Hm & Hn).
  exists (Z.pos m), 1, (e + 149).
  change (2 ^ 24) with 16777216. change (2 ^ 23) with 8388608.
  rewrite rne_unit by lia. repeat split; lia.
Qed.

Lemma sround_exact (x : float) :
  wf x = true -> fin x = true -> sround (ord x) 1 (ord x).
Proof.
  intros W F. destruct x as [s|s| |s m e]; try discriminate.
  - left. auto.
  - pose proof (ord_finite_bounds s m e W) as Hb.
    pose proof (rounds_to_exact s m e W) as Hr.
    cbn [ord]. destruct s; cbn [cond_Zopp].
    + right; right. split; [lia|]. exists (Z.pos m * 2 ^ (e + 149)).
      rewrite Z.opp_involutive. split; [exact Hr|lia].
    + right; left. split; [lia|]. exists (Z.pos m * 2 ^ (e + 149)).
      split; [exact Hr|lia].
Qed.

Lemma rounded_wf (s : bool) (VN VD : Z) (x : float) :
  rounded s VN VD x -> wf x = true /\ is_nan x = false.
Proof. intros (W & N & _). auto. Qed.

(** ** The four operations, zeros included *)

Lemma fadd_fin (x y : float) :
  wf x = true -> wf y = true -> fin x = true -> fin y = true ->
  wf (fadd x y) = true /\ is_nan (fadd x y) = false /\
  sround (ord x + ord y) 1 (ord (fadd x y)).
Proof.
  intros Wx Wy Fx Fy.
  destruct x as [sx|sx| |sx mx ex]; try discriminate;
  destruct y as [sy|sy| |sy my ey]; try discriminate.
  - split; [destruct sx, sy; reflexivity|]. split; [destruct sx, sy; reflexivity|].
    left. destruct sx, sy; auto.
  - change (fadd (S754_zero sx) (S754_finite sy my ey)) with (S754_finite sy my ey).
    split; [exact Wy|]. split; [reflexivity|]. apply (sround_exact _ Wy Fy).
  - change (fadd (S754_finite sx mx ex) (S754_zero sy)) with (S754_finite sx mx ex).
    split; [exact Wx|]. split; [reflexivity|].
    cbn [ord]. rewrite Z.add_0_r. apply (sround_exact _ Wx Fx).
  - destruct (fadd_finite sx sy mx my ex ey Wx Wy) as [H0 Hn].
    destruct (Z.eq_dec (ord (S754_finite sx mx ex) + ord (S754_finite sy my ey)) 0) as [Hz|Hz].
    + rewrite (H0 Hz). split; [reflexivity|]. split; [reflexivity|]. left. auto.
    + specialize (Hn Hz). split; [apply Hn|]. split; [apply Hn|].
      set (S := ord (S754_finite sx mx ex) + ord (S754_finite sy my ey)) in *.
      replace S with (cond_Zopp (S <? 0) (Z.abs S)) at 1.
      * apply rounded_sround; [lia|exact Hn].
      * destruct (Z.ltb_spec S 0); cbn [cond_Zopp]; lia.
Qed.

Lemma fsub_fin (x y : float) :
  wf x = true -> wf y = true -> fin x = true -> fin y = true ->
  wf (fsub x y) = true /\ is_nan (fsub x y) = false /\
  sround (ord x - ord y) 1 (ord (fsub x y)).
Proof.
  intros Wx Wy Fx Fy.
  destruct x as [sx|sx| |sx mx ex]; try discriminate;
  destruct y as [sy|sy| |sy my ey]; try discriminate.
  - split; [destruct sx, sy; reflexivity|]. split; [destruct sx, sy; reflexivity|].
    left. destruct sx, sy; auto.
  - change (fsub (S754_zero sx) (S754_finite sy my ey)) with (S754_finite (negb sy) my ey).
    split; [exact Wy|]. split; [reflexivity|].
    replace (ord (S754_zero sx) - ord (S754_finite sy my ey))
      with (ord (S754_finite (negb sy) my ey))
      by (cbn [ord]; destruct sy; cbn [cond_Zopp negb]; lia).
    apply sround_exact; [exact Wy|reflexivity].
  - change (fsub (S754_finite sx mx ex) (S754_zero sy)) with (S754_finite sx mx ex).
    split; [exact Wx|]. split; [reflexivity|].
    cbn [ord]. rewrite Z.sub_0_r. apply (sround_exact _ Wx Fx).
  - destruct (fsub_finite sx sy mx my ex ey Wx Wy) as [H0 Hn].
    destruct (Z.eq_dec (ord (S754_finite sx mx ex) - ord (S754_finite sy my ey)) 0) as [Hz|Hz].
    + rewrite (H0 Hz). split; [reflexivity|]. split; [reflexivity|]. left. auto.
    + specialize (Hn Hz). split; [apply Hn|]. split; [apply Hn|].
      set (S := ord (S754_finite sx mx ex) - ord (S754_finite sy my ey)) in *.
      replace S with (cond_Zopp (S <? 0) (Z.abs S)) at 1.
      * apply rounded_sround; [lia|exact Hn].
      * destruct (Z.ltb_spec S 0); cbn [cond_Zopp]; lia.
Qed.

Lemma fmul_fin (x y : float) :
  wf x = true -> wf y = true -> fin x = true -> fin y = true ->
  wf (fmul x y) = true /\ is_nan (fmul x y) = false /\
  sround (ord x * ord y) (2 ^ 149) (ord (fmul x y)).
Proof.
  intros Wx Wy Fx Fy.
  destruct x as [sx|sx| |sx mx ex]; try discriminate;
  destruct y as [sy|sy| |sy my ey]; try discriminate;
  try (split; [reflexivity|]; split; [reflexivity|]; left; cbn [ord]; split; [ring|reflexivity]).
  pose proof (fmul_finite sx sy mx my ex ey Wx Wy) as R.
  split; [apply R|]. split; [apply R|].
  pose proof (ord_finite_bounds sx mx ex Wx) as Bx.
  pose proof (ord_finite_bounds sy my ey Wy) as By.
  cbn [ord].
  set (X := Z.pos mx * 2 ^ (ex + 149)) in *. set (Y := Z.pos my * 2 ^ (ey + 149)) in *.
  replace (cond_Zopp sx X * cond_Zopp sy Y) with (cond_Zopp (xorb sx sy) (X * Y))
    by (destruct sx, sy; cbn [cond_Zopp xorb]; ring).
  apply rounded_sround; [nia|exact R].
Qed.

Lemma fdiv_fin (x : float) (sy : bool) (my : positive) (ey : Z) :
  let y := S754_finite sy my ey in
  wf x = true -> wf y = true -> fin x = true ->
  wf (fdiv x y) = true /\ is_nan (fdiv x y) = false /\
  sround (ord x * 2 ^ 149 * Z.sgn (ord y)) (Z.abs (ord y)) (ord (fdiv x y)).
Proof.
  intros y Wx Wy Fx. unfold y in *.
  pose proof (ord_finite_bounds sy my ey Wy) as By.
  destruct x as [sx|sx| |sx mx ex]; try discriminate.
  - split; [reflexivity|]. split; [reflexivity|]. left. cbn [ord]. split; [ring|reflexivity].
  - pose proof (fdiv_finite sx sy mx my ex ey Wx Wy) as R.
    split; [apply R|]. split; [apply R|].
    pose proof (ord_finite_bounds sx mx ex Wx) as Bx.
    cbn [ord].
    set (X := Z.pos mx * 2 ^ (ex + 149)) in *. set (Y := Z.pos my * 2 ^ (ey + 149)) in *.
    replace (Z.abs (cond_Zopp sy Y)) with Y by (destruct sy; cbn [cond_Zopp]; lia).
    replace (cond_Zopp sx X * 2 ^ 149 * Z.sgn (cond_Zopp sy Y))
      with (cond_Zopp (xorb sx sy) (X * 2 ^ 149)).
    + apply rounded_sround; [|exact R]. change (2 ^ 149) with (2 ^ 149) in *.
      pose proof (pow2_pos 149 ltac:(lia)). nia.
    + assert (Z.sgn Y = 1) by (apply Z.sgn_pos; lia).
      destruct sx, sy; cbn [cond_Zopp xorb]; rewrite ?Z.sgn_opp, H; ring.
Qed.

(** * Well-formedness is preserved; the operations are monotone *)

Lemma wf_fadd (x y : float) : wf x = true -> wf y = true -> wf (fadd x y) = true.
Proof.
  intros Wx Wy.
  destruct x as [sx|sx| |sx mx ex] eqn:Ex; destruct y as [sy|sy| |sy my ey] eqn:Ey;
    try reflexivity; try assumption; try (destruct sx, sy; reflexivity).
  apply fadd_fin; auto.
Qed.

Lemma wf_fsub (x y : float) : wf x = true -> wf y = true -> wf (fsub x y) = true.
Proof.
  intros Wx Wy.
  destruct x as [sx|sx| |sx mx ex] eqn:Ex; destruct y as [sy|sy| |sy my ey] eqn:Ey;
    try reflexivity; try assumption; try (destruct sx, sy; reflexivity).
  apply fsub_fin; auto.
Qed.

Lemma wf_fmul (x y : float) : wf x = true -> wf y = true -> wf (fmul x y) = true.
Proof.
  intros Wx Wy.
  destruct x as [sx|sx| |sx mx ex] eqn:Ex; destruct y as [sy|sy| |sy my ey] eqn:Ey;
    try reflexivity; try assumption.
  apply fmul_fin; auto.
Qed.

Lemma wf_fdiv (x y : float) : wf x = true -> wf y = true -> wf (fdiv x y) = true.
Proof.
  intros Wx Wy.
  destruct x as [sx|sx| |sx mx ex] eqn:Ex; destruct y as [sy|sy| |sy my ey] eqn:Ey;
    try reflexivity; try assumption.
  apply (fdiv_fin (S754_finite sx mx ex) sy my ey); auto.
Qed.

Lemma fsign_ord (x : float) : fsign x = false -> 0 <= ord x.
Proof.
  destruct x as [s|s| |s m e]; cbn [fsign ord]; intros Hs; try subst s; cbn [cond_Zopp];
    try lia; try (unfold inf_ord; lia).
Qed.

Lemma wf_fsqrt (x : float) : wf x = true -> wf (fsqrt x) = true /\ 0 <= ord (fsqrt x).
Proof.
  intros W. destruct x as [s|s| |s m e].
  - split; [reflexivity|simpl; lia].
  - destruct s; split; try reflexivity; simpl; unfold inf_ord; lia.
  - split; [reflexivity|simpl; lia].
  - destruct s; [split; [reflexivity|simpl; lia]|].
    destruct (fsqrt_finite m e) as (W' & _ & S). split; [exact W'|apply fsign_ord; exact S].
Qed.

Lemma wf_fabs (x : float) : wf x = true -> wf (fabs x) = true /\ 0 <= ord (fabs x).
Proof.
  intros W. destruct x as [s|s| |s m e]; cbn [fabs SFabs].
  - split; [reflexivity|simpl; lia].
  - split; [reflexivity|simpl; unfold inf_ord; lia].
  - split; [reflexivity|simpl; lia].
  - split; [exact W|]. apply fsign_ord. reflexivity.
Qed.

Lemma wf_fmax (x y : float) : wf x = true -> wf y = true -> wf (fmax x y) = true.
Proof. intros. unfold fmax. destruct (flt x y); assumption. Qed.

Lemma wf_fmin (x y : float) : wf x = true -> wf y = true -> wf (fmin x y) = true.
Proof. intros. unfold fmin. destruct (flt y x); assumption. Qed.

Create HintDb wf discriminated.

#[local] Hint Resolve wf_fadd wf_fsub wf_fmul wf_fdiv wf_fmax wf_fmin : wf.

#[local] Hint Extern 1 (wf _ = true) => reflexivity : wf.

(** ** The order index of a well-formed number *)

Lemma ord_range (x : float) : wf x = true -> - inf_ord <= ord x <= inf_ord.
Proof.
  intros W. pose proof inf_ord_pos. destruct x as [s|s| |s m e]; cbn [ord]; try lia.
  - destruct s; cbn [cond_Zopp]; lia.
  - pose proof (ord_finite_bounds s m e W). destruct s; cbn [cond_Zopp]; lia.
Qed.

Lemma fin_ord (x : float) :
  wf x = true -> is_nan x = false ->
  fin x = true <-> - inf_ord < ord x < inf_ord.
Proof.
  intros W N. pose proof inf_ord_pos. destruct x as [s|s| |s m e]; try discriminate; cbn [ord fin].
  - split; intros; [lia|reflexivity].
  - split; [discriminate|]. destruct s; cbn [cond_Zopp]; lia.
  - pose proof (ord_finite_bounds s m e W). split; [|reflexivity].
    intros _. destruct s; cbn [cond_Zopp]; lia.
Qed.

Lemma ord_pinf (x : float) :
  wf x = true -> is_nan x = false -> inf_ord <= ord x -> x = S754_infinity false.
Proof.
  intros W N H. pose proof inf_ord_pos. destruct x as [s|s| |s m e]; try discriminate; cbn [ord] in H.
  - lia.
  - destruct s; cbn [cond_Zopp] in H; [lia|reflexivity].
  - pose proof (ord_finite_bounds s m e W). destruct s; cbn [cond_Zopp] in H; lia.
Qed.

Lemma ord_ninf (x : float) :
  wf x = true -> is_nan x = false -> ord x <= - inf_ord -> x = S754_infinity true.
Proof.
  intros W N H. pose proof inf_ord_pos. destruct x as [s|s| |s m e]; try discriminate; cbn [ord] in H.
  - lia.
  - destruct s; cbn [cond_Zopp] in H; [reflexivity|lia].
  - pose proof (ord_finite_bounds s m e W). destruct s; cbn [cond_Zopp] in H; lia.
Qed.

(** ** Monotonicity on finite operands *)

Lemma fadd_le (x1 y1 x2 y2 : float) :
  wf x1 = true -> wf y1 = true -> wf x2 = true -> wf y2 = true ->
  fin x1 = true -> fin y1 = true -> fin x2 = true -> fin y2 = true ->
  ord x1 + ord y1 <= ord x2 + ord y2 ->
  ord (fadd x1 y1) <= ord (fadd x2 y2).
Proof.
  intros. destruct (fadd_fin x1 y1) as (_ & _ & S1); auto.
  destruct (fadd_fin x2 y2) as (_ & _ & S2); auto.
  apply (sround_mono _ 1 _ _ 1 _ ltac:(lia) ltac:(lia) S1 S2). lia.
Qed.

Lemma fsub_le (x1 y1 x2 y2 : float) :
  wf x1 = true -> wf y1 = true -> wf x2 = true -> wf y2 = true ->
  fin x1 = true -> fin y1 = true -> fin x2 = true -> fin y2 = true ->
  ord x1 - ord y1 <= ord x2 - ord y2 ->
  ord (fsub x1 y1) <= ord (fsub x2 y2).
Proof.
  intros. destruct (fsub_fin x1 y1) as (_ & _ & S1); auto.
  destruct (fsub_fin x2 y2) as (_ & _ & S2); auto.
  apply (sround_mono _ 1 _ _ 1 _ ltac:(lia) ltac:(lia) S1 S2). lia.
Qed.

Lemma fmul_le (x1 y1 x2 y2 : float) :
  wf x1 = true -> wf y1 = true -> wf x2 = true -> wf y2 = true ->
  fin x1 = true -> fin y1 = true -> fin x2 = true -> fin y2 = true ->
  ord x1 * ord y1 <= ord x2 * ord y2 ->
  ord (fmul x1 y1) <= ord (fmul x2 y2).
Proof.
  intros. destruct (fmul_fin x1 y1) as (_ & _ & S1); auto.
  destruct (fmul_fin x2 y2) as (_ & _ & S2); auto.
  pose proof (pow2_pos 149 ltac:(lia)) as HP.
  apply (sround_mono _ _ _ _ _ _ HP HP S1 S2).
  apply Z.mul_le_mono_nonneg_r; lia.
Qed.

Lemma fdiv_le (x1 x2 y1 y2 : float) :
  wf x1 = true -> wf x2 = true -> wf y1 = true -> wf y2 = true ->
  fin x1 = true -> fin x2 = true -> fin y1 = true -> fin y2 = true ->
  0 < ord y1 -> 0 < ord y2 ->
  ord x1 * ord y2 <= ord x2 * ord y1 ->
  ord (fdiv x1 y1) <= ord (fdiv x2 y2).
Proof.
  intros W1 W2 V1 V2 F1 F2 G1 G2 P1 P2 Hle.
  destruct y1 as [s1|s1| |s1 m1 e1]; try discriminate.
  destruct y2 as [s2|s2| |s2 m2 e2]; try discriminate.
  destruct (fdiv_fin x1 s1 m1 e1 W1 V1 F1) as (_ & _ & S1).
  destruct (fdiv_fin x2 s2 m2 e2 W2 V2 F2) as (_ & _ & S2).
  rewrite (Z.sgn_pos _ P1), (Z.abs_eq (ord (S754_finite s1 m1 e1))) in S1 by lia.
  rewrite (Z.sgn_pos _ P2), (Z.abs_eq (ord (S754_finite s2 m2 e2))) in S2 by lia.
  apply (sround_mono _ _ _ _ _ _ P1 P2 S1 S2).
  pose proof (pow2_pos 149 ltac:(lia)) as HP.
  set (Y1 := ord (S754_finite s1 m1 e1)) in *. set (Y2 := ord (S754_finite s2 m2 e2)) in *.
  set (Q := 2 ^ 149) in *.
  replace (ord x1 * Q * 1 * Y2) with (ord x1 * Y2 * Q) by ring.
  replace (ord x2 * Q * 1 * Y1) with (ord x2 * Y1 * Q) by ring.
  apply Z.mul_le_mono_nonneg_r; lia.
Qed.

Lemma fdiv_sign (x y : float) :
  wf x = true -> wf y = true -> 0 <= ord x -> is_nan y = false -> 0 < ord y ->
  wf (fdiv x y) = true /\ 0 <= ord (fdiv x y).
Proof.
  intros Wx Wy Hx Ny Hy. split; [apply wf_fdiv; assumption|].
  pose proof inf_ord_pos.
  destruct y as [sy|sy| |sy my ey]; try discriminate; cbn [ord] in Hy.
  - destruct sy; cbn [cond_Zopp] in Hy; [lia|].
    destruct x as [sx|sx| |sx mx ex]; simpl; lia.
  - destruct x as [sx|sx| |sx mx ex]; try (simpl; lia).
    + destruct sx; cbn [ord cond_Zopp] in Hx; [lia|].
      destruct sy; [pose proof (ord_finite_bounds true my ey Wy); cbn [cond_Zopp] in Hy; lia|].
      simpl. lia.
    + destruct (fdiv_fin (S754_finite sx mx ex) sy my ey Wx Wy eq_refl) as (_ & _ & S).
      apply (sround_sign _ _ _ S).
      pose proof (pow2_pos 149 ltac:(lia)).
      assert (Hsg : Z.sgn (ord (S754_finite sy my ey)) = 1) by (apply Z.sgn_pos; exact Hy).
      rewrite Hsg, Z.mul_1_r. apply Z.mul_nonneg_nonneg; lia.
Qed.

(** * Lemmas on the alpha computation *)

(** ** Comparisons and clamping *)

Lemma effective_tolerance_chain (k : SimpleColorKeyerIop) (pixel : Color3) :
  effective_tolerance k pixel = fmax f0_001 (run_chain (tol_chain k pixel) (variance_ k)).
Proof. reflexivity. Qed.

Lemma unit_interval_fle (x : float) :
  unit_interval x -> fle f0 x = true /\ fle x f1 = true.
Proof.
  intros (W & N & Hl & Hu).
  rewrite !fle_ord by (assumption || reflexivity).
  split; apply Z.leb_le; [exact Hl|exact Hu].
Qed.

Lemma flt_true_nan_r (x y : float) : flt x y = true -> is_nan y = false.
Proof. destruct y; try reflexivity. rewrite flt_nan_r. discriminate. Qed.

Lemma flt_true_nan_l (x y : float) : flt x y = true -> is_nan x = false.
Proof. destruct x; try reflexivity. rewrite flt_nan_l. discriminate. Qed.

Lemma flt_true_ord (x y : float) :
  wf x = true -> wf y = true -> flt x y = true -> ord x < ord y.
Proof.
  intros Wx Wy H. pose proof (flt_true_nan_l _ _ H). pose proof (flt_true_nan_r _ _ H).
  rewrite flt_ord in H by assumption. apply Z.ltb_lt. exact H.
Qed.

Lemma flt_false_ord (x y : float) :
  wf x = true -> wf y = true -> is_nan x = false -> is_nan y = false ->
  flt x y = false -> ord y <= ord x.
Proof.
  intros Wx Wy Nx Ny H. rewrite flt_ord in H by assumption. apply Z.ltb_ge. exact H.
Qed.

Lemma fmax0_unit (y : float) :
  wf y = true -> (is_nan y = true \/ ord y <= ord f1) -> unit_interval (fmax f0 y).
Proof.
  intros W H. unfold fmax.
  destruct (flt f0 y) eqn:Hlt.
  - pose proof (flt_true_nan_r _ _ Hlt) as N.
    pose proof (flt_true_ord f0 y eq_refl W Hlt) as Ho.
    destruct H as [H|H]; [congruence|].
    repeat split; try assumption. change (ord f0) with 0 in Ho. lia.
  - repeat split; simpl; lia.
Qed.

Lemma one_minus_le (nd : float) :
  wf nd = true -> 0 <= ord nd ->
  wf (fsub f1 nd) = true /\ (is_nan (fsub f1 nd) = true \/ ord (fsub f1 nd) <= ord f1).
Proof.
  intros W H. split; [apply wf_fsub; [reflexivity|assumption]|].
  pose proof inf_ord_pos.
  destruct nd as [s|s| |s m e] eqn:E.
  - right. simpl. lia.
  - destruct s; cbn [ord cond_Zopp] in H; [lia|]. right. simpl. lia.
  - left. reflexivity.
  - right. rewrite <- E in *.
    change (ord f1) with (ord (fsub f1 f0)).
    apply fsub_le; try reflexivity; try assumption; try (subst nd; reflexivity).
    simpl (ord f0). lia.
Qed.

Lemma alpha_of_quotient (nd : float) :
  wf nd = true -> 0 <= ord nd -> unit_interval (fmax f0 (fsub f1 nd)).
Proof.
  intros W H. destruct (one_minus_le nd W H) as [W' H']. apply fmax0_unit; assumption.
Qed.

Lemma fmax_floor (c tol : float) :
  wf c = true -> is_nan c = false -> wf tol = true ->
  wf (fmax c tol) = true /\ is_nan (fmax c tol) = false /\ ord c <= ord (fmax c tol).
Proof.
  intros Wc Nc Wt. unfold fmax. destruct (flt c tol) eqn:Hlt.
  - pose proof (flt_true_nan_r _ _ Hlt). pose proof (flt_true_ord _ _ Wc Wt Hlt). repeat split; auto; lia.
  - repeat split; auto; lia.
Qed.

(** ** The accumulated tolerance *)

Lemma wf_step (c : bool) (t tol : float) :
  wf t = true -> wf tol = true -> wf (step c t tol) = true.
Proof. intros. unfold step. destruct c; [apply wf_fadd|]; assumption. Qed.

Lemma wf_run_chain (l : list (bool * float)) :
  Forall (fun ct => wf (snd ct) = true) l ->
  forall tol, wf tol = true -> wf (run_chain l tol) = true.
Proof.
  induction 1 as [|ct l Hct Hl IH]; intros tol W; [exact W|].
  apply IH. apply wf_step; assumption.
Qed.

Lemma wf_color_inv (c : Color3) :
  wf_color c = true -> wf (r c) = true /\ wf (g c) = true /\ wf (b c) = true.
Proof. unfold wf_color. rewrite !andb_true_iff. tauto. Qed.

Lemma wf_ranges_inv (k : SimpleColorKeyerIop) :
  wf_ranges k = true ->
  wf (range_red_ k) = true /\ wf (range_green_ k) = true /\ wf (range_blue_ k) = true /\
  wf (range_yellow_ k) = true /\ wf (range_magenta_ k) = true /\ wf (range_cyan_ k) = true.
Proof. unfold wf_ranges. rewrite !andb_true_iff. tauto. Qed.

Lemma wf_iop_inv (k : SimpleColorKeyerIop) :
  wf_iop k = true ->
  wf_color (key_color_ k) = true /\ wf (variance_ k) = true /\ wf_ranges k = true /\
  wf (gain_ k) = true.
Proof. unfold wf_iop. rewrite !andb_true_iff. tauto. Qed.

Lemma wf_tol_chain (k : SimpleColorKeyerIop) (pixel : Color3) :
  wf_ranges k = true -> wf_color pixel = true ->
  Forall (fun ct => wf (snd ct) = true) (tol_chain k pixel).
Proof.
  intros Hr Hp. apply wf_ranges_inv in Hr. apply wf_color_inv in Hp.
  destruct Hr as (R1 & R2 & R3 & R4 & R5 & R6). destruct Hp as (P1 & P2 & P3).
  unfold tol_chain. repeat constructor; cbn [snd]; auto with wf.
Qed.

Lemma effective_tolerance_pos (k : SimpleColorKeyerIop) (pixel : Color3) :
  wf (variance_ k) = true -> wf_ranges k = true -> wf_color pixel = true ->
  let e := effective_tolerance k pixel in
  wf e = true /\ is_nan e = false /\ ord f0_001 <= ord e.
Proof.
  intros Wv Wr Wp. rewrite effective_tolerance_chain.
  apply fmax_floor; [reflexivity|reflexivity|].
  apply wf_run_chain; [apply wf_tol_chain|]; assumption.
Qed.

Lemma wf_distance_to (c o : Color3) :
  wf_color c = true -> wf_color o = true ->
  wf (distance_to c o) = true /\ 0 <= ord (distance_to c o).
Proof.
  intros Hc Ho. apply wf_color_inv in Hc. apply wf_color_inv in Ho.
  destruct Hc as (C1 & C2 & C3). destruct Ho as (O1 & O2 & O3).
  unfold distance_to. apply wf_fsqrt. auto 8 with wf.
Qed.

Lemma wf_chroma_distance (c o : Color3) :
  wf_color c = true -> wf_color o = true ->
  wf (chroma_distance c o) = true /\ 0 <= ord (chroma_distance c o).
Proof.
  intros Hc Ho. apply wf_color_inv in Hc. apply wf_color_inv in Ho.
  destruct Hc as (C1 & C2 & C3). destruct Ho as (O1 & O2 & O3).
  unfold chroma_distance. apply wf_fsqrt. auto 8 with wf.
Qed.

(** ** Each method returns a number between 0 and 1 *)

Lemma distance_alpha_unit (k : SimpleColorKeyerIop) (pixel key : Color3) :
  wf (variance_ k) = true -> wf_ranges k = true ->
  wf_color pixel = true -> wf_color key = true ->
  unit_interval (calculate_distance_alpha k pixel key).
Proof.
  intros Wv Wr Wp Wk. unfold calculate_distance_alpha.
  destruct (effective_tolerance_pos k pixel Wv Wr Wp) as (We & Ne & Oe).
  destruct (wf_distance_to pixel key Wp Wk) as (Wd & Od).
  change (ord f0_001) with (8589935 * 2 ^ 116) in Oe.
  destruct (fdiv_sign (distance_to pixel key) (effective_tolerance k pixel) Wd We Od Ne ltac:(lia))
    as (Wq & Oq).
  apply alpha_of_quotient; assumption.
Qed.

Lemma chroma_alpha_unit (k : SimpleColorKeyerIop) (pixel key : Color3) :
  wf (variance_ k) = true -> flt f0 (variance_ k) = true ->
  wf_color pixel = true -> wf_color key = true ->
  unit_interval (calculate_chroma_alpha k pixel key).
Proof.
  intros Wv Pv Wp Wk. unfold calculate_chroma_alpha.
  destruct (wf_chroma_distance pixel key Wp Wk) as (Wd & Od).
  pose proof (flt_true_nan_r _ _ Pv) as Nv.
  pose proof (flt_true_ord f0 _ eq_refl Wv Pv) as Ov. change (ord f0) with 0 in Ov.
  destruct (fdiv_sign (chroma_distance pixel key) (variance_ k) Wd Wv Od Nv Ov) as (Wq & Oq).
  apply alpha_of_quotient; assumption.
Qed.

Lemma unit_interval_fin (x : float) : unit_interval x -> fin x = true.
Proof.
  intros (W & N & Hl & Hu). apply fin_ord; [assumption..|].
  change (ord f1) with (2 ^ 149) in Hu. unfold inf_ord. lia.
Qed.

Lemma fmin1_unit (x : float) :
  wf x = true -> 0 <= ord x -> unit_interval (fmin f1 x).
Proof.
  intros W H. unfold fmin. destruct (flt x f1) eqn:Hlt.
  - pose proof (flt_true_nan_l _ _ Hlt). pose proof (flt_true_ord x f1 W eq_refl Hlt).
    repeat split; auto; lia.
  - repeat split; simpl; lia.
Qed.

Lemma one_minus_unit (m : float) : unit_interval m -> unit_interval (fsub f1 m).
Proof.
  intros U. pose proof (unit_interval_fin m U) as F. destruct U as (W & N & Hl & Hu).
  destruct (fsub_fin f1 m eq_refl W eq_refl F) as (W' & N' & _).
  split; [exact W'|]. split; [exact N'|]. split.
  - change 0 with (ord (fsub f1 f1)).
    apply fsub_le; try reflexivity; try assumption. lia.
  - change (ord f1) with (ord (fsub f1 f0)).
    apply fsub_le; try reflexivity; try assumption. simpl (ord f0). lia.
Qed.

Lemma fmul_unit (a w : float) :
  unit_interval a -> unit_interval w -> unit_interval (fmul a w).
Proof.
  intros Ua Uw.
  pose proof (unit_interval_fin a Ua) as Fa. pose proof (unit_interval_fin w Uw) as Fw.
  destruct Ua as (Wa & Na & La & Ha). destruct Uw as (Ww & Nw & Lw & Hw).
  destruct (fmul_fin a w Wa Ww Fa Fw) as (W' & N' & _).
  split; [exact W'|]. split; [exact N'|]. split.
  - change 0 with (ord (fmul f0 f0)).
    apply fmul_le; try reflexivity; try assumption. simpl (ord f0). nia.
  - change (ord f1) with (ord (fmul f1 f1)).
    apply fmul_le; try reflexivity; try assumption.
    apply Z.mul_le_mono_nonneg; lia.
Qed.

Lemma wf_luma (c : Color3) : wf_color c = true -> wf (luma c) = true.
Proof.
  intros Hc. apply wf_color_inv in Hc. destruct Hc as (C1 & C2 & C3). unfold luma.
  auto 8 with wf.
Qed.

Lemma luma_weight_unit (pixel key : Color3) :
  wf_color pixel = true -> wf_color key = true -> unit_interval (luma_weight pixel key).
Proof.
  intros Wp Wk. unfold luma_weight.
  destruct (wf_fabs (fsub (luma pixel) (luma key))) as (Wd & Od).
  { apply wf_fsub; apply wf_luma; assumption. }
  destruct (fdiv_sign _ f0_5 Wd eq_refl Od eq_refl ltac:(reflexivity)) as (Wq & Oq).
  apply one_minus_unit. apply fmin1_unit; assumption.
Qed.

Lemma luma_weighted_alpha_unit (k : SimpleColorKeyerIop) (pixel key : Color3) :
  wf (variance_ k) = true -> wf_ranges k = true ->
  wf_color pixel = true -> wf_color key = true ->
  unit_interval (calculate_luma_weighted_alpha k pixel key).
Proof.
  intros Wv Wr Wp Wk. unfold calculate_luma_weighted_alpha.
  apply fmul_unit; [apply distance_alpha_unit|apply luma_weight_unit]; assumption.
Qed.

Lemma blend_unit (c1 c2 da ca : float) :
  wf c1 = true -> fin c1 = true -> 0 <= ord c1 ->
  wf c2 = true -> fin c2 = true -> 0 <= ord c2 ->
  fin (fmul c1 f1) = true -> fin (fmul c2 f1) = true ->
  ord (fadd (fmul c1 f1) (fmul c2 f1)) <= ord f1 ->
  unit_interval da -> unit_interval ca ->
  unit_interval (fadd (fmul c1 da) (fmul c2 ca)).
Proof.
  intros W1 F1 O1 W2 F2 O2 G1 G2 Hsum Ud Uc.
  pose proof (unit_interval_fin da Ud) as Fd. pose proof (unit_interval_fin ca Uc) as Fc.
  destruct Ud as (Wd & Nd & Ld & Hd). destruct Uc as (Wc & Nc & Lc & Hc).
  destruct (fmul_fin c1 da W1 Wd F1 Fd) as (Wt1 & Nt1 & _).
  destruct (fmul_fin c2 ca W2 Wc F2 Fc) as (Wt2 & Nt2 & _).
  destruct (fmul_fin c1 f1 W1 eq_refl F1 eq_refl) as (Wu1 & Nu1 & _).
  destruct (fmul_fin c2 f1 W2 eq_refl F2 eq_refl) as (Wu2 & Nu2 & _).
  assert (L1 : 0 <= ord (fmul c1 da)).
  { change 0 with (ord (fmul f0 f0)). apply fmul_le; try reflexivity; try assumption.
    simpl (ord f0). nia. }
  assert (L2 : 0 <= ord (fmul c2 ca)).
  { change 0 with (ord (fmul f0 f0)). apply fmul_le; try reflexivity; try assumption.
    simpl (ord f0). nia. }
  assert (H1 : ord (fmul c1 da) <= ord (fmul c1 f1)).
  { apply fmul_le; try reflexivity; try assumption. apply Z.mul_le_mono_nonneg_l; lia. }
  assert (H2 : ord (fmul c2 ca) <= ord (fmul c2 f1)).
  { apply fmul_le; try reflexivity; try assumption. apply Z.mul_le_mono_nonneg_l; lia. }
  pose proof (proj1 (fin_ord _ Wu1 Nu1) G1) as B1.
  pose proof (proj1 (fin_ord _ Wu2 Nu2) G2) as B2.
  pose proof inf_ord_pos.
  assert (Ft1 : fin (fmul c1 da) = true) by (apply fin_ord; [assumption..|lia]).
  assert (Ft2 : fin (fmul c2 ca) = true) by (apply fin_ord; [assumption..|lia]).
  destruct (fadd_fin _ _ Wt1 Wt2 Ft1 Ft2) as (W' & N' & _).
  split; [exact W'|]. split; [exact N'|]. split.
  - change 0 with (ord (fadd f0 f0)). apply fadd_le; try reflexivity; try assumption.
    simpl (ord f0). lia.
  - etransitivity; [|exact Hsum]. apply fadd_le; try assumption. lia.
Qed.

Lemma adaptive_alpha_unit (k : SimpleColorKeyerIop) (pixel key : Color3) :
  wf (variance_ k) = true -> flt f0 (variance_ k) = true -> wf_ranges k = true ->
  wf_color pixel = true -> wf_color key = true ->
  unit_interval (calculate_adaptive_alpha k pixel key).
Proof.
  intros Wv Pv Wr Wp Wk. unfold calculate_adaptive_alpha.
  pose proof (distance_alpha_unit k pixel key Wv Wr Wp Wk) as Ud.
  pose proof (chroma_alpha_unit k pixel key Wv Pv Wp Wk) as Uc.
  destruct (flt f0_5 (key_saturation key)).
  - apply blend_unit; try reflexivity; try assumption; try (vm_compute; discriminate).
  - apply blend_unit; try reflexivity; try assumption; try (vm_compute; discriminate).
Qed.

(** ** Post-processing *)

Lemma clamp_unit (x : float) : wf x = true -> unit_interval (fmax f0 (fmin f1 x)).
Proof.
  intros W. unfold fmin. destruct (flt x f1) eqn:Hlt.
  - pose proof (flt_true_nan_l _ _ Hlt) as N. pose proof (flt_true_ord x f1 W eq_refl Hlt) as Ho.
    apply fmax0_unit; [exact W|right; lia].
  - apply fmax0_unit; [reflexivity|right; lia].
Qed.

Lemma post_process_unit (k : SimpleColorKeyerIop) (alpha : float) :
  wf alpha = true -> wf (gain_ k) = true -> unit_interval (post_process k alpha).
Proof.
  intros Wa Wg. unfold post_process.
  pose proof (clamp_unit (fmul alpha (gain_ k)) (wf_fmul _ _ Wa Wg)) as U.
  destruct (invert_ k); [apply one_minus_unit|]; exact U.
Qed.

Lemma calculate_alpha_unknown (k : SimpleColorKeyerIop) (pixel key : Color3) :
  unknown_method k -> calculate_alpha k pixel key = f0.
Proof.
  unfold unknown_method, calculate_alpha. intros H.
  destruct (keying_method_ k) as [|[[[]|[]|]|[[]|[]|]|]|]; try reflexivity; lia.
Qed.

(** ** The luminance weight *)


(** ** A larger variance gives a larger tolerance and a larger alpha *)

(** Adding the same term on both sides keeps [below]. *)
Lemma below_fadd (a1 a2 t : float) :
  wf a1 = true -> wf a2 = true -> wf t = true ->
  below a1 a2 -> below (fadd a1 t) (fadd a2 t).
Proof.
  intros W1 W2 Wt [H|[H|(N1 & N2 & Ho)]].
  - left. destruct a1; try discriminate. reflexivity.
  - subst a1. destruct t as [s|[]| |s m e]; unfold below; cbn; auto.
  - pose proof inf_ord_pos as Hinf.
    destruct (fin t) eqn:Ft.
    + (* t is finite *)
      assert (Nt : is_nan t = false) by (destruct t; try discriminate; reflexivity).
      destruct (fin a1) eqn:F1.
      * destruct (fin a2) eqn:F2.
        -- right; right. destruct (fadd_fin a1 t) as (_ & Na & _); auto.
           destruct (fadd_fin a2 t) as (_ & Nb & _); auto.
           split; [exact Na|]. split; [exact Nb|]. apply fadd_le; auto. lia.
        -- destruct a2 as [s2|s2| |s2 m2 e2]; try discriminate.
           destruct s2.
           ++ pose proof (proj1 (fin_ord a1 W1 N1) F1). cbn [ord cond_Zopp] in Ho. lia.
           ++ right; right. destruct (fadd_fin a1 t) as (Wa & Na & _); auto.
              split; [exact Na|].
              replace (fadd (S754_infinity false) t) with (S754_infinity false)
                by (destruct t; try discriminate; reflexivity).
              split; [reflexivity|]. apply ord_range. exact Wa.
      * destruct a1 as [s1|s1| |s1 m1 e1]; try discriminate.
        destruct s1; [right; left; destruct t; try discriminate; reflexivity|].
        rewrite (ord_pinf a2 W2 N2 Ho). right; right.
        replace (fadd (S754_infinity false) t) with (S754_infinity false)
          by (destruct t; try discriminate; reflexivity).
        repeat split; lia.
    + destruct t as [st|st| |st mt et]; try discriminate.
      * (* t is an infinity *)
        destruct st.
        -- destruct a1 as [s1|[]| |s1 m1 e1]; try discriminate; unfold below; cbn; auto.
        -- destruct a1 as [s1|[]| |s1 m1 e1]; try discriminate; try (left; reflexivity).
           ++ destruct a2 as [s2|[]| |s2 m2 e2]; try discriminate;
                try (right; right; simpl; repeat split; lia).
              cbn [ord cond_Zopp] in Ho. lia.
           ++ destruct a2 as [s2|[]| |s2 m2 e2]; try discriminate;
                try (right; right; simpl; repeat split; lia).
              cbn [ord cond_Zopp] in Ho. lia.
           ++ destruct a2 as [s2|[]| |s2 m2 e2]; try discriminate;
                try (right; right; simpl; repeat split; lia).
              pose proof (proj1 (fin_ord (S754_finite s1 m1 e1) W1 eq_refl) eq_refl) as Hf.
              cbn [ord cond_Zopp] in Ho, Hf. lia.
      * left. destruct a1; reflexivity.
Qed.

Lemma below_step (c : bool) (a1 a2 t : float) :
  wf a1 = true -> wf a2 = true -> wf t = true ->
  below a1 a2 -> below (step c t a1) (step c t a2).
Proof.
  intros. unfold step. destruct c; [apply below_fadd|]; assumption.
Qed.

Lemma below_run_chain (l : list (bool * float)) :
  Forall (fun ct => wf (snd ct) = true) l ->
  forall a1 a2, wf a1 = true -> wf a2 = true -> below a1 a2 ->
  below (run_chain l a1) (run_chain l a2).
Proof.
  induction 1 as [|ct l Hct Hl IH]; intros a1 a2 W1 W2 Hb; [exact Hb|].
  cbn [run_chain fold_left]. apply IH; try (apply wf_step; assumption).
  apply below_step; assumption.
Qed.

Lemma below_floor (c a1 a2 : float) :
  wf c = true -> is_nan c = false -> wf a1 = true -> wf a2 = true ->
  below a1 a2 -> ord (fmax c a1) <= ord (fmax c a2).
Proof.
  intros Wc Nc W1 W2 Hb.
  destruct (fmax_floor c a2 Wc Nc W2) as (_ & _ & Hc2).
  destruct Hb as [H|[H|(N1 & N2 & Ho)]].
  - destruct a1; try discriminate. unfold fmax at 1. rewrite flt_nan_r. exact Hc2.
  - subst a1. unfold fmax at 1.
    replace (flt c (S754_infinity true)) with false; [exact Hc2|].
    destruct c as [s|[]| |s m e]; try discriminate; reflexivity.
  - unfold fmax. destruct (flt c a1) eqn:L1, (flt c a2) eqn:L2.
    + exact Ho.
    + pose proof (flt_true_ord _ _ Wc W1 L1). pose proof (flt_false_ord _ _ Wc W2 Nc N2 L2). lia.
    + pose proof (flt_true_ord _ _ Wc W2 L2). lia.
    + lia.
Qed.

Lemma fle_below (v1 v2 : float) :
  wf v1 = true -> wf v2 = true -> fle v1 v2 = true -> below v1 v2.
Proof.
  intros W1 W2 H. right; right.
  assert (N1 : is_nan v1 = false) by (destruct v1; try reflexivity; discriminate).
  assert (N2 : is_nan v2 = false) by (destruct v2; try reflexivity; destruct v1; discriminate).
  split; [exact N1|]. split; [exact N2|].
  rewrite fle_ord in H by assumption. apply Z.leb_le. exact H.
Qed.

Lemma tol_chain_with_variance (k : SimpleColorKeyerIop) (v : float) (pixel : Color3) :
  tol_chain (with_variance k v) pixel = tol_chain k pixel.
Proof. reflexivity. Qed.

Lemma effective_tolerance_mono (k : SimpleColorKeyerIop) (v1 v2 : float) (pixel : Color3) :
  wf_ranges k = true -> wf_color pixel = true ->
  wf v1 = true -> wf v2 = true -> fle v1 v2 = true ->
  ord (effective_tolerance (with_variance k v1) pixel)
  <= ord (effective_tolerance (with_variance k v2) pixel).
Proof.
  intros Wr Wp W1 W2 Hle. rewrite !effective_tolerance_chain, !tol_chain_with_variance.
  cbn [variance_ with_variance].
  pose proof (wf_tol_chain k pixel Wr Wp) as Hc.
  apply below_floor; try reflexivity; try (apply wf_run_chain; assumption).
  apply below_run_chain; try assumption. apply fle_below; assumption.
Qed.

Lemma fmax0_mono (y1 y2 : float) :
  wf y1 = true -> wf y2 = true -> is_nan y1 = false -> is_nan y2 = false ->
  ord y1 <= ord y2 -> ord (fmax f0 y1) <= ord (fmax f0 y2).
Proof.
  intros W1 W2 N1 N2 Ho. unfold fmax.
  destruct (flt f0 y1) eqn:L1, (flt f0 y2) eqn:L2.
  - exact Ho.
  - pose proof (flt_true_ord f0 y1 eq_refl W1 L1).
    pose proof (flt_false_ord f0 y2 eq_refl W2 eq_refl N2 L2). lia.
  - pose proof (flt_true_ord f0 y2 eq_refl W2 L2). lia.
  - lia.
Qed.

Lemma positive_cases (e : float) :
  wf e = true -> is_nan e = false -> 0 < ord e ->
  e = S754_infinity false \/ exists m ex, e = S754_finite false m ex.
Proof.
  intros W N H. pose proof inf_ord_pos.
  destruct e as [s|s| |s m ex]; try discriminate; cbn [ord] in H; try lia.
  - destruct s; cbn [cond_Zopp] in H; [lia|left; reflexivity].
  - pose proof (ord_finite_bounds s m ex W). destruct s; cbn [cond_Zopp] in H; [lia|].
    right. eauto.
Qed.

(** For a fixed distance, a larger tolerance never gives a smaller alpha. *)
Lemma quotient_alpha_mono (d e1 e2 : float) :
  wf d = true -> 0 <= ord d ->
  wf e1 = true -> is_nan e1 = false -> 0 < ord e1 ->
  wf e2 = true -> is_nan e2 = false -> 0 < ord e2 ->
  ord e1 <= ord e2 ->
  ord (fmax f0 (fsub f1 (fdiv d e1))) <= ord (fmax f0 (fsub f1 (fdiv d e2))).
Proof.
  intros Wd Od W1 N1 P1 W2 N2 P2 Hle.
  pose proof inf_ord_pos as Hinf.
  destruct (positive_cases e1 W1 N1 P1) as [E1|(m1 & x1 & E1)];
  destruct (positive_cases e2 W2 N2 P2) as [E2|(m2 & x2 & E2)].
  - subst. lia.
  - exfalso. subst. pose proof (ord_finite_bounds false m2 x2 W2).
    cbn [ord cond_Zopp] in Hle. lia.
  - (* the larger tolerance is infinite *)
    subst e2. destruct d as [sd|sd| |sd md xd].
    + subst e1. simpl. lia.
    + subst e1. destruct sd; [cbn [ord cond_Zopp] in Od; lia | simpl; lia].
    + subst e1. simpl. lia.
    + change (fdiv (S754_finite sd md xd) (S754_infinity false)) with (S754_zero (xorb sd false)).
      change (fmax f0 (fsub f1 (S754_zero (xorb sd false)))) with f1.
      apply alpha_of_quotient; apply fdiv_sign; assumption.
  - destruct d as [sd|sd| |sd md xd].
    + subst. simpl. lia.
    + subst. destruct sd; [cbn [ord cond_Zopp] in Od; lia | simpl; lia].
    + subst. simpl. lia.
    + assert (F1 : fin e1 = true) by (subst; reflexivity).
      assert (F2 : fin e2 = true) by (subst; reflexivity).
      set (d := S754_finite sd md xd) in *.
      assert (Fd : fin d = true) by reflexivity.
      destruct (fdiv_sign d e1 Wd W1 Od N1 P1) as (Wq1 & Oq1).
      destruct (fdiv_sign d e2 Wd W2 Od N2 P2) as (Wq2 & Oq2).
      assert (Nq1 : is_nan (fdiv d e1) = false).
      { rewrite E1. apply (fdiv_fin d false m1 x1); [assumption|rewrite <- E1; assumption|reflexivity]. }
      assert (Nq2 : is_nan (fdiv d e2) = false).
      { rewrite E2. apply (fdiv_fin d false m2 x2); [assumption|rewrite <- E2; assumption|reflexivity]. }
      assert (Hq : ord (fdiv d e2) <= ord (fdiv d e1)).
      { apply fdiv_le; try assumption. apply Z.mul_le_mono_nonneg_l; assumption. }
      set (q1 := fdiv d e1) in *. set (q2 := fdiv d e2) in *.
      destruct (fin q1) eqn:Fq1.
      * assert (Fq2 : fin q2 = true).
        { apply fin_ord; try assumption. pose proof (proj1 (fin_ord q1 Wq1 Nq1) Fq1). lia. }
        destruct (fsub_fin f1 q1 eq_refl Wq1 eq_refl Fq1) as (Wy1 & Ny1 & _).
        destruct (fsub_fin f1 q2 eq_refl Wq2 eq_refl Fq2) as (Wy2 & Ny2 & _).
        apply fmax0_mono; try assumption.
        apply fsub_le; try reflexivity; try assumption. lia.
      * assert (Eq1 : q1 = S754_infinity false).
        { destruct q1 as [s|[]| |s m e]; try discriminate; [|reflexivity].
          cbn [ord cond_Zopp] in Oq1. lia. }
        rewrite Eq1. change (fmax f0 (fsub f1 (S754_infinity false))) with f0.
        apply alpha_of_quotient; assumption.
Qed.

(** ** Numbers with the same order index *)

Lemma sround_fun (N VD o1 o2 : Z) :
  0 < VD -> sround N VD o1 -> sround N VD o2 -> o1 = o2.
Proof.
  intros HV H1 H2.
  pose proof (sround_mono _ _ _ _ _ _ HV HV H1 H2 ltac:(lia)).
  pose proof (sround_mono _ _ _ _ _ _ HV HV H2 H1 ltac:(lia)).
  lia.
Qed.

(** Well-formed numbers with the same order index differ at most in the sign
    of a zero. *)
Lemma ord_inj (x y : float) :
  wf x = true -> wf y = true -> is_nan x = false -> is_nan y = false ->
  ord x = ord y -> eqz x y.
Proof.
  intros Wx Wy Nx Ny H. pose proof inf_ord_pos.
  destruct x as [sx|sx| |sx mx ex]; try discriminate;
  destruct y as [sy|sy| |sy my ey]; try discriminate; cbn [ord] in H.
  - right. eauto.
  - destruct sy; cbn [cond_Zopp] in H; lia.
  - pose proof (ord_finite_bounds sy my ey Wy). destruct sy; cbn [cond_Zopp] in H; lia.
  - destruct sx; cbn [cond_Zopp] in H; lia.
  - left. destruct sx, sy; cbn [cond_Zopp] in H; try reflexivity; lia.
  - pose proof (ord_finite_bounds sy my ey Wy). destruct sx, sy; cbn [cond_Zopp] in H; lia.
  - pose proof (ord_finite_bounds sx mx ex Wx). destruct sx; cbn [cond_Zopp] in H; lia.
  - pose proof (ord_finite_bounds sx mx ex Wx). destruct sx, sy; cbn [cond_Zopp] in H; lia.
  - left.
    pose proof (ord_finite_bounds sx mx ex Wx) as Bx.
    pose proof (ord_finite_bounds sy my ey Wy) as By.
    assert (Hs : sx = sy) by (destruct sx, sy; cbn [cond_Zopp] in H; try reflexivity; lia).
    subst sy.
    assert (Hv : Z.pos mx * 2 ^ (ex + 149) = Z.pos my * 2 ^ (ey + 149))
      by (destruct sx; cbn [cond_Zopp] in H; lia).
    rewrite (wf_sign sx false) in Wx, Wy.
    assert (He : ex = ey).
    { destruct (Z.lt_trichotomy ex ey) as [Hl|[He|Hg]]; [|exact He|].
      - pose proof (ord_lt_exp mx my ex ey Wx Wy Hl). lia.
      - pose proof (ord_lt_exp my mx ey ex Wy Wx Hg). lia. }
    subst ey. apply wf_finite_iff in Wx.
    pose proof (pow2_pos (ex + 149) ltac:(lia)) as HP.
    assert (Z.pos mx = Z.pos my) by nia.
    congruence.
Qed.

Lemma fsub_exact_shift (x y x' y' : float) :
  wf x = true -> wf y = true -> wf x' = true -> wf y' = true ->
  fin x = true -> fin y = true -> fin x' = true -> fin y' = true ->
  ord x' - ord y' = ord x - ord y ->
  eqz (fsub x' y') (fsub x y).
Proof.
  intros Wx Wy Wx' Wy' Fx Fy Fx' Fy' H.
  destruct (fsub_fin x y Wx Wy Fx Fy) as (W1 & N1 & S1).
  destruct (fsub_fin x' y' Wx' Wy' Fx' Fy') as (W2 & N2 & S2).
  rewrite H in S2.
  apply ord_inj; try assumption.
  apply (sround_fun _ 1 _ _ ltac:(lia) S2 S1).
Qed.

Lemma eqz_fsub_l (a a' c : float) : eqz a a' -> eqz (fsub a c) (fsub a' c).
Proof.
  intros [->|(s & s' & -> & ->)]; [left; reflexivity|].
  destruct c as [sc|sc| |sc mc ec].
  - right. destruct s, s', sc; cbn; eauto.
  - left. reflexivity.
  - left. reflexivity.
  - left. reflexivity.
Qed.

Lemma eqz_square (a a' : float) : eqz a a' -> fmul a a = fmul a' a'.
Proof.
  intros [->|(s & s' & -> & ->)]; [reflexivity|].
  destruct s, s'; reflexivity.
Qed.

(** ** The tolerance as a sum over the directions *)


(** ** The floor of the tolerance, and division by zero *)

Lemma fle_fmax_floor (c tol : float) : fle c c = true -> fle c (fmax c tol) = true.
Proof.
  intros Hc. unfold fmax. destruct (flt c tol) eqn:Hlt; [|exact Hc].
  unfold flt, SFltb in Hlt. unfold fle, SFleb.
  destruct (SFcompare c tol) as [[]|]; try discriminate. reflexivity.
Qed.

Lemma fdiv_zero_not_finite (x : float) (s : bool) : fin (fdiv x (S754_zero s)) = false.
Proof. destruct x; reflexivity. Qed.

(** ** Saturation of the key colour *)

Lemma wf_fmax3 (x y z : float) :
  wf x = true -> wf y = true -> wf z = true -> wf (fmax3 x y z) = true.
Proof. intros. unfold fmax3. destruct (flt x y), (flt _ z); assumption. Qed.

Lemma wf_fmin3 (x y z : float) :
  wf x = true -> wf y = true -> wf z = true -> wf (fmin3 x y z) = true.
Proof. intros. unfold fmin3. destruct (flt y x), (flt z _); assumption. Qed.

Lemma wf_key_saturation (key : Color3) :
  wf_color key = true -> wf (key_saturation key) = true.
Proof.
  intros H. apply wf_color_inv in H. destruct H as (H1 & H2 & H3).
  unfold key_saturation. apply wf_fsub; [apply wf_fmax3|apply wf_fmin3]; assumption.
Qed.

Lemma fmax3_ord (x y z : float) :
  wf x = true -> wf y = true -> wf z = true ->
  is_nan x = false -> is_nan y = false -> is_nan z = false ->
  ord (fmax3 x y z) = Z.max (ord x) (Z.max (ord y) (ord z)).
Proof.
  intros Wx Wy Wz Nx Ny Nz. unfold fmax3.
  rewrite (flt_ord x y) by assumption.
  destruct (Z.ltb_spec (ord x) (ord y)).
  - rewrite (flt_ord y z) by assumption. destruct (Z.ltb_spec (ord y) (ord z)); lia.
  - rewrite (flt_ord x z) by assumption. destruct (Z.ltb_spec (ord x) (ord z)); lia.
Qed.

Lemma fmin3_ord (x y z : float) :
  wf x = true -> wf y = true -> wf z = true ->
  is_nan x = false -> is_nan y = false -> is_nan z = false ->
  ord (fmin3 x y z) = Z.min (ord x) (Z.min (ord y) (ord z)).
Proof.
  intros Wx Wy Wz Nx Ny Nz. unfold fmin3.
  rewrite (flt_ord y x) by assumption.
  destruct (Z.ltb_spec (ord y) (ord x)).
  - rewrite (flt_ord z y) by assumption. destruct (Z.ltb_spec (ord z) (ord y)); lia.
  - rewrite (flt_ord z x) by assumption. destruct (Z.ltb_spec (ord z) (ord x)); lia.
Qed.

(** Adding 0.25 to (0.25, 0.5, 0.75) is exact. *)
Lemma exact_shift_quarter :
  exact_shift (mkColor3 f0_25 f0_5 f0_75) (mkColor3 f0_5 f0_75 f1).
Proof. exists (2 ^ 147). repeat split. Defined.

(** ** Raising the range of one direction *)

Lemma eqz_finite (x : float) (s : bool) (m : positive) (e : Z) :
  eqz x (S754_finite s m e) -> x = S754_finite s m e.
Proof. intros [H|(s1 & s2 & _ & H)]; [exact H|discriminate]. Qed.

(** Multiplication by 1.0 is exact. *)
Lemma fmul_one_r (x : float) : wf x = true -> fmul x f1 = x.
Proof.
  intros W. destruct x as [s|s| |s m e]; try (destruct s; reflexivity); try reflexivity.
  destruct (fmul_fin (S754_finite s m e) f1 W eq_refl eq_refl eq_refl) as (W' & N' & S).
  pose proof (sround_exact (S754_finite s m e) W eq_refl) as S0.
  pose proof (pow2_pos 149 ltac:(lia)) as HP.
  change (ord f1) with (2 ^ 149) in S.
  apply eqz_finite. apply ord_inj; try assumption; try reflexivity.
  set (X := ord (S754_finite s m e)) in *. set (Q := 2 ^ 149) in *.
  assert (E1 : X * Q * 1 <= X * Q) by lia.
  assert (E2 : X * Q <= X * Q * 1) by lia.
  pose proof (sround_mono _ _ _ _ _ _ HP Z.lt_0_1 S S0 E1).
  pose proof (sround_mono _ _ _ _ _ _ Z.lt_0_1 HP S0 S E2).
  lia.
Qed.

Lemma fin_not_nan (x : float) : fin x = true -> is_nan x = false.
Proof. destruct x; try discriminate; reflexivity. Qed.

Lemma fle_true_ord (x y : float) :
  wf x = true -> wf y = true -> fle x y = true ->
  is_nan x = false /\ is_nan y = false /\ ord x <= ord y.
Proof.
  intros Wx Wy H.
  assert (Nx : is_nan x = false) by (destruct x; try reflexivity; discriminate).
  assert (Ny : is_nan y = false) by (destruct y; try reflexivity; destruct x; discriminate).
  split; [exact Nx|]. split; [exact Ny|].
  rewrite fle_ord in H by assumption. apply Z.leb_le. exact H.
Qed.

Lemma below_refl (a : float) : below a a.
Proof.
  destruct (is_nan a) eqn:N; [left; exact N|right; right]. repeat split; auto; lia.
Qed.

Lemma not_ninf_ord (x : float) :
  wf x = true -> is_nan x = false -> - inf_ord < ord x -> x <> S754_infinity true.
Proof. intros W N H ->. cbn [ord cond_Zopp] in H. lia. Qed.

Lemma fadd_pinf_r (x : float) :
  is_nan x = false -> x <> S754_infinity true ->
  fadd x (S754_infinity false) = S754_infinity false.
Proof. destruct x as [s|[]| |s m e]; try discriminate; try reflexivity. congruence. Qed.

Lemma fadd_pinf_l (x : float) :
  is_nan x = false -> x <> S754_infinity true ->
  fadd (S754_infinity false) x = S754_infinity false.
Proof. destruct x as [s|[]| |s m e]; try discriminate; try reflexivity. congruence. Qed.

Lemma below_pinf (a : float) : wf a = true -> below a (S754_infinity false).
Proof.
  intros W. destruct (is_nan a) eqn:N; [left; exact N|right; right].
  split; [exact N|]. split; [reflexivity|]. apply (ord_range a W).
Qed.

Lemma fin_or_inf (x : float) :
  wf x = true -> is_nan x = false ->
  fin x = true \/ x = S754_infinity false \/ x = S754_infinity true.
Proof. destruct x as [s|[]| |s m e]; try discriminate; auto. Qed.

(** Adding a term that is not larger to an accumulator that is [below]
    another keeps [below]. *)
Lemma below_fadd2 (a1 a2 t1 t2 : float) :
  wf a1 = true -> wf a2 = true -> wf t1 = true -> wf t2 = true ->
  is_nan t1 = false -> is_nan t2 = false -> ord t1 <= ord t2 ->
  below a1 a2 -> below (fadd a1 t1) (fadd a2 t2).
Proof.
  intros W1 W2 Wt1 Wt2 Nt1 Nt2 Ht [H|[H|(N1 & N2 & Ho)]].
  - left. destruct a1; try discriminate. destruct t1; reflexivity.
  - subst a1. destruct t1 as [s|[]| |s m e]; try discriminate; unfold below; cbn; auto.
  - pose proof inf_ord_pos as Hinf.
    destruct (fin_or_inf a1 W1 N1) as [F1|[E1|E1]];
    destruct (fin_or_inf t1 Wt1 Nt1) as [G1|[G1|G1]].
    + (* both finite on the left *)
      destruct (fadd_fin a1 t1 W1 Wt1 F1 G1) as (Wl & Nl & _).
      pose proof (proj1 (fin_ord a1 W1 N1) F1) as B1.
      pose proof (proj1 (fin_ord t1 Wt1 Nt1) G1) as C1.
      assert (A2 : a2 <> S754_infinity true) by (apply not_ninf_ord; try assumption; lia).
      assert (T2 : t2 <> S754_infinity true) by (apply not_ninf_ord; try assumption; lia).
      destruct (fin_or_inf a2 W2 N2) as [F2|[E2|E2]]; [|subst a2|congruence];
      destruct (fin_or_inf t2 Wt2 Nt2) as [G2|[G2|G2]]; try congruence; try subst t2.
      * right; right. destruct (fadd_fin a2 t2 W2 Wt2 F2 G2) as (_ & Nr & _).
        split; [exact Nl|]. split; [exact Nr|]. apply fadd_le; try assumption. lia.
      * rewrite fadd_pinf_r by assumption. apply below_pinf. exact Wl.
      * rewrite fadd_pinf_l by assumption. apply below_pinf. exact Wl.
      * apply below_pinf. exact Wl.
    + (* the left term is plus infinity *)
      subst t1. rewrite (ord_pinf t2 Wt2 Nt2 Ht).
      pose proof (proj1 (fin_ord a1 W1 N1) F1) as B1.
      assert (A2 : a2 <> S754_infinity true) by (apply not_ninf_ord; try assumption; lia).
      rewrite (fadd_pinf_r a2 N2 A2). apply below_pinf. apply wf_fadd; assumption.
    + (* the left term is minus infinity *)
      subst t1. right; left. destruct a1 as [s|[]| |s m e]; try discriminate; reflexivity.
    + subst a1. rewrite (ord_pinf a2 W2 N2 Ho).
      pose proof (proj1 (fin_ord t1 Wt1 Nt1) G1) as C1.
      assert (T2 : t2 <> S754_infinity true) by (apply not_ninf_ord; try assumption; lia).
      rewrite (fadd_pinf_l t2 Nt2 T2). apply below_pinf. apply wf_fadd; assumption.
    + subst a1 t1. rewrite (ord_pinf a2 W2 N2 Ho), (ord_pinf t2 Wt2 Nt2 Ht).
      apply below_refl.
    + subst a1 t1. left. reflexivity.
    + subst a1. right; left. destruct t1 as [s|[]| |s m e]; try discriminate; reflexivity.
    + subst a1 t1. left. reflexivity.
    + subst a1 t1. right; left. reflexivity.
Qed.

Lemma below_zero_l (a x : float) : below (fadd a f0) x -> below a x.
Proof.
  destruct a as [[]|[]| |s m e]; try (intros H; exact H); intros [H|[H|H]];
    try discriminate; right; right; exact H.
Qed.

Lemma below_zero_r (x a : float) : below x (fadd a f0) -> below x a.
Proof.
  destruct a as [[]|[]| |s m e]; intros H; exact H.
Qed.

(** One conditional accumulation on both sides, with different conditions
    and terms. *)
Lemma below_step2 (c1 c2 : bool) (t1 t2 a1 a2 : float) :
  wf a1 = true -> wf a2 = true -> wf t1 = true -> wf t2 = true ->
  is_nan t1 = false -> is_nan t2 = false ->
  (c1 = true -> c2 = true -> ord t1 <= ord t2) ->
  (c1 = false -> c2 = true -> 0 <= ord t2) ->
  (c1 = true -> c2 = false -> ord t1 <= 0) ->
  below a1 a2 -> below (step c1 t1 a1) (step c2 t2 a2).
Proof.
  intros W1 W2 Wt1 Wt2 Nt1 Nt2 Htt Hft Htf Hb. unfold step.
  destruct c1, c2.
  - apply below_fadd2; auto.
  - apply below_zero_r. apply below_fadd2; auto; try reflexivity; try (apply Htf; reflexivity).
  - apply below_zero_l. apply below_fadd2; auto; try reflexivity; try (apply Hft; reflexivity).
  - exact Hb.
Qed.

Lemma below_run_chain2 (l1 l2 : list (bool * float)) :
  Forall2 step_le l1 l2 ->
  forall a1 a2, wf a1 = true -> wf a2 = true -> below a1 a2 ->
  below (run_chain l1 a1) (run_chain l2 a2).
Proof.
  induction 1 as [|[c1 t1] [c2 t2] l1 l2 Hs Hl IH]; intros a1 a2 W1 W2 Hb; [exact Hb|].
  cbn [run_chain fold_left fst snd].
  destruct Hs as [[E Wt]|(Wt1 & Wt2 & Nt1 & Nt2 & Htt & Hft & Htf)]; cbn [fst snd] in *.
  - inversion E; subst c2 t2. apply IH; try (apply wf_step; assumption).
    apply below_step; assumption.
  - apply IH; try (apply wf_step; assumption).
    apply below_step2; assumption.
Qed.

Lemma fin_scaled_range (rho : float) :
  wf rho = true -> fin rho = true ->
  let a := fmul rho f0_1 in
  wf a = true /\ fin a = true /\ (0 <= ord rho -> 0 <= ord a) /\ (ord rho <= 0 -> ord a <= 0).
Proof.
  intros W F a. unfold a.
  destruct (fmul_fin rho f0_1 W eq_refl F eq_refl) as (Wa & Na & Sa).
  pose proof (proj1 (fin_ord rho W (fin_not_nan rho F)) F) as B.
  assert (P : 0 < ord f0_1) by reflexivity.
  assert (Q : ord f0_1 <= ord f1) by (vm_compute; discriminate).
  assert (Hp : 0 <= ord rho -> 0 <= ord (fmul rho f0_1) <= ord rho).
  { intros H. split.
    - apply (sround_sign _ _ _ Sa). apply Z.mul_nonneg_nonneg; lia.
    - rewrite <- (fmul_one_r rho W) at 2.
      apply fmul_le; try reflexivity; try assumption. apply Z.mul_le_mono_nonneg_l; lia. }
  assert (Hn : ord rho <= 0 -> ord rho <= ord (fmul rho f0_1) <= 0).
  { intros H. split.
    - rewrite <- (fmul_one_r rho W) at 1.
      apply fmul_le; try reflexivity; try assumption.
      apply Z.mul_le_mono_nonpos_l; lia.
    - apply (sround_sign _ _ _ Sa). apply Z.mul_nonpos_nonneg; lia. }
  split; [exact Wa|]. split.
  - apply fin_ord; try assumption. destruct (Z_le_gt_dec 0 (ord rho)); [specialize (Hp ltac:(lia))|specialize (Hn ltac:(lia))]; lia.
  - split; intros H; [apply Hp|apply Hn]; exact H.
Qed.

Lemma term_facts (rho1 rho2 m : float) :
  wf rho1 = true -> wf rho2 = true -> fin rho1 = true -> fin rho2 = true ->
  fle rho1 rho2 = true ->
  wf m = true -> fin m = true -> fle f0 m = true ->
  let t1 := fmul (fmul rho1 f0_1) m in
  let t2 := fmul (fmul rho2 f0_1) m in
  wf t1 = true /\ wf t2 = true /\ is_nan t1 = false /\ is_nan t2 = false /\
  ord t1 <= ord t2 /\
  (flt f0 rho2 = true -> 0 <= ord t2) /\
  (flt rho1 f0 = true -> ord t1 <= 0) /\
  (flt f0 rho1 = true -> flt f0 rho2 = true) /\
  (flt rho2 f0 = true -> flt rho1 f0 = true).
Proof.
  intros W1 W2 F1 F2 Hle Wm Fm Hm t1 t2. unfold t1, t2.
  destruct (fle_true_ord rho1 rho2 W1 W2 Hle) as (N1 & N2 & Ho).
  destruct (fle_true_ord f0 m eq_refl Wm Hm) as (_ & Nm & Om). change (ord f0) with 0 in Om.
  destruct (fin_scaled_range rho1 W1 F1) as (Wa1 & Fa1 & Pa1 & Na1).
  destruct (fin_scaled_range rho2 W2 F2) as (Wa2 & Fa2 & Pa2 & Na2).
  assert (Ha : ord (fmul rho1 f0_1) <= ord (fmul rho2 f0_1)).
  { apply fmul_le; try reflexivity; try assumption.
    apply Z.mul_le_mono_nonneg_r; [vm_compute; discriminate|exact Ho]. }
  destruct (fmul_fin _ m Wa1 Wm Fa1 Fm) as (Wt1 & Nt1 & St1).
  destruct (fmul_fin _ m Wa2 Wm Fa2 Fm) as (Wt2 & Nt2 & St2).
  repeat (split; [assumption|]).
  split; [apply fmul_le; try assumption; apply Z.mul_le_mono_nonneg_r; assumption|].
  split; [|split; [|split]].
  - intros H. pose proof (flt_true_ord f0 rho2 eq_refl W2 H) as Hp. change (ord f0) with 0 in Hp.
    apply (sround_sign _ _ _ St2). apply Z.mul_nonneg_nonneg; [apply Pa2; lia|exact Om].
  - intros H. pose proof (flt_true_ord rho1 f0 W1 eq_refl H) as Hp. change (ord f0) with 0 in Hp.
    apply (sround_sign _ _ _ St1). apply Z.mul_nonpos_nonneg; [apply Na1; lia|exact Om].
  - intros H. pose proof (flt_true_ord f0 rho1 eq_refl W1 H) as Hp.
    rewrite flt_ord by (assumption || reflexivity). apply Z.ltb_lt. lia.
  - intros H. pose proof (flt_true_ord rho2 f0 W2 eq_refl H) as Hp.
    rewrite flt_ord by (assumption || reflexivity). apply Z.ltb_lt. lia.
Qed.

Lemma wf_ranges_with_range (k : SimpleColorKeyerIop) (d : direction) (rho : float) :
  wf_ranges k = true -> wf rho = true -> wf_ranges (with_range k d rho) = true.
Proof.
  intros Wr W. apply wf_ranges_inv in Wr. destruct Wr as (R1 & R2 & R3 & R4 & R5 & R6).
  unfold wf_ranges. destruct d; cbn [with_range range_red_ range_green_ range_blue_
    range_yellow_ range_magenta_ range_cyan_]; rewrite ?R1, ?R2, ?R3, ?R4, ?R5, ?R6, ?W;
    reflexivity.
Qed.

(** Raising one range never lowers the tolerance of a pixel whose match for
    that direction is a finite non-negative number. *)
Lemma tolerance_monotone_in_range
  (k : SimpleColorKeyerIop) (d : direction) (rho1 rho2 : float) (pixel : Color3) :
  wf (variance_ k) = true -> wf_ranges k = true -> wf_color pixel = true ->
  wf rho1 = true -> wf rho2 = true -> fin rho1 = true -> fin rho2 = true ->
  fle rho1 rho2 = true ->
  fin (dir_match pixel d) = true -> fle f0 (dir_match pixel d) = true ->
  ord (effective_tolerance (with_range k d rho1) pixel)
  <= ord (effective_tolerance (with_range k d rho2) pixel).
Proof.
  intros Wv Wr Wp W1 W2 F1 F2 Hle Fm Hm.
  pose proof (wf_ranges_with_range k d rho1 Wr W1) as Wr1.
  pose proof (wf_ranges_with_range k d rho2 Wr W2) as Wr2.
  rewrite !effective_tolerance_chain.
  apply below_floor; try reflexivity;
    try (apply wf_run_chain; [apply wf_tol_chain; assumption|exact Wv]).
  apply below_run_chain2; try exact Wv; [|apply below_refl].
  apply wf_ranges_inv in Wr. destruct Wr as (R1 & R2 & R3 & R4 & R5 & R6).
  apply wf_color_inv in Wp. destruct Wp as (P1 & P2 & P3).
  assert (Wm : wf (dir_match pixel d) = true) by (destruct d; cbn [dir_match]; auto with wf).
  destruct (term_facts rho1 rho2 (dir_match pixel d) W1 W2 F1 F2 Hle Wm Fm Hm)
    as (Wt1 & Wt2 & Nt1 & Nt2 & Ht & Hp & Hn & Cp & Cn).
  destruct d; unfold tol_chain;
    cbn [with_range dir_match range_red_ range_green_ range_blue_
         range_yellow_ range_magenta_ range_cyan_] in *;
    repeat (apply Forall2_cons || apply Forall2_nil);
    first [ solve [left; split; [reflexivity|cbn [snd]; auto with wf]]
          | right; cbn [fst snd]; repeat (split; [assumption|]);
            repeat split; intros E1 E2; auto;
            first [ rewrite (Cp E1) in E2; discriminate
                  | rewrite (Cn E2) in E1; discriminate ] ].
Qed.




(** * Evaluating the model *)

(** The literals are the binary32 numbers nearest to their decimals. *)
Example literal_values :
  f1 = of_Z 1 /\ f2 = of_Z 2 /\ f0_5 = lit 1 2 /\ f0_001 = lit 1 1000 /\ f0_1 = lit 1 10 /\
  f0_299 = lit 299 1000 /\ f0_587 = lit 587 1000 /\ f0_114 = lit 114 1000 /\
  f0_3 = lit 3 10 /\ f0_7 = lit 7 10 /\ f0_9 = lit 9 10 /\
  f0_25 = lit 1 4 /\ f0_75 = lit 3 4 /\ f1e8 = of_Z 100000000.
Proof. repeat split. Qed.

(** Key (0,1,0), variance 0.3, no bias: the key colour itself has alpha 1 and
    white has alpha 0. *)
Example distance_of_key_and_white :
  calculate_distance_alpha default_iop (mkColor3 f0 f1 f0) (mkColor3 f0 f1 f0) = f1 /\
  calculate_distance_alpha default_iop (mkColor3 f1 f1 f1) (mkColor3 f0 f1 f0) = f0.
Proof. split; reflexivity. Qed.

(** The same with a yellow range of 3 and the pixel (1,1,0): the tolerance is
    0.3 + 3 * 0.1 * 1 = 0.6, the distance is 1 and the alpha is still 0. *)
Example distance_of_yellow_with_bias :
  effective_tolerance iop_yellow_bias (mkColor3 f1 f1 f0) = S754_finite false 10066330 (-24) /\
  distance_to (mkColor3 f1 f1 f0) (mkColor3 f0 f1 f0) = f1 /\
  calculate_distance_alpha iop_yellow_bias (mkColor3 f1 f1 f0) (mkColor3 f0 f1 f0) = f0.
Proof. repeat split. Qed.

(** With a zero variance the Chroma method computes 0/0 for the key colour
    itself and returns alpha 0, where the Distance method returns 1. *)
Example chroma_with_zero_variance :
  calculate_chroma_alpha (with_variance default_iop f0) (mkColor3 f0 f1 f0) (mkColor3 f0 f1 f0) = f0 /\
  calculate_distance_alpha (with_variance default_iop f0) (mkColor3 f0 f1 f0) (mkColor3 f0 f1 f0) = f1.
Proof. split; reflexivity. Qed.

(** * The claims *)




(** Claim C2.  For every parameter set (whatever its variance, also zero,
    negative or NaN), pixel and key colour: the number the Distance method
    divides by is at least 0.001, so it is never a zero; the LumaWeighted and
    Adaptive methods reuse the Distance method's alpha, hence the same
    division; the Chroma method divides the chroma distance by the raw
    variance with no floor, so that with a zero variance its quotient is not
    a finite number (a division by zero took place). *)
Theorem C2_division_floor (k : SimpleColorKeyerIop) (pixel key : Color3) :
  fle f0_001 (effective_tolerance k pixel) = true /\
  (forall s, effective_tolerance k pixel <> S754_zero s) /\
  calculate_distance_alpha k pixel key
  = fmax f0 (fsub f1 (fdiv (distance_to pixel key) (effective_tolerance k pixel))) /\
  calculate_luma_weighted_alpha k pixel key
  = fmul (calculate_distance_alpha k pixel key) (luma_weight pixel key) /\
  calculate_adaptive_alpha k pixel key
  = (if flt f0_5 (key_saturation key)
     then fadd (fmul f0_3 (calculate_distance_alpha k pixel key))
               (fmul f0_7 (calculate_chroma_alpha k pixel key))
     else fadd (fmul f0_7 (calculate_distance_alpha k pixel key))
               (fmul f0_3 (calculate_chroma_alpha k pixel key))) /\
  calculate_chroma_alpha k pixel key
  = fmax f0 (fsub f1 (fdiv (chroma_distance pixel key) (variance_ k))) /\
  (forall s, variance_ k = S754_zero s ->
             fin (fdiv (chroma_distance pixel key) (variance_ k)) = false).
Proof.
  assert (H : fle f0_001 (effective_tolerance k pixel) = true).
  { rewrite effective_tolerance_chain. apply fle_fmax_floor. reflexivity. }
  split; [exact H|]. split.
  - intros s E. rewrite E in H. destruct s; discriminate.
  - repeat (split; [reflexivity|]).
    intros s ->. apply fdiv_zero_not_finite.
Qed.

(** Claim C3.  For every pixel colour, key colour and parameter set with
    [variance > 0], the raw alpha - before gain and invert - of each of the
    four methods Distance, Chroma, LumaWeighted and Adaptive, and of
    [calculate_alpha] whatever the method selector, is a number of the
    closed interval from 0 to 1. *)
Theorem C3_raw_alpha_in_unit_interval (k : SimpleColorKeyerIop) (pixel key : Color3) :
  wf_iop k = true -> wf_color pixel = true -> wf_color key = true ->
  flt f0 (variance_ k) = true ->
  (fle f0 (calculate_distance_alpha k pixel key) = true /\
   fle (calculate_distance_alpha k pixel key) f1 = true) /\
  (fle f0 (calculate_chroma_alpha k pixel key) = true /\
   fle (calculate_chroma_alpha k pixel key) f1 = true) /\
  (fle f0 (calculate_luma_weighted_alpha k pixel key) = true /\
   fle (calculate_luma_weighted_alpha k pixel key) f1 = true) /\
  (fle f0 (calculate_adaptive_alpha k pixel key) = true /\
   fle (calculate_adaptive_alpha k pixel key) f1 = true) /\
  (fle f0 (calculate_alpha k pixel key) = true /\
   fle (calculate_alpha k pixel key) f1 = true).
Proof.
  intros Wk Wp Wkey Pv. apply wf_iop_inv in Wk. destruct Wk as (_ & Wv & Wr & _).
  pose proof (distance_alpha_unit k pixel key Wv Wr Wp Wkey) as U0.
  pose proof (chroma_alpha_unit k pixel key Wv Pv Wp Wkey) as U1.
  pose proof (luma_weighted_alpha_unit k pixel key Wv Wr Wp Wkey) as U2.
  pose proof (adaptive_alpha_unit k pixel key Wv Pv Wr Wp Wkey) as U3.
  repeat (split; [apply unit_interval_fle; assumption|]).
  apply unit_interval_fle. unfold calculate_alpha.
  destruct (keying_method_ k) as [|[[[]|[]|]|[[]|[]|]|]|]; try assumption;
    repeat split; simpl; lia.
Qed.

(** C3 at the default key colour with a yellow bias. *)
Lemma C3_witness :
  wf_iop iop_yellow_bias = true /\
  flt f0 (variance_ iop_yellow_bias) = true /\
  fle (calculate_adaptive_alpha iop_yellow_bias (mkColor3 f0_1 f0_9 f0_1) (mkColor3 f0 f1 f0)) f1 = true.
Proof.
  split; [reflexivity|]. split; [reflexivity|].
  exact (proj2 (proj1 (proj2 (proj2 (proj2
    (C3_raw_alpha_in_unit_interval iop_yellow_bias (mkColor3 f0_1 f0_9 f0_1) (mkColor3 f0 f1 f0)
       eq_refl eq_refl eq_refl eq_refl)))))).
Defined.

(** Claim C4.  Post-processing multiplies by the gain, then clamps to the
    interval from 0 to 1, then inverts ([1 - value]) when [invert] is set, in
    that order.  Hence for every parameter set with gain 2 and invert set the
    alpha 1.0 is finalised to 0.0, with gain 1 and invert set the alpha 0.5
    is finalised to 0.5, and the final alpha is never negative (it is a
    number between 0 and 1 for every raw alpha and gain, NaN included). *)
Theorem C4_post_process_order (k : SimpleColorKeyerIop) (alpha : float) :
  wf alpha = true -> wf (gain_ k) = true ->
  post_process k alpha
  = (let scaled := fmul alpha (gain_ k) in
     let clamped := fmax f0 (fmin f1 scaled) in
     if invert_ k then fsub f1 clamped else clamped) /\
  (gain_ k = f2 -> invert_ k = true -> post_process k f1 = f0) /\
  (gain_ k = f1 -> invert_ k = true -> post_process k f0_5 = f0_5) /\
  fle f0 (post_process k alpha) = true /\ fle (post_process k alpha) f1 = true.
Proof.
  intros Wa Wg. split; [reflexivity|]. split; [|split].
  - intros Hg Hi. unfold post_process. rewrite Hg, Hi. reflexivity.
  - intros Hg Hi. unfold post_process. rewrite Hg, Hi. reflexivity.
  - apply unit_interval_fle. apply post_process_unit; assumption.
Qed.

(** C4 at the parameters the constructor leaves and the raw alpha 0.5. *)
Lemma C4_witness :
  wf f0_5 = true /\ wf (gain_ default_iop) = true /\
  fle f0 (post_process default_iop f0_5) = true.
Proof.
  split; [reflexivity|]. split; [reflexivity|].
  exact (proj1 (proj2 (proj2 (proj2 (C4_post_process_order default_iop f0_5 eq_refl eq_refl))))).
Defined.



(** Claim C6.  Adaptive method: with the saturation of the key colour
    [max(r,g,b) - min(r,g,b)], the alpha returned is
    [0.3 * distance_alpha + 0.7 * chroma_alpha] when the saturation is
    strictly greater than 0.5 and [0.7 * distance_alpha + 0.3 * chroma_alpha]
    otherwise, in particular when the saturation is at most 0.5;
    [distance_alpha] and [chroma_alpha] are the alphas of the Distance and
    Chroma methods on the same inputs.  The last part says that [fmax3] and
    [fmin3] are the largest and the least channel when no channel is NaN. *)
Theorem C6_adaptive_blend (k : SimpleColorKeyerIop) (pixel key : Color3) :
  wf_color key = true ->
  let distance_alpha := calculate_distance_alpha k pixel key in
  let chroma_alpha := calculate_chroma_alpha k pixel key in
  let saturation := fsub (fmax3 (r key) (g key) (b key)) (fmin3 (r key) (g key) (b key)) in
  (flt f0_5 saturation = true ->
   calculate_adaptive_alpha k pixel key
   = fadd (fmul f0_3 distance_alpha) (fmul f0_7 chroma_alpha)) /\
  (fle saturation f0_5 = true ->
   calculate_adaptive_alpha k pixel key
   = fadd (fmul f0_7 distance_alpha) (fmul f0_3 chroma_alpha)) /\
  (flt f0_5 saturation = false ->
   calculate_adaptive_alpha k pixel key
   = fadd (fmul f0_7 distance_alpha) (fmul f0_3 chroma_alpha)) /\
  (is_nan (r key) = false -> is_nan (g key) = false -> is_nan (b key) = false ->
   ord (fmax3 (r key) (g key) (b key)) = Z.max (ord (r key)) (Z.max (ord (g key)) (ord (b key))) /\
   ord (fmin3 (r key) (g key) (b key)) = Z.min (ord (r key)) (Z.min (ord (g key)) (ord (b key)))).
Proof.
  intros Wk da ca sat.
  pose proof (wf_key_saturation key Wk) as Ws. fold sat in Ws.
  assert (Hgt : flt f0_5 sat = true ->
                calculate_adaptive_alpha k pixel key = fadd (fmul f0_3 da) (fmul f0_7 ca)).
  { intros H. unfold calculate_adaptive_alpha. fold sat in H. unfold key_saturation. fold sat.
    rewrite H. reflexivity. }
  assert (Hle : flt f0_5 sat = false ->
                calculate_adaptive_alpha k pixel key = fadd (fmul f0_7 da) (fmul f0_3 ca)).
  { intros H. unfold calculate_adaptive_alpha, key_saturation. fold sat.
    rewrite H. reflexivity. }
  split; [exact Hgt|]. split; [|split; [exact Hle|]].
  - intros H. apply Hle.
    assert (N : is_nan sat = false) by (destruct sat; try reflexivity; discriminate).
    rewrite fle_ord in H by (assumption || reflexivity).
    rewrite flt_ord by (assumption || reflexivity).
    apply Z.leb_le in H. apply Z.ltb_ge. exact H.
  - intros Nr Ng Nb. apply wf_color_inv in Wk. destruct Wk as (W1 & W2 & W3).
    split; [apply fmax3_ord|apply fmin3_ord]; assumption.
Qed.

(** C6 at the pure red key colour, whose saturation is 1. *)
Lemma C6_witness :
  wf_color (mkColor3 f1 f0 f0) = true /\
  flt f0_5 (fsub (fmax3 f1 f0 f0) (fmin3 f1 f0 f0)) = true /\
  calculate_adaptive_alpha default_iop (mkColor3 f0_9 f0_1 f0_1) (mkColor3 f1 f0 f0)
  = fadd (fmul f0_3 (calculate_distance_alpha default_iop (mkColor3 f0_9 f0_1 f0_1) (mkColor3 f1 f0 f0)))
         (fmul f0_7 (calculate_chroma_alpha default_iop (mkColor3 f0_9 f0_1 f0_1) (mkColor3 f1 f0 f0))).
Proof.
  split; [reflexivity|]. split; [reflexivity|].
  exact (proj1 (C6_adaptive_blend default_iop (mkColor3 f0_9 f0_1 f0_1) (mkColor3 f1 f0 f0) eq_refl)
               eq_refl).
Defined.

(** Claim C7.  The Chroma method does not depend on the six directional
    ranges: two parameter sets with the same variance give the same Chroma
    alpha for every pixel and key colour, however their ranges differ. *)
Theorem C7_chroma_ignores_ranges (k1 k2 : SimpleColorKeyerIop) (pixel key : Color3) :
  variance_ k1 = variance_ k2 ->
  calculate_chroma_alpha k1 pixel key = calculate_chroma_alpha k2 pixel key.
Proof.
  intros H. unfold calculate_chroma_alpha. rewrite H. reflexivity.
Qed.

(** C7 at the default parameters and the same with a yellow bias of 3. *)
Lemma C7_witness :
  variance_ default_iop = variance_ iop_yellow_bias /\
  calculate_chroma_alpha default_iop (mkColor3 f1 f1 f0) (mkColor3 f0 f1 f0)
  = calculate_chroma_alpha iop_yellow_bias (mkColor3 f1 f1 f0) (mkColor3 f0 f1 f0).
Proof.
  split; [reflexivity|].
  exact (C7_chroma_ignores_ranges default_iop iop_yellow_bias (mkColor3 f1 f1 f0) (mkColor3 f0 f1 f0)
           eq_refl).
Defined.

(** Claim C8.  The Distance method is monotone in the variance: for fixed
    pixel, key colour and six ranges, and two variances [v1 <= v2], the raw
    alpha computed with [v2] is greater than or equal to the one computed
    with [v1]. *)
Theorem C8_distance_monotone_in_variance
  (k : SimpleColorKeyerIop) (v1 v2 : float) (pixel key : Color3) :
  wf_ranges k = true -> wf_color pixel = true -> wf_color key = true ->
  wf v1 = true -> wf v2 = true ->
  fle v1 v2 = true ->
  fle (calculate_distance_alpha (with_variance k v1) pixel key)
      (calculate_distance_alpha (with_variance k v2) pixel key) = true.
Proof.
  intros Wr Wp Wk W1 W2 Hle.
  pose proof (distance_alpha_unit (with_variance k v1) pixel key W1 Wr Wp Wk) as (Wa1 & Na1 & _).
  pose proof (distance_alpha_unit (with_variance k v2) pixel key W2 Wr Wp Wk) as (Wa2 & Na2 & _).
  rewrite fle_ord by assumption. apply Z.leb_le.
  unfold calculate_distance_alpha.
  destruct (wf_distance_to pixel key Wp Wk) as (Wd & Od).
  destruct (effective_tolerance_pos (with_variance k v1) pixel W1 Wr Wp) as (We1 & Ne1 & Oe1).
  destruct (effective_tolerance_pos (with_variance k v2) pixel W2 Wr Wp) as (We2 & Ne2 & Oe2).
  change (ord f0_001) with (8589935 * 2 ^ 116) in Oe1, Oe2.
  apply quotient_alpha_mono; try assumption; try lia.
  apply effective_tolerance_mono; assumption.
Qed.

(** C8 at the variances 0.1 and 0.3. *)
Lemma C8_witness :
  wf_ranges iop_yellow_bias = true /\ fle f0_1 f0_3 = true /\
  fle (calculate_distance_alpha (with_variance iop_yellow_bias f0_1)
         (mkColor3 f0_1 f0_9 f0_1) (mkColor3 f0 f1 f0))
      (calculate_distance_alpha (with_variance iop_yellow_bias f0_3)
         (mkColor3 f0_1 f0_9 f0_1) (mkColor3 f0 f1 f0)) = true.
Proof.
  split; [reflexivity|]. split; [reflexivity|].
  exact (C8_distance_monotone_in_variance iop_yellow_bias f0_1 f0_3
           (mkColor3 f0_1 f0_9 f0_1) (mkColor3 f0 f1 f0)
           eq_refl eq_refl eq_refl eq_refl eq_refl eq_refl).
Defined.

(** Claim C9 fails when the offset is added in binary32, with the default key
    colour (0,1,0) and variance 0.3 and the pixel (0.1, 0.9, 0.1).  For the
    offset 0.1 the shifted pixel is (0.2, 1.0, 0.2), and the two Chroma alphas
    differ in their last bits because [0.2f - 1.0f] and [0.1f - 0.9f] are
    rounded differently.  For the offset 1e8 every channel of the shifted
    pixel is 1e8 (the channels are below half a unit in the last place of
    1e8), its chroma is that of a grey, and its alpha is 0 where the alpha of
    the pixel is about 0.057. *)
Lemma C9_counterexample :
  (* a small offset: the last bits of the alpha change *)
  shift (mkColor3 f0_1 f0_9 f0_1) f0_1 = mkColor3 (S754_finite false 13421773 (-26)) f1 (S754_finite false 13421773 (-26)) /\
  calculate_chroma_alpha default_iop (shift (mkColor3 f0_1 f0_9 f0_1) f0_1) (key_color_ default_iop)
  <> calculate_chroma_alpha default_iop (mkColor3 f0_1 f0_9 f0_1) (key_color_ default_iop) /\
  (* a large offset absorbs the channels: the alpha drops to 0 *)
  shift (mkColor3 f0_1 f0_9 f0_1) f1e8 = mkColor3 f1e8 f1e8 f1e8 /\
  calculate_chroma_alpha default_iop (mkColor3 f0_1 f0_9 f0_1) (key_color_ default_iop)
  = S754_finite false 15352032 (-28) /\
  calculate_chroma_alpha default_iop (shift (mkColor3 f0_1 f0_9 f0_1) f1e8) (key_color_ default_iop)
  = f0.
Proof.
  split; [reflexivity|]. split; [vm_compute; discriminate|]. repeat split.
Qed.

(** Claim C9, amended.  The Chroma alpha is invariant under an equal offset
    of the three channels that is exact: when all channels are finite and the
    channels of [pixel'] are exactly those of [pixel] plus one common offset,
    the Chroma alpha of [pixel'] equals that of [pixel], for every key colour
    and parameter set. *)
Theorem C9_chroma_exact_shift_invariant
  (k : SimpleColorKeyerIop) (pixel pixel' key : Color3) :
  wf_color pixel = true -> wf_color pixel' = true ->
  fin_color pixel = true -> fin_color pixel' = true ->
  exact_shift pixel pixel' ->
  calculate_chroma_alpha k pixel' key = calculate_chroma_alpha k pixel key.
Proof.
  intros Wp Wp' Fp Fp' (D & Hr & Hg & Hb).
  apply wf_color_inv in Wp. apply wf_color_inv in Wp'.
  destruct Wp as (W1 & W2 & W3). destruct Wp' as (W1' & W2' & W3').
  unfold fin_color in Fp, Fp'. rewrite !andb_true_iff in Fp, Fp'.
  destruct Fp as ((F1 & F2) & F3). destruct Fp' as ((F1' & F2') & F3').
  assert (Hu : eqz (fsub (r pixel') (g pixel')) (fsub (r pixel) (g pixel)))
    by (apply fsub_exact_shift; try assumption; lia).
  assert (Hv : eqz (fsub (b pixel') (g pixel')) (fsub (b pixel) (g pixel)))
    by (apply fsub_exact_shift; try assumption; lia).
  unfold calculate_chroma_alpha, chroma_distance.
  rewrite (eqz_square _ _ (eqz_fsub_l _ _ (fsub (r key) (g key)) Hu)).
  rewrite (eqz_square _ _ (eqz_fsub_l _ _ (fsub (b key) (g key)) Hv)).
  reflexivity.
Qed.

(** C9 at the pixel (0.25, 0.5, 0.75) shifted by 0.25. *)
Lemma C9_witness :
  wf_color (mkColor3 f0_25 f0_5 f0_75) = true /\ wf_color (mkColor3 f0_5 f0_75 f1) = true /\
  fin_color (mkColor3 f0_25 f0_5 f0_75) = true /\ fin_color (mkColor3 f0_5 f0_75 f1) = true /\
  exact_shift (mkColor3 f0_25 f0_5 f0_75) (mkColor3 f0_5 f0_75 f1) /\
  calculate_chroma_alpha default_iop (mkColor3 f0_5 f0_75 f1) (mkColor3 f0 f1 f0)
  = calculate_chroma_alpha default_iop (mkColor3 f0_25 f0_5 f0_75) (mkColor3 f0 f1 f0).
Proof.
  split; [reflexivity|]. split; [reflexivity|]. split; [reflexivity|]. split; [reflexivity|].
  split; [exact exact_shift_quarter|].
  exact (C9_chroma_exact_shift_invariant default_iop
           (mkColor3 f0_25 f0_5 f0_75) (mkColor3 f0_5 f0_75 f1) (mkColor3 f0 f1 f0)
           eq_refl eq_refl eq_refl eq_refl exact_shift_quarter).
Defined.

(** Claim C10 fails for an infinite gain: with a method selector of 4, no
    inversion and gain +infinity, [calculate_alpha] returns 0.0, the product
    [0.0 * inf] is NaN, [std::min(1.0f, NaN)] is 1.0, and the final alpha is
    1.0 instead of 0. *)
Lemma C10_counterexample :
  unknown_method iop_inf_gain /\
  invert_ iop_inf_gain = false /\
  calculate_alpha iop_inf_gain (mkColor3 f0 f1 f0) (key_color_ iop_inf_gain) = f0 /\
  engine_alpha iop_inf_gain (mkColor3 f0 f1 f0) = f1 /\
  engine_alpha iop_inf_gain (mkColor3 f0 f1 f0) <> f0.
Proof.
  split; [right; reflexivity|]. repeat split. discriminate.
Qed.

(** Claim C10, amended.  For every pixel and key colour, when the method
    selector is an integer outside 0..3, [calculate_alpha] returns 0.0 (no
    case of the switch matches and no error is signalled); when moreover the
    gain is a finite number, the final alpha after post-processing is 0 for
    every pixel, or 1 when [invert] is set. *)
Theorem C10_unknown_method_finite_gain (k : SimpleColorKeyerIop) (pixel key : Color3) :
  unknown_method k -> fin (gain_ k) = true ->
  calculate_alpha k pixel key = f0 /\
  engine_alpha k pixel = (if invert_ k then f1 else f0).
Proof.
  intros Hm Hg. split; [apply calculate_alpha_unknown; exact Hm|].
  unfold engine_alpha. rewrite calculate_alpha_unknown by exact Hm.
  unfold post_process.
  destruct (gain_ k) as [s|s| |s m e]; try discriminate; destruct (invert_ k), s; reflexivity.
Qed.

(** C10 at the method selector 7 with gain 2 and invert set. *)
Lemma C10_witness :
  unknown_method (mkIop (mkColor3 f0 f1 f0) f0_3 f0 f0 f0 f0 f0 f0 f2 true 7) /\
  engine_alpha (mkIop (mkColor3 f0 f1 f0) f0_3 f0 f0 f0 f0 f0 f0 f2 true 7) (mkColor3 f1 f0 f0) = f1.
Proof.
  split; [right; reflexivity|].
  exact (proj2 (C10_unknown_method_finite_gain
                  (mkIop (mkColor3 f0 f1 f0) f0_3 f0 f0 f0 f0 f0 f0 f2 true 7)
                  (mkColor3 f1 f0 f0) (mkColor3 f0 f1 f0)
                  (or_intror eq_refl) eq_refl)).
Defined.

(** * Further properties of the code *)

(** ** Pixels with a NaN channel *)

Lemma fadd_nan_l (y : float) : fadd S754_nan y = S754_nan.
Proof. destruct y; reflexivity. Qed.

Lemma fadd_nan_r (x : float) : fadd x S754_nan = S754_nan.
Proof. destruct x; reflexivity. Qed.

Lemma fsub_nan_l (y : float) : fsub S754_nan y = S754_nan.
Proof. destruct y; reflexivity. Qed.

Lemma fsub_nan_r (x : float) : fsub x S754_nan = S754_nan.
Proof. destruct x; reflexivity. Qed.

Lemma fmul_nan_l (y : float) : fmul S754_nan y = S754_nan.
Proof. destruct y; reflexivity. Qed.

Lemma fmul_nan_r (x : float) : fmul x S754_nan = S754_nan.
Proof. destruct x; reflexivity. Qed.

Lemma fdiv_nan_l (y : float) : fdiv S754_nan y = S754_nan.
Proof. destruct y; reflexivity. Qed.

Lemma fdiv_nan_r (x : float) : fdiv x S754_nan = S754_nan.
Proof. destruct x; reflexivity. Qed.

Lemma fsqrt_nan : fsqrt S754_nan = S754_nan.
Proof. reflexivity. Qed.

Lemma fmax_nan_r (x : float) : fmax x S754_nan = x.
Proof. unfold fmax. rewrite flt_nan_r. reflexivity. Qed.

Lemma fmin_nan_r (x : float) : fmin x S754_nan = x.
Proof. unfold fmin. rewrite flt_nan_l. reflexivity. Qed.

Ltac nan_simpl :=
  rewrite ?fadd_nan_l, ?fadd_nan_r, ?fsub_nan_l, ?fsub_nan_r, ?fmul_nan_l, ?fmul_nan_r,
    ?fdiv_nan_l, ?fdiv_nan_r, ?fsqrt_nan, ?fmax_nan_r, ?fmin_nan_r.

Lemma is_nan_eq (x : float) : is_nan x = true -> x = S754_nan.
Proof. destruct x; try discriminate. reflexivity. Qed.

Lemma has_nan_cases (c : Color3) :
  has_nan c = true -> r c = S754_nan \/ g c = S754_nan \/ b c = S754_nan.
Proof.
  unfold has_nan. rewrite !orb_true_iff. intros [[H|H]|H]; apply is_nan_eq in H; auto.
Qed.

Lemma distance_to_nan (pixel key : Color3) :
  has_nan pixel = true -> distance_to pixel key = S754_nan.
Proof.
  intros H. unfold distance_to.
  destruct (has_nan_cases pixel H) as [E|[E|E]]; rewrite E; repeat nan_simpl; reflexivity.
Qed.

Lemma chroma_distance_nan (pixel key : Color3) :
  has_nan pixel = true -> chroma_distance pixel key = S754_nan.
Proof.
  intros H. unfold chroma_distance.
  destruct (has_nan_cases pixel H) as [E|[E|E]]; rewrite E; repeat nan_simpl; reflexivity.
Qed.

Lemma luma_nan (pixel : Color3) : has_nan pixel = true -> luma pixel = S754_nan.
Proof.
  intros H. unfold luma.
  destruct (has_nan_cases pixel H) as [E|[E|E]]; rewrite E; repeat nan_simpl; reflexivity.
Qed.

Lemma distance_alpha_nan (k : SimpleColorKeyerIop) (pixel key : Color3) :
  has_nan pixel = true -> calculate_distance_alpha k pixel key = f0.
Proof.
  intros H. unfold calculate_distance_alpha. rewrite (distance_to_nan pixel key H).
  repeat nan_simpl. reflexivity.
Qed.

Lemma chroma_alpha_nan (k : SimpleColorKeyerIop) (pixel key : Color3) :
  has_nan pixel = true -> calculate_chroma_alpha k pixel key = f0.
Proof.
  intros H. unfold calculate_chroma_alpha. rewrite (chroma_distance_nan pixel key H).
  repeat nan_simpl. reflexivity.
Qed.

Lemma post_process_zero (k : SimpleColorKeyerIop) :
  fin (gain_ k) = true -> post_process k f0 = if invert_ k then f1 else f0.
Proof.
  intros Hg. unfold post_process.
  destruct (gain_ k) as [s|s| |s m e]; try discriminate; destruct (invert_ k), s; reflexivity.
Qed.

Lemma luma_weighted_alpha_nan (k : SimpleColorKeyerIop) (pixel key : Color3) :
  has_nan pixel = true -> calculate_luma_weighted_alpha k pixel key = f0.
Proof.
  intros H. unfold calculate_luma_weighted_alpha, luma_weight.
  rewrite (distance_alpha_nan k pixel key H), (luma_nan pixel H).
  repeat nan_simpl. reflexivity.
Qed.

Lemma adaptive_alpha_nan (k : SimpleColorKeyerIop) (pixel key : Color3) :
  has_nan pixel = true -> calculate_adaptive_alpha k pixel key = f0.
Proof.
  intros H. unfold calculate_adaptive_alpha.
  rewrite (distance_alpha_nan k pixel key H), (chroma_alpha_nan k pixel key H).
  destruct (flt _ _); reflexivity.
Qed.

(** Property X1.  A pixel with a NaN channel is never keyed: for every
    parameter set and key colour each of the four methods, and
    [calculate_alpha] whatever the method selector, returns the raw alpha
    0.0 ([std::max(0.0f, NaN)] is 0.0 and [std::min(1.0f, NaN)] is 1.0); with
    a finite gain the alpha [engine] writes is then 0, or 1 when [invert] is
    set. *)
Theorem nan_pixel_is_not_keyed (k : SimpleColorKeyerIop) (pixel key : Color3) :
  has_nan pixel = true ->
  calculate_distance_alpha k pixel key = f0 /\
  calculate_chroma_alpha k pixel key = f0 /\
  calculate_luma_weighted_alpha k pixel key = f0 /\
  calculate_adaptive_alpha k pixel key = f0 /\
  calculate_alpha k pixel key = f0 /\
  (fin (gain_ k) = true -> engine_alpha k pixel = if invert_ k then f1 else f0).
Proof.
  intros H.
  assert (Hall : forall key', calculate_alpha k pixel key' = f0).
  { intros key'. unfold calculate_alpha.
    destruct (keying_method_ k) as [|[[[]|[]|]|[[]|[]|]|]|]; try reflexivity;
      first [apply distance_alpha_nan | apply chroma_alpha_nan
            | apply luma_weighted_alpha_nan | apply adaptive_alpha_nan]; exact H. }
  split; [apply distance_alpha_nan; exact H|].
  split; [apply chroma_alpha_nan; exact H|].
  split; [apply luma_weighted_alpha_nan; exact H|].
  split; [apply adaptive_alpha_nan; exact H|].
  split; [apply Hall|].
  intros Hg. unfold engine_alpha. rewrite Hall. apply post_process_zero. exact Hg.
Qed.

(** X1 at a pixel with a NaN green channel and the Adaptive method. *)
Lemma nan_pixel_is_not_keyed_witness :
  has_nan (mkColor3 f0_5 S754_nan f0_5) = true /\
  calculate_alpha iop_adaptive (mkColor3 f0_5 S754_nan f0_5) (mkColor3 f0 f1 f0) = f0 /\
  engine_alpha iop_adaptive (mkColor3 f0_5 S754_nan f0_5) = f0.
Proof.
  split; [reflexivity|]. split.
  - exact (proj1 (proj2 (proj2 (proj2 (proj2
      (nan_pixel_is_not_keyed iop_adaptive (mkColor3 f0_5 S754_nan f0_5) (mkColor3 f0 f1 f0)
         eq_refl)))))).
  - exact (proj2 (proj2 (proj2 (proj2 (proj2
      (nan_pixel_is_not_keyed iop_adaptive (mkColor3 f0_5 S754_nan f0_5) (mkColor3 f0 f1 f0)
         eq_refl))))) eq_refl).
Defined.

(** ** Exact operations, and the key colour itself *)

Lemma fsub_self (x : float) : wf x = true -> fin x = true -> fsub x x = f0.
Proof.
  intros W F. destruct x as [s|s| |s m e]; try discriminate.
  - destruct s; reflexivity.
  - apply (fsub_finite s s m m e e W W). lia.
Qed.

Lemma fmul_one_l (x : float) : wf x = true -> fmul f1 x = x.
Proof.
  intros W. destruct x as [s|s| |s m e]; try (destruct s; reflexivity); try reflexivity.
  destruct (fmul_fin f1 (S754_finite s m e) eq_refl W eq_refl eq_refl) as (W' & N' & S).
  pose proof (sround_exact (S754_finite s m e) W eq_refl) as S0.
  pose proof (pow2_pos 149 ltac:(lia)) as HP.
  change (ord f1) with (2 ^ 149) in S.
  apply eqz_finite. apply ord_inj; try assumption; try reflexivity.
  set (X := ord (S754_finite s m e)) in *. set (Q := 2 ^ 149) in *.
  assert (E1 : Q * X * 1 <= X * Q) by lia.
  assert (E2 : X * Q <= Q * X * 1) by lia.
  pose proof (sround_mono _ _ _ _ _ _ HP Z.lt_0_1 S S0 E1).
  pose proof (sround_mono _ _ _ _ _ _ Z.lt_0_1 HP S0 S E2).
  lia.
Qed.

Lemma fdiv_zero_pos (e : float) :
  wf e = true -> is_nan e = false -> 0 < ord e -> fdiv f0 e = f0.
Proof.
  intros W N H. destruct (positive_cases e W N H) as [->|(m & x & ->)]; reflexivity.
Qed.

Lemma flt_pos_ord (v : float) : wf v = true -> flt f0 v = true -> is_nan v = false /\ 0 < ord v.
Proof.
  intros W H. split; [apply (flt_true_nan_r _ _ H)|].
  apply (flt_true_ord f0 v eq_refl W H).
Qed.

Lemma distance_to_self (c : Color3) :
  wf_color c = true -> fin_color c = true -> distance_to c c = f0.
Proof.
  intros W F. apply wf_color_inv in W. destruct W as (W1 & W2 & W3).
  unfold fin_color in F. rewrite !andb_true_iff in F. destruct F as ((F1 & F2) & F3).
  unfold distance_to. rewrite !fsub_self by assumption. reflexivity.
Qed.

Lemma chroma_distance_self (c : Color3) :
  wf_color c = true ->
  fin (fsub (r c) (g c)) = true -> fin (fsub (b c) (g c)) = true ->
  chroma_distance c c = f0.
Proof.
  intros W F1 F2. apply wf_color_inv in W. destruct W as (W1 & W2 & W3).
  unfold chroma_distance. rewrite !fsub_self by auto with wf. reflexivity.
Qed.

Lemma luma_weight_self (c : Color3) :
  wf_color c = true -> fin (luma c) = true -> luma_weight c c = f1.
Proof.
  intros W F. unfold luma_weight. rewrite fsub_self by (try apply wf_luma; assumption).
  reflexivity.
Qed.

(** Property X2.  The key colour itself is fully keyed.  For a key colour
    with finite channels and every parameter set (whatever the ranges, also
    with a zero, negative or NaN variance) the Distance method gives the
    pixel equal to the key colour the alpha 1.0; so does the Luma Weighted
    method when the luma of the key colour does not overflow, and so do the
    Chroma and Adaptive methods when the variance is positive and the two
    chroma differences [r - g] and [b - g] of the key colour do not
    overflow. *)
Theorem key_colour_is_fully_keyed (k : SimpleColorKeyerIop) (key : Color3) :
  wf (variance_ k) = true -> wf_ranges k = true ->
  wf_color key = true -> fin_color key = true ->
  calculate_distance_alpha k key key = f1 /\
  (fin (luma key) = true -> calculate_luma_weighted_alpha k key key = f1) /\
  (flt f0 (variance_ k) = true ->
   fin (fsub (r key) (g key)) = true -> fin (fsub (b key) (g key)) = true ->
   calculate_chroma_alpha k key key = f1 /\ calculate_adaptive_alpha k key key = f1).
Proof.
  intros Wv Wr Wk Fk.
  assert (Hd : calculate_distance_alpha k key key = f1).
  { unfold calculate_distance_alpha. rewrite (distance_to_self key Wk Fk).
    destruct (effective_tolerance_pos k key Wv Wr Wk) as (We & Ne & Oe).
    change (ord f0_001) with (8589935 * 2 ^ 116) in Oe.
    rewrite fdiv_zero_pos by (assumption || lia). reflexivity. }
  split; [exact Hd|]. split.
  - intros Fl. unfold calculate_luma_weighted_alpha.
    rewrite Hd, (luma_weight_self key Wk Fl). reflexivity.
  - intros Pv F1 F2.
    assert (Hc : calculate_chroma_alpha k key key = f1).
    { unfold calculate_chroma_alpha. rewrite (chroma_distance_self key Wk F1 F2).
      destruct (flt_pos_ord _ Wv Pv) as (Nv & Ov).
      rewrite fdiv_zero_pos by assumption. reflexivity. }
    split; [exact Hc|].
    unfold calculate_adaptive_alpha. rewrite Hd, Hc.
    destruct (flt f0_5 (key_saturation key)); reflexivity.
Qed.

(** X2 at the key colour (0.25, 0.5, 0.75) with a yellow bias of 3. *)
Lemma key_colour_is_fully_keyed_witness :
  wf (variance_ iop_yellow_bias) = true /\ wf_ranges iop_yellow_bias = true /\
  wf_color (mkColor3 f0_25 f0_5 f0_75) = true /\ fin_color (mkColor3 f0_25 f0_5 f0_75) = true /\
  calculate_distance_alpha iop_yellow_bias (mkColor3 f0_25 f0_5 f0_75) (mkColor3 f0_25 f0_5 f0_75)
  = f1 /\
  calculate_adaptive_alpha iop_yellow_bias (mkColor3 f0_25 f0_5 f0_75) (mkColor3 f0_25 f0_5 f0_75)
  = f1.
Proof.
  split; [reflexivity|]. split; [reflexivity|]. split; [reflexivity|]. split; [reflexivity|].
  split.
  - exact (proj1 (key_colour_is_fully_keyed iop_yellow_bias (mkColor3 f0_25 f0_5 f0_75)
                    eq_refl eq_refl eq_refl eq_refl)).
  - exact (proj2 (proj2 (proj2 (key_colour_is_fully_keyed iop_yellow_bias
                    (mkColor3 f0_25 f0_5 f0_75) eq_refl eq_refl eq_refl eq_refl))
                    eq_refl eq_refl eq_refl)).
Defined.

(** ** The raw alpha whatever the variance *)

Lemma nonneg_fle (x : float) :
  wf x = true -> is_nan x = false -> 0 <= ord x -> fle f0 x = true.
Proof.
  intros W N H. rewrite fle_ord by (assumption || reflexivity). apply Z.leb_le. exact H.
Qed.

Lemma fmax0_nonneg (y : float) :
  wf y = true ->
  wf (fmax f0 y) = true /\ is_nan (fmax f0 y) = false /\ 0 <= ord (fmax f0 y).
Proof.
  intros W. unfold fmax. destruct (flt f0 y) eqn:Hlt.
  - destruct (flt_pos_ord y W Hlt) as (N & H). repeat split; auto; lia.
  - repeat split; simpl; lia.
Qed.

Lemma wf_chroma_alpha (k : SimpleColorKeyerIop) (pixel key : Color3) :
  wf (variance_ k) = true -> wf_color pixel = true -> wf_color key = true ->
  let a := calculate_chroma_alpha k pixel key in
  wf a = true /\ is_nan a = false /\ 0 <= ord a.
Proof.
  intros Wv Wp Wk. unfold calculate_chroma_alpha. apply fmax0_nonneg.
  destruct (wf_chroma_distance pixel key Wp Wk) as (Wd & _). auto with wf.
Qed.

Lemma fmul_nonneg_any (c y : float) :
  wf c = true -> fin c = true -> 0 < ord c ->
  wf y = true -> is_nan y = false -> 0 <= ord y ->
  wf (fmul c y) = true /\ is_nan (fmul c y) = false /\ 0 <= ord (fmul c y).
Proof.
  intros Wc Fc Oc Wy Ny Oy. split; [apply wf_fmul; assumption|].
  destruct (fin y) eqn:Fy.
  - destruct (fmul_fin c y Wc Wy Fc Fy) as (_ & N & S). split; [exact N|].
    apply (sround_sign _ _ _ S). apply Z.mul_nonneg_nonneg; lia.
  - destruct y as [s|s| |s m e]; try discriminate.
    pose proof inf_ord_pos.
    destruct s; [cbn [ord cond_Zopp] in Oy; lia|].
    destruct c as [sc|sc| |sc mc ec]; try discriminate.
    destruct sc.
    + pose proof (ord_finite_bounds true mc ec Wc). cbn [ord cond_Zopp] in Oc. lia.
    + split; [reflexivity|]. simpl. lia.
Qed.

Lemma fadd_nonneg_any (x y : float) :
  wf x = true -> fin x = true -> 0 <= ord x ->
  wf y = true -> is_nan y = false -> 0 <= ord y ->
  wf (fadd x y) = true /\ is_nan (fadd x y) = false /\ 0 <= ord (fadd x y).
Proof.
  intros Wx Fx Ox Wy Ny Oy. split; [apply wf_fadd; assumption|].
  destruct (fin y) eqn:Fy.
  - destruct (fadd_fin x y Wx Wy Fx Fy) as (_ & N & S). split; [exact N|].
    apply (sround_sign _ _ _ S). lia.
  - destruct y as [s|s| |s m e]; try discriminate.
    pose proof inf_ord_pos.
    destruct s; [cbn [ord cond_Zopp] in Oy; lia|].
    destruct x as [sx|sx| |sx mx ex]; try discriminate; split; try reflexivity; simpl; lia.
Qed.

Lemma blend_nonneg (c1 c2 da ca : float) :
  wf c1 = true -> fin c1 = true -> 0 < ord c1 ->
  wf c2 = true -> fin c2 = true -> 0 < ord c2 ->
  unit_interval da ->
  wf ca = true -> is_nan ca = false -> 0 <= ord ca ->
  let a := fadd (fmul c1 da) (fmul c2 ca) in
  wf a = true /\ is_nan a = false /\ 0 <= ord a.
Proof.
  intros W1 F1 O1 W2 F2 O2 Ud Wc Nc Oc.
  pose proof (unit_interval_fin da Ud) as Fd. destruct Ud as (Wd & Nd & Ld & Hd).
  destruct (fmul_fin c1 da W1 Wd F1 Fd) as (Wt & Nt & St).
  assert (Ot : 0 <= ord (fmul c1 da)).
  { apply (sround_sign _ _ _ St). apply Z.mul_nonneg_nonneg; lia. }
  assert (Ft : fin (fmul c1 da) = true).
  { apply fin_ord; [assumption..|]. pose proof inf_ord_pos. split; [lia|].
    destruct (fmul_fin c1 f1 W1 eq_refl F1 eq_refl) as (Wu & Nu & _).
    assert (ord (fmul c1 da) <= ord (fmul c1 f1)).
    { apply fmul_le; try reflexivity; try assumption. apply Z.mul_le_mono_nonneg_l; lia. }
    rewrite fmul_one_r in H0 by assumption.
    pose proof (proj1 (fin_ord c1 W1 ltac:(destruct c1; try discriminate; reflexivity)) F1). lia. }
  destruct (fmul_nonneg_any c2 ca W2 F2 O2 Wc Nc Oc) as (Wu & Nu & Ou).
  apply fadd_nonneg_any; assumption.
Qed.

Lemma wf_adaptive_alpha (k : SimpleColorKeyerIop) (pixel key : Color3) :
  wf (variance_ k) = true -> wf_ranges k = true ->
  wf_color pixel = true -> wf_color key = true ->
  let a := calculate_adaptive_alpha k pixel key in
  wf a = true /\ is_nan a = false /\ 0 <= ord a.
Proof.
  intros Wv Wr Wp Wk. unfold calculate_adaptive_alpha.
  pose proof (distance_alpha_unit k pixel key Wv Wr Wp Wk) as Ud.
  destruct (wf_chroma_alpha k pixel key Wv Wp Wk) as (Wc & Nc & Oc).
  destruct (flt f0_5 (key_saturation key));
    apply blend_nonneg; try reflexivity; assumption.
Qed.

(** Property X3.  The raw alpha is a non-negative number for every
    parameter set, whatever its variance (zero, negative, infinite or NaN):
    the Distance and Luma Weighted alphas lie between 0 and 1, because the
    tolerance they divide by is floored at 0.001; the Chroma and Adaptive
    alphas, which divide by the raw variance, are never NaN and never
    negative (they may exceed 1); and so for [calculate_alpha] whatever the
    method selector. *)
Theorem raw_alpha_for_any_variance (k : SimpleColorKeyerIop) (pixel key : Color3) :
  wf_iop k = true -> wf_color pixel = true -> wf_color key = true ->
  (fle f0 (calculate_distance_alpha k pixel key) = true /\
   fle (calculate_distance_alpha k pixel key) f1 = true) /\
  (fle f0 (calculate_luma_weighted_alpha k pixel key) = true /\
   fle (calculate_luma_weighted_alpha k pixel key) f1 = true) /\
  fle f0 (calculate_chroma_alpha k pixel key) = true /\
  fle f0 (calculate_adaptive_alpha k pixel key) = true /\
  fle f0 (calculate_alpha k pixel key) = true.
Proof.
  intros Wk Wp Wkey. apply wf_iop_inv in Wk. destruct Wk as (_ & Wv & Wr & _).
  pose proof (unit_interval_fle _ (distance_alpha_unit k pixel key Wv Wr Wp Wkey)) as U0.
  pose proof (unit_interval_fle _ (luma_weighted_alpha_unit k pixel key Wv Wr Wp Wkey)) as U2.
  destruct (wf_chroma_alpha k pixel key Wv Wp Wkey) as (W1 & N1 & O1).
  destruct (wf_adaptive_alpha k pixel key Wv Wr Wp Wkey) as (W3 & N3 & O3).
  pose proof (nonneg_fle _ W1 N1 O1) as U1. pose proof (nonneg_fle _ W3 N3 O3) as U3.
  split; [exact U0|]. split; [exact U2|]. split; [exact U1|]. split; [exact U3|].
  unfold calculate_alpha.
  destruct (keying_method_ k) as [|[[[]|[]|]|[[]|[]|]|]|];
    first [exact U1 | exact U3 | apply U0 | apply U2 | reflexivity].
Qed.

(** X3 at the variance -0.0 and the Adaptive method. *)
Lemma raw_alpha_for_any_variance_witness :
  wf_iop (with_variance iop_adaptive (S754_zero true)) = true /\
  fle f0 (calculate_adaptive_alpha (with_variance iop_adaptive (S754_zero true))
            (mkColor3 f0_1 f0_9 f0_1) (mkColor3 f0 f1 f0)) = true.
Proof.
  split; [reflexivity|].
  exact (proj1 (proj2 (proj2 (proj2
    (raw_alpha_for_any_variance (with_variance iop_adaptive (S754_zero true))
       (mkColor3 f0_1 f0_9 f0_1) (mkColor3 f0 f1 f0) eq_refl eq_refl eq_refl))))).
Defined.

(** ** The Chroma method without a usable variance *)

Lemma quotient_by_zero_alpha (d : float) :
  wf d = true -> 0 <= ord d -> fmax f0 (fsub f1 (fdiv d f0)) = f0.
Proof.
  intros W H. pose proof inf_ord_pos.
  destruct d as [s|s| |s m e]; try (destruct s; reflexivity); try reflexivity.
  - destruct s; [cbn [ord cond_Zopp] in H; lia|reflexivity].
  - destruct s; [|reflexivity].
    pose proof (ord_finite_bounds true m e W). cbn [ord cond_Zopp] in H. lia.
Qed.

Lemma quotient_by_negative_zero_alpha (d : float) :
  fmax f0 (fsub f1 (fdiv d (S754_zero true)))
  = if flt f0 d then S754_infinity false else f0.
Proof. destruct d as [s|s| |s m e]; try reflexivity; destruct s; reflexivity. Qed.

(** Property X4.  The Chroma method with a zero or NaN variance.  With
    a variance of +0.0 or NaN it keys nothing: its alpha is 0.0 for every
    pixel and key colour, the key colour itself included (the quotient is
    plus infinity or NaN, and [std::max(0.0f, ...)] of minus infinity or NaN
    is 0.0).  With a variance of -0.0, which compares equal to 0.0, the
    quotient of a positive chroma distance is minus infinity and the alpha is
    plus infinity; it is 0.0 only where the chroma distance is 0 or NaN. *)
Theorem chroma_alpha_without_variance (k : SimpleColorKeyerIop) (pixel key : Color3) :
  wf_color pixel = true -> wf_color key = true ->
  (variance_ k = S754_zero false \/ variance_ k = S754_nan ->
   calculate_chroma_alpha k pixel key = f0) /\
  (variance_ k = S754_zero true ->
   calculate_chroma_alpha k pixel key
   = if flt f0 (chroma_distance pixel key) then S754_infinity false else f0).
Proof.
  intros Wp Wk. destruct (wf_chroma_distance pixel key Wp Wk) as (Wd & Od).
  split.
  - intros [E|E]; unfold calculate_chroma_alpha; rewrite E.
    + apply quotient_by_zero_alpha; assumption.
    + repeat nan_simpl. reflexivity.
  - intros E. unfold calculate_chroma_alpha. rewrite E.
    apply quotient_by_negative_zero_alpha.
Qed.

(** X4 at the default parameters with variance +0.0 and -0.0. *)
Lemma chroma_alpha_without_variance_witness :
  wf_color (mkColor3 f0_1 f0_9 f0_1) = true /\
  variance_ (with_variance default_iop (S754_zero false)) = S754_zero false /\
  calculate_chroma_alpha (with_variance default_iop (S754_zero false))
    (mkColor3 f0_1 f0_9 f0_1) (mkColor3 f0 f1 f0) = f0 /\
  calculate_chroma_alpha (with_variance default_iop (S754_zero true))
    (mkColor3 f0_1 f0_9 f0_1) (mkColor3 f0 f1 f0) = S754_infinity false /\
  calculate_chroma_alpha (with_variance default_iop (S754_zero true))
    (mkColor3 f0 f1 f0) (mkColor3 f0 f1 f0) = f0.
Proof.
  split; [reflexivity|]. split; [reflexivity|]. split; [|split].
  - exact (proj1 (chroma_alpha_without_variance (with_variance default_iop (S754_zero false))
                    (mkColor3 f0_1 f0_9 f0_1) (mkColor3 f0 f1 f0) eq_refl eq_refl)
                 (or_introl eq_refl)).
  - exact (proj2 (chroma_alpha_without_variance (with_variance default_iop (S754_zero true))
                    (mkColor3 f0_1 f0_9 f0_1) (mkColor3 f0 f1 f0) eq_refl eq_refl)
                 eq_refl).
  - exact (proj2 (chroma_alpha_without_variance (with_variance default_iop (S754_zero true))
                    (mkColor3 f0 f1 f0) (mkColor3 f0 f1 f0) eq_refl eq_refl)
                 eq_refl).
Defined.

(** ** Luma weighting *)

(** Property X5.  Luma weighting never raises the alpha: for every
    parameter set, pixel and key colour the Luma Weighted alpha is at most
    the Distance alpha of the same inputs; the two are equal when pixel and
    key colour have the same finite luma. *)
Theorem luma_weighting_never_raises_alpha (k : SimpleColorKeyerIop) (pixel key : Color3) :
  wf (variance_ k) = true -> wf_ranges k = true ->
  wf_color pixel = true -> wf_color key = true ->
  fle (calculate_luma_weighted_alpha k pixel key) (calculate_distance_alpha k pixel key) = true /\
  (luma pixel = luma key -> fin (luma key) = true ->
   calculate_luma_weighted_alpha k pixel key = calculate_distance_alpha k pixel key).
Proof.
  intros Wv Wr Wp Wk.
  pose proof (distance_alpha_unit k pixel key Wv Wr Wp Wk) as Ud.
  pose proof (luma_weight_unit pixel key Wp Wk) as Uw.
  pose proof (luma_weighted_alpha_unit k pixel key Wv Wr Wp Wk) as (Wl & Nl & _).
  pose proof (unit_interval_fin _ Ud) as Fd. pose proof (unit_interval_fin _ Uw) as Fw.
  destruct Ud as (Wd & Nd & Ld & Hd). destruct Uw as (Ww & Nw & Lw & Hw).
  split.
  - rewrite fle_ord by assumption. apply Z.leb_le.
    unfold calculate_luma_weighted_alpha.
    rewrite <- (fmul_one_r (calculate_distance_alpha k pixel key) Wd) at 2.
    apply fmul_le; try reflexivity; try assumption.
    apply Z.mul_le_mono_nonneg_l; assumption.
  - intros E F. unfold calculate_luma_weighted_alpha, luma_weight. rewrite E.
    rewrite fsub_self by (try apply wf_luma; assumption).
    change (fsub f1 (fmin f1 (fdiv (fabs f0) f0_5))) with f1.
    apply fmul_one_r. exact Wd.
Qed.

(** X5 at the default parameters and the pixel (0.1, 0.9, 0.1). *)
Lemma luma_weighting_never_raises_alpha_witness :
  wf_ranges default_iop = true /\
  fle (calculate_luma_weighted_alpha default_iop (mkColor3 f0_1 f0_9 f0_1) (mkColor3 f0 f1 f0))
      (calculate_distance_alpha default_iop (mkColor3 f0_1 f0_9 f0_1) (mkColor3 f0 f1 f0)) = true.
Proof.
  split; [reflexivity|].
  exact (proj1 (luma_weighting_never_raises_alpha default_iop (mkColor3 f0_1 f0_9 f0_1)
                  (mkColor3 f0 f1 f0) eq_refl eq_refl eq_refl eq_refl)).
Defined.

(** ** The sign bit of the raw alpha, and the gain 1 *)

Lemma fsign_fmax0 (y : float) : wf y = true -> fsign (fmax f0 y) = false.
Proof.
  intros W. unfold fmax. destruct (flt f0 y) eqn:Hlt; [|reflexivity].
  destruct (flt_pos_ord y W Hlt) as (N & H). pose proof inf_ord_pos.
  destruct y as [s|s| |s m e]; try reflexivity.
  - cbn [ord] in H. lia.
  - destruct s; [cbn [ord cond_Zopp] in H; lia|reflexivity].
  - destruct s; [|reflexivity].
    pose proof (ord_finite_bounds true m e W). cbn [ord cond_Zopp] in H. lia.
Qed.

Lemma fsign_fmul (x y : float) :
  wf x = true -> wf y = true -> fin x = true -> fin y = true ->
  fsign (fmul x y) = xorb (fsign x) (fsign y).
Proof.
  intros Wx Wy Fx Fy.
  destruct x as [sx|sx| |sx mx ex]; try discriminate;
  destruct y as [sy|sy| |sy my ey]; try discriminate; try reflexivity.
  apply (fmul_finite sx sy mx my ex ey Wx Wy).
Qed.

Lemma fsign_fadd (x y : float) :
  wf x = true -> wf y = true -> fin x = true -> fin y = true ->
  fsign x = false -> fsign y = false -> fsign (fadd x y) = false.
Proof.
  intros Wx Wy Fx Fy Sx Sy.
  destruct x as [sx|sx| |sx mx ex]; try discriminate;
  destruct y as [sy|sy| |sy my ey]; try discriminate; cbn [fsign] in Sx, Sy; subst;
    try reflexivity.
  destruct (fadd_finite false false mx my ex ey Wx Wy) as [_ Hn].
  pose proof (ord_finite_bounds false mx ex Wx) as Bx.
  pose proof (ord_finite_bounds false my ey Wy) as By.
  cbn [ord cond_Zopp] in Hn.
  destruct (Hn ltac:(lia)) as (_ & _ & S & _). rewrite S.
  apply Z.ltb_ge. lia.
Qed.

Lemma fsign_one_minus (m : float) : unit_interval m -> fsign (fsub f1 m) = false.
Proof.
  intros U. pose proof (unit_interval_fin m U) as F. destruct U as (W & N & Hl & Hu).
  destruct m as [s|s| |s m e]; try discriminate.
  - destruct s; reflexivity.
  - destruct (fsub_finite false s 8388608 m (-23) e eq_refl W) as [H0 Hn].
    fold f1 in H0, Hn.
    destruct (Z.eq_dec (ord f1 - ord (S754_finite s m e)) 0) as [Hz|Hz].
    + rewrite (H0 Hz). reflexivity.
    + destruct (Hn Hz) as (_ & _ & S & _). rewrite S. apply Z.ltb_ge. lia.
Qed.

Lemma fsign_luma_weight (pixel key : Color3) :
  wf_color pixel = true -> wf_color key = true -> fsign (luma_weight pixel key) = false.
Proof.
  intros Wp Wk. unfold luma_weight.
  destruct (wf_fabs (fsub (luma pixel) (luma key))) as (Wd & Od).
  { apply wf_fsub; apply wf_luma; assumption. }
  destruct (fdiv_sign _ f0_5 Wd eq_refl Od eq_refl ltac:(reflexivity)) as (Wq & Oq).
  apply fsign_one_minus. apply fmin1_unit; assumption.
Qed.

(** A raw alpha between 0 and 1 passes the clamp unchanged. *)
Lemma clamp_id (a : float) :
  unit_interval a -> fsign a = false -> fmax f0 (fmin f1 a) = a.
Proof.
  intros (W & N & Hl & Hu) S.
  assert (E1 : fmin f1 a = a).
  { unfold fmin. destruct (flt a f1) eqn:Hlt; [reflexivity|].
    pose proof (flt_false_ord a f1 W eq_refl N eq_refl Hlt) as Hge.
    symmetry. apply (eqz_finite a false 8388608 (-23)).
    apply ord_inj; try assumption; try reflexivity. fold f1. lia. }
  rewrite E1. unfold fmax. destruct (flt f0 a) eqn:Hlt; [reflexivity|].
  pose proof (flt_false_ord f0 a eq_refl W eq_refl N Hlt) as Hle. change (ord f0) with 0 in Hle.
  destruct a as [s|s| |s m e]; try discriminate.
  - cbn [fsign] in S. subst s. reflexivity.
  - pose proof inf_ord_pos. destruct s; cbn [ord cond_Zopp] in Hl, Hle; lia.
  - pose proof (ord_finite_bounds s m e W). destruct s; cbn [ord cond_Zopp] in Hl, Hle; lia.
Qed.

Lemma gain_one_id (k : SimpleColorKeyerIop) (a : float) :
  gain_ k = f1 -> invert_ k = false ->
  unit_interval a -> fsign a = false -> post_process k a = a.
Proof.
  intros Hg Hi U S. unfold post_process. rewrite Hg, Hi.
  rewrite fmul_one_r by apply U. apply clamp_id; assumption.
Qed.

Lemma fsign_luma_weighted_alpha (k : SimpleColorKeyerIop) (pixel key : Color3) :
  wf (variance_ k) = true -> wf_ranges k = true ->
  wf_color pixel = true -> wf_color key = true ->
  fsign (calculate_luma_weighted_alpha k pixel key) = false.
Proof.
  intros Wv Wr Wp Wk. unfold calculate_luma_weighted_alpha.
  pose proof (distance_alpha_unit k pixel key Wv Wr Wp Wk) as Ud.
  pose proof (luma_weight_unit pixel key Wp Wk) as Uw.
  rewrite fsign_fmul; try apply Ud; try apply Uw; try (apply unit_interval_fin; assumption).
  rewrite (fsign_luma_weight pixel key Wp Wk).
  unfold calculate_distance_alpha. rewrite fsign_fmax0; [reflexivity|].
  destruct (wf_distance_to pixel key Wp Wk) as (Wd & _).
  destruct (effective_tolerance_pos k pixel Wv Wr Wp) as (We & _).
  auto with wf.
Qed.

Lemma fsign_blend (c1 c2 da ca : float) :
  wf c1 = true -> fin c1 = true -> fsign c1 = false ->
  wf c2 = true -> fin c2 = true -> fsign c2 = false ->
  fin (fmul c1 da) = true -> fin (fmul c2 ca) = true ->
  unit_interval da -> fsign da = false -> unit_interval ca -> fsign ca = false ->
  fsign (fadd (fmul c1 da) (fmul c2 ca)) = false.
Proof.
  intros W1 F1 S1 W2 F2 S2 G1 G2 Ud Sd Uc Sc.
  pose proof (unit_interval_fin da Ud) as Fd. pose proof (unit_interval_fin ca Uc) as Fc.
  destruct Ud as (Wd & _). destruct Uc as (Wc & _).
  apply fsign_fadd; auto with wf.
  - rewrite fsign_fmul by assumption. rewrite S1, Sd. reflexivity.
  - rewrite fsign_fmul by assumption. rewrite S2, Sc. reflexivity.
Qed.

Lemma fin_fmul_unit (c a : float) :
  wf c = true -> fin c = true -> 0 <= ord c -> unit_interval a -> fin (fmul c a) = true.
Proof.
  intros Wc Fc Oc Ua. pose proof (unit_interval_fin a Ua) as Fa.
  destruct Ua as (Wa & Na & La & Ha).
  destruct (fmul_fin c a Wc Wa Fc Fa) as (Wt & Nt & St).
  apply fin_ord; [assumption..|]. pose proof inf_ord_pos. split.
  - pose proof (proj1 (sround_sign _ _ _ St) ltac:(apply Z.mul_nonneg_nonneg; lia)). lia.
  - assert (ord (fmul c a) <= ord (fmul c f1)).
    { apply fmul_le; try reflexivity; try assumption. apply Z.mul_le_mono_nonneg_l; lia. }
    rewrite fmul_one_r in H0 by assumption.
    pose proof (proj1 (fin_ord c Wc (fin_not_nan c Fc)) Fc). lia.
Qed.

Lemma fsign_distance_alpha (k : SimpleColorKeyerIop) (pixel key : Color3) :
  wf (variance_ k) = true -> wf_ranges k = true ->
  wf_color pixel = true -> wf_color key = true ->
  fsign (calculate_distance_alpha k pixel key) = false.
Proof.
  intros Wv Wr Wp Wk. unfold calculate_distance_alpha. apply fsign_fmax0.
  destruct (wf_distance_to pixel key Wp Wk) as (Wd & _).
  destruct (effective_tolerance_pos k pixel Wv Wr Wp) as (We & _).
  auto with wf.
Qed.

Lemma fsign_chroma_alpha (k : SimpleColorKeyerIop) (pixel key : Color3) :
  wf (variance_ k) = true -> wf_color pixel = true -> wf_color key = true ->
  fsign (calculate_chroma_alpha k pixel key) = false.
Proof.
  intros Wv Wp Wk. unfold calculate_chroma_alpha. apply fsign_fmax0.
  destruct (wf_chroma_distance pixel key Wp Wk) as (Wd & _). auto with wf.
Qed.

Lemma fsign_adaptive_alpha (k : SimpleColorKeyerIop) (pixel key : Color3) :
  wf (variance_ k) = true -> flt f0 (variance_ k) = true -> wf_ranges k = true ->
  wf_color pixel = true -> wf_color key = true ->
  fsign (calculate_adaptive_alpha k pixel key) = false.
Proof.
  intros Wv Pv Wr Wp Wk. unfold calculate_adaptive_alpha.
  pose proof (distance_alpha_unit k pixel key Wv Wr Wp Wk) as Ud.
  pose proof (chroma_alpha_unit k pixel key Wv Pv Wp Wk) as Uc.
  pose proof (fsign_distance_alpha k pixel key Wv Wr Wp Wk) as Sd.
  pose proof (fsign_chroma_alpha k pixel key Wv Wp Wk) as Sc.
  destruct (flt f0_5 (key_saturation key));
    apply fsign_blend; try reflexivity; try assumption;
    apply fin_fmul_unit; try reflexivity; try assumption; simpl; lia.
Qed.

Lemma raw_alpha_plain (k : SimpleColorKeyerIop) (pixel key : Color3) :
  wf_iop k = true -> wf_color pixel = true -> wf_color key = true ->
  flt f0 (variance_ k) = true ->
  unit_interval (calculate_alpha k pixel key) /\ fsign (calculate_alpha k pixel key) = false.
Proof.
  intros Wk Wp Wkey Pv. apply wf_iop_inv in Wk. destruct Wk as (_ & Wv & Wr & _).
  unfold calculate_alpha.
  destruct (keying_method_ k) as [|[[[]|[]|]|[[]|[]|]|]|];
    try (split; [repeat split; simpl; lia|reflexivity]).
  all: split;
    first [ apply adaptive_alpha_unit; assumption | apply luma_weighted_alpha_unit; assumption
          | apply chroma_alpha_unit; assumption | apply distance_alpha_unit; assumption
          | apply fsign_adaptive_alpha; assumption | apply fsign_luma_weighted_alpha; assumption
          | apply fsign_chroma_alpha; assumption | apply fsign_distance_alpha; assumption ].
Qed.

(** Property X6.  With gain 1.0 and no inversion (the values the
    constructor sets) and a positive variance, gain and clamp change
    nothing: the alpha [engine] writes for a pixel is exactly the raw alpha
    [calculate_alpha] returns for it, for every method selector. *)
Theorem unit_gain_writes_the_raw_alpha (k : SimpleColorKeyerIop) (pixel : Color3) :
  wf_iop k = true -> wf_color pixel = true -> flt f0 (variance_ k) = true ->
  gain_ k = f1 -> invert_ k = false ->
  engine_alpha k pixel = calculate_alpha k pixel (key_color_ k).
Proof.
  intros Wk Wp Pv Hg Hi. unfold engine_alpha.
  pose proof (proj1 (wf_iop_inv k Wk)) as Wkey.
  destruct (raw_alpha_plain k pixel (key_color_ k) Wk Wp Wkey Pv) as (U & S).
  apply gain_one_id; assumption.
Qed.

(** X6 at the default parameters with a yellow bias. *)
Lemma unit_gain_writes_the_raw_alpha_witness :
  wf_iop iop_yellow_bias = true /\ gain_ iop_yellow_bias = f1 /\
  engine_alpha iop_yellow_bias (mkColor3 f0_5 f0_9 f0_1)
  = calculate_alpha iop_yellow_bias (mkColor3 f0_5 f0_9 f0_1) (mkColor3 f0 f1 f0).
Proof.
  split; [reflexivity|]. split; [reflexivity|].
  exact (unit_gain_writes_the_raw_alpha iop_yellow_bias (mkColor3 f0_5 f0_9 f0_1)
           eq_refl eq_refl eq_refl eq_refl eq_refl).
Defined.

(** Property X7.  A node left as the constructor sets it (key colour pure
    green, variance 0.3, all ranges 0, gain 1, no inversion, Distance
    method) writes for every pixel the alpha
    [max(0, 1 - distance_to(pixel, (0,1,0)) / 0.3)]. *)
Theorem default_node_alpha (pixel : Color3) :
  wf_color pixel = true ->
  engine_alpha default_iop pixel
  = fmax f0 (fsub f1 (fdiv (distance_to pixel (mkColor3 f0 f1 f0)) f0_3)).
Proof.
  intros Wp. unfold engine_alpha.
  destruct (raw_alpha_plain default_iop pixel (key_color_ default_iop) eq_refl Wp eq_refl eq_refl)
    as (U & S).
  rewrite gain_one_id by (assumption || reflexivity). reflexivity.
Qed.

(** X7 at the pixel (0.1, 0.9, 0.1). *)
Lemma default_node_alpha_witness :
  wf_color (mkColor3 f0_1 f0_9 f0_1) = true /\
  engine_alpha default_iop (mkColor3 f0_1 f0_9 f0_1)
  = fmax f0 (fsub f1 (fdiv (distance_to (mkColor3 f0_1 f0_9 f0_1) (mkColor3 f0 f1 f0)) f0_3)).
Proof.
  split; [reflexivity|].
  exact (default_node_alpha (mkColor3 f0_1 f0_9 f0_1) eq_refl).
Defined.

(** ** The alpha against distance and tolerance *)

Lemma fmax0_ord (y : float) :
  wf y = true -> is_nan y = false -> ord (fmax f0 y) = Z.max 0 (ord y).
Proof.
  intros W N. unfold fmax. rewrite flt_ord by (assumption || reflexivity).
  change (ord f0) with 0. destruct (Z.ltb_spec 0 (ord y)); [lia|simpl; lia].
Qed.

Lemma fmin1_ord (x : float) :
  wf x = true -> is_nan x = false -> ord (fmin f1 x) = Z.min (ord f1) (ord x).
Proof.
  intros W N. unfold fmin. rewrite flt_ord by (assumption || reflexivity).
  destruct (Z.ltb_spec (ord x) (ord f1)); lia.
Qed.

(** For a fixed tolerance, a larger distance never gives a larger alpha. *)
Lemma quotient_alpha_anti (d1 d2 e : float) :
  wf d1 = true -> is_nan d1 = false -> 0 <= ord d1 ->
  wf d2 = true -> is_nan d2 = false -> ord d1 <= ord d2 ->
  wf e = true -> is_nan e = false -> 0 < ord e ->
  ord (fmax f0 (fsub f1 (fdiv d2 e))) <= ord (fmax f0 (fsub f1 (fdiv d1 e))).
Proof.
  intros W1 N1 O1 W2 N2 Hle We Ne Pe.
  pose proof inf_ord_pos as Hinf.
  assert (A1 : 0 <= ord (fmax f0 (fsub f1 (fdiv d1 e)))).
  { apply alpha_of_quotient; apply fdiv_sign; assumption. }
  destruct (fin d2) eqn:F2.
  - assert (F1 : fin d1 = true).
    { apply fin_ord; try assumption. pose proof (proj1 (fin_ord d2 W2 N2) F2). lia. }
    destruct (positive_cases e We Ne Pe) as [E|(m & x & E)].
    + subst e.
      destruct d1 as [s1|s1| |s1 m1 e1]; try discriminate;
      destruct d2 as [s2|s2| |s2 m2 e2]; try discriminate;
        destruct s1, s2; simpl; lia.
    + assert (Fe : fin e = true) by (subst; reflexivity).
      destruct (fdiv_sign d1 e W1 We O1 Ne Pe) as (Wq1 & Oq1).
      destruct (fdiv_sign d2 e W2 We ltac:(lia) Ne Pe) as (Wq2 & Oq2).
      assert (Nq1 : is_nan (fdiv d1 e) = false).
      { rewrite E. apply (fdiv_fin d1 false m x); [assumption|rewrite <- E; assumption|assumption]. }
      assert (Nq2 : is_nan (fdiv d2 e) = false).
      { rewrite E. apply (fdiv_fin d2 false m x); [assumption|rewrite <- E; assumption|assumption]. }
      assert (Hq : ord (fdiv d1 e) <= ord (fdiv d2 e)).
      { apply fdiv_le; try assumption. apply Z.mul_le_mono_nonneg_r; lia. }
      set (q1 := fdiv d1 e) in *. set (q2 := fdiv d2 e) in *.
      destruct (fin q2) eqn:Fq2.
      * assert (Fq1 : fin q1 = true).
        { apply fin_ord; try assumption. pose proof (proj1 (fin_ord q2 Wq2 Nq2) Fq2). lia. }
        destruct (fsub_fin f1 q1 eq_refl Wq1 eq_refl Fq1) as (Wy1 & Ny1 & _).
        destruct (fsub_fin f1 q2 eq_refl Wq2 eq_refl Fq2) as (Wy2 & Ny2 & _).
        apply fmax0_mono; try assumption.
        apply fsub_le; try reflexivity; try assumption. lia.
      * assert (Eq2 : q2 = S754_infinity false).
        { destruct q2 as [s|[]| |s m' e']; try discriminate; [|reflexivity].
          cbn [ord cond_Zopp] in Oq2. lia. }
        rewrite Eq2. change (fmax f0 (fsub f1 (S754_infinity false))) with f0. exact A1.
  - assert (E2 : d2 = S754_infinity false).
    { destruct d2 as [s|[]| |s m' e']; try discriminate; [|reflexivity].
      cbn [ord cond_Zopp] in Hle. lia. }
    subst d2.
    replace (fmax f0 (fsub f1 (fdiv (S754_infinity false) e))) with f0; [exact A1|].
    destruct (positive_cases e We Ne Pe) as [->|(m & x & ->)]; reflexivity.
Qed.

(** Property X8.  Distance method: of two pixels, the one that is at least
    as close to the key colour and has at least as large a tolerance gets at
    least as large an alpha. *)
Theorem distance_alpha_monotone (k : SimpleColorKeyerIop) (p1 p2 key : Color3) :
  wf (variance_ k) = true -> wf_ranges k = true ->
  wf_color p1 = true -> wf_color p2 = true -> wf_color key = true ->
  fle (distance_to p1 key) (distance_to p2 key) = true ->
  fle (effective_tolerance k p2) (effective_tolerance k p1) = true ->
  fle (calculate_distance_alpha k p2 key) (calculate_distance_alpha k p1 key) = true.
Proof.
  intros Wv Wr W1 W2 Wk Hd He.
  pose proof (distance_alpha_unit k p1 key Wv Wr W1 Wk) as (Wa1 & Na1 & _).
  pose proof (distance_alpha_unit k p2 key Wv Wr W2 Wk) as (Wa2 & Na2 & _).
  rewrite fle_ord by assumption. apply Z.leb_le.
  unfold calculate_distance_alpha.
  destruct (wf_distance_to p1 key W1 Wk) as (Wd1 & Od1).
  destruct (wf_distance_to p2 key W2 Wk) as (Wd2 & Od2).
  destruct (effective_tolerance_pos k p1 Wv Wr W1) as (We1 & Ne1 & Oe1).
  destruct (effective_tolerance_pos k p2 Wv Wr W2) as (We2 & Ne2 & Oe2).
  change (ord f0_001) with (8589935 * 2 ^ 116) in Oe1, Oe2.
  destruct (fle_true_ord _ _ Wd1 Wd2 Hd) as (Nd1 & Nd2 & Hdo).
  destruct (fle_true_ord _ _ We2 We1 He) as (_ & _ & Heo).
  transitivity (ord (fmax f0 (fsub f1 (fdiv (distance_to p1 key) (effective_tolerance k p2))))).
  - apply quotient_alpha_anti; try assumption; lia.
  - apply quotient_alpha_mono; try assumption; lia.
Qed.

(** X8 at the pixels (0, 0.9, 0) and (0.1, 0.9, 0.1). *)
Lemma distance_alpha_monotone_witness :
  fle (distance_to (mkColor3 f0 f0_9 f0) (mkColor3 f0 f1 f0))
      (distance_to (mkColor3 f0_1 f0_9 f0_1) (mkColor3 f0 f1 f0)) = true /\
  fle (effective_tolerance default_iop (mkColor3 f0_1 f0_9 f0_1))
      (effective_tolerance default_iop (mkColor3 f0 f0_9 f0)) = true /\
  fle (calculate_distance_alpha default_iop (mkColor3 f0_1 f0_9 f0_1) (mkColor3 f0 f1 f0))
      (calculate_distance_alpha default_iop (mkColor3 f0 f0_9 f0) (mkColor3 f0 f1 f0)) = true.
Proof.
  split; [reflexivity|]. split; [reflexivity|].
  exact (distance_alpha_monotone default_iop (mkColor3 f0 f0_9 f0) (mkColor3 f0_1 f0_9 f0_1)
           (mkColor3 f0 f1 f0) eq_refl eq_refl eq_refl eq_refl eq_refl eq_refl eq_refl).
Defined.

(** ** The final alpha against raw alpha and gain *)

Lemma clamp_mono (x y : float) :
  wf x = true -> wf y = true -> is_nan x = false -> is_nan y = false ->
  ord x <= ord y ->
  ord (fmax f0 (fmin f1 x)) <= ord (fmax f0 (fmin f1 y)).
Proof.
  intros Wx Wy Nx Ny H.
  assert (Nmx : is_nan (fmin f1 x) = false) by (unfold fmin; destruct (flt x f1); auto).
  assert (Nmy : is_nan (fmin f1 y) = false) by (unfold fmin; destruct (flt y f1); auto).
  rewrite !fmax0_ord, !fmin1_ord by auto with wf. lia.
Qed.

Lemma post_process_mono (k1 k2 : SimpleColorKeyerIop) (a1 a2 : float) :
  invert_ k1 = invert_ k2 ->
  wf a1 = true -> wf a2 = true -> fin a1 = true -> fin a2 = true ->
  wf (gain_ k1) = true -> wf (gain_ k2) = true ->
  fin (gain_ k1) = true -> fin (gain_ k2) = true ->
  ord a1 * ord (gain_ k1) <= ord a2 * ord (gain_ k2) ->
  if invert_ k1
  then fle (post_process k2 a2) (post_process k1 a1) = true
  else fle (post_process k1 a1) (post_process k2 a2) = true.
Proof.
  intros Hi W1 W2 F1 F2 Wg1 Wg2 Fg1 Fg2 H.
  pose proof (post_process_unit k1 a1 W1 Wg1) as (Wp1 & Np1 & _).
  pose proof (post_process_unit k2 a2 W2 Wg2) as (Wp2 & Np2 & _).
  destruct (fmul_fin a1 (gain_ k1) W1 Wg1 F1 Fg1) as (Wm1 & Nm1 & _).
  destruct (fmul_fin a2 (gain_ k2) W2 Wg2 F2 Fg2) as (Wm2 & Nm2 & _).
  assert (Hm : ord (fmul a1 (gain_ k1)) <= ord (fmul a2 (gain_ k2)))
    by (apply fmul_le; assumption).
  pose proof (clamp_mono _ _ Wm1 Wm2 Nm1 Nm2 Hm) as Hc.
  pose proof (clamp_unit _ Wm1) as U1. pose proof (clamp_unit _ Wm2) as U2.
  unfold post_process in *. rewrite <- Hi in *. destruct (invert_ k1).
  - rewrite fle_ord by assumption. apply Z.leb_le.
    apply fsub_le; try reflexivity; try apply U1; try apply U2;
      try (apply unit_interval_fin; assumption). lia.
  - rewrite fle_ord by assumption. apply Z.leb_le. exact Hc.
Qed.

(** Property X9.  Post-processing is monotone: for raw alphas
    [0 <= a1 <= a2] and gains [0 <= g1 <= g2] (finite numbers) the final
    alpha of [a1] under gain [g1] is at most that of [a2] under gain [g2]
    when [invert] is off, and at least that when [invert] is set. *)
Theorem final_alpha_monotone (k : SimpleColorKeyerIop) (g1 g2 a1 a2 : float) :
  wf a1 = true -> wf a2 = true -> fin a2 = true ->
  wf g1 = true -> wf g2 = true -> fin g2 = true ->
  fle f0 a1 = true -> fle a1 a2 = true ->
  fle f0 g1 = true -> fle g1 g2 = true ->
  if invert_ k
  then fle (post_process (with_gain k g2) a2) (post_process (with_gain k g1) a1) = true
  else fle (post_process (with_gain k g1) a1) (post_process (with_gain k g2) a2) = true.
Proof.
  intros Wa1 Wa2 Fa2 Wg1 Wg2 Fg2 La1 La Lg1 Lg.
  destruct (fle_true_ord f0 a1 eq_refl Wa1 La1) as (_ & Na1 & Oa1).
  destruct (fle_true_ord _ _ Wa1 Wa2 La) as (_ & Na2 & Oa).
  destruct (fle_true_ord f0 g1 eq_refl Wg1 Lg1) as (_ & Ng1 & Og1).
  destruct (fle_true_ord _ _ Wg1 Wg2 Lg) as (_ & Ng2 & Og).
  change (ord f0) with 0 in Oa1, Og1.
  pose proof (proj1 (fin_ord a2 Wa2 Na2) Fa2) as Ba2.
  pose proof (proj1 (fin_ord g2 Wg2 Ng2) Fg2) as Bg2.
  assert (Fa1 : fin a1 = true) by (apply fin_ord; try assumption; pose proof inf_ord_pos; lia).
  assert (Fg1 : fin g1 = true) by (apply fin_ord; try assumption; pose proof inf_ord_pos; lia).
  apply (post_process_mono (with_gain k g1) (with_gain k g2) a1 a2); try assumption;
    try reflexivity.
  cbn [gain_ with_gain]. apply Z.mul_le_mono_nonneg; lia.
Qed.

(** X9 at the raw alphas 0.25 and 0.5 and the gains 1 and 2. *)
Lemma final_alpha_monotone_witness :
  fle f0 f0_25 = true /\ fle f0_25 f0_5 = true /\ fle f0 f1 = true /\ fle f1 f2 = true /\
  fle (post_process (with_gain default_iop f1) f0_25)
      (post_process (with_gain default_iop f2) f0_5) = true.
Proof.
  split; [reflexivity|]. split; [reflexivity|]. split; [reflexivity|]. split; [reflexivity|].
  exact (final_alpha_monotone default_iop f1 f2 f0_25 f0_5
           eq_refl eq_refl eq_refl eq_refl eq_refl eq_refl eq_refl eq_refl eq_refl eq_refl).
Defined.

(** Property X10.  A gain of zero or below blanks the matte: for every
    finite non-negative raw alpha and every finite gain [<= 0] the final
    alpha is 0.0, or 1.0 when [invert] is set. *)
Theorem nonpositive_gain_blanks_the_matte (k : SimpleColorKeyerIop) (a : float) :
  wf a = true -> fin a = true -> fle f0 a = true ->
  wf (gain_ k) = true -> fin (gain_ k) = true -> fle (gain_ k) f0 = true ->
  post_process k a = if invert_ k then f1 else f0.
Proof.
  intros Wa Fa La Wg Fg Lg.
  destruct (fle_true_ord f0 a eq_refl Wa La) as (_ & Na & Oa).
  destruct (fle_true_ord (gain_ k) f0 Wg eq_refl Lg) as (Ng & _ & Og).
  change (ord f0) with 0 in Oa, Og.
  destruct (fmul_fin a (gain_ k) Wa Wg Fa Fg) as (Wm & Nm & Sm).
  assert (Om : ord (fmul a (gain_ k)) <= 0).
  { apply (sround_sign _ _ _ Sm). nia. }
  assert (E : fmax f0 (fmin f1 (fmul a (gain_ k))) = f0).
  { set (m := fmul a (gain_ k)) in *.
    assert (E1 : fmin f1 m = m).
    { unfold fmin. rewrite flt_ord by (assumption || reflexivity).
      change (ord f1) with (2 ^ 149).
      destruct (Z.ltb_spec (ord m) (2 ^ 149)); [reflexivity|lia]. }
    rewrite E1. unfold fmax. rewrite flt_ord by (assumption || reflexivity).
    change (ord f0) with 0. destruct (Z.ltb_spec 0 (ord m)); [lia|reflexivity]. }
  unfold post_process. rewrite E. destruct (invert_ k); reflexivity.
Qed.

(** X10 at gain 0 with [invert] set. *)
Lemma nonpositive_gain_blanks_the_matte_witness :
  fle (gain_ iop_no_gain) f0 = true /\ post_process iop_no_gain f0_75 = f1.
Proof.
  split; [reflexivity|].
  exact (nonpositive_gain_blanks_the_matte iop_no_gain f0_75
           eq_refl eq_refl eq_refl eq_refl eq_refl eq_refl).
Defined.

(** ** The six ranges *)

(** Property X11.  Distance method: raising the range of one of the six
    directions never lowers the alpha of a pixel whose match for that
    direction is a finite non-negative number.  For finite ranges
    [rho1 <= rho2] (of any signs) and the other parameters fixed, the alpha
    computed with [rho2] is at least the alpha computed with [rho1]. *)
Theorem raising_a_range_never_lowers_alpha
  (k : SimpleColorKeyerIop) (d : direction) (rho1 rho2 : float) (pixel key : Color3) :
  wf (variance_ k) = true -> wf_ranges k = true ->
  wf_color pixel = true -> wf_color key = true ->
  wf rho1 = true -> wf rho2 = true -> fin rho1 = true -> fin rho2 = true ->
  fle rho1 rho2 = true ->
  fin (dir_match pixel d) = true -> fle f0 (dir_match pixel d) = true ->
  fle (calculate_distance_alpha (with_range k d rho1) pixel key)
      (calculate_distance_alpha (with_range k d rho2) pixel key) = true.
Proof.
  intros Wv Wr Wp Wk W1 W2 F1 F2 Hle Fm Hm.
  pose proof (wf_ranges_with_range k d rho1 Wr W1) as Wr1.
  pose proof (wf_ranges_with_range k d rho2 Wr W2) as Wr2.
  assert (Wv1 : wf (variance_ (with_range k d rho1)) = true) by exact Wv.
  assert (Wv2 : wf (variance_ (with_range k d rho2)) = true) by exact Wv.
  pose proof (distance_alpha_unit _ pixel key Wv1 Wr1 Wp Wk) as (Wa1 & Na1 & _).
  pose proof (distance_alpha_unit _ pixel key Wv2 Wr2 Wp Wk) as (Wa2 & Na2 & _).
  rewrite fle_ord by assumption. apply Z.leb_le.
  unfold calculate_distance_alpha.
  destruct (wf_distance_to pixel key Wp Wk) as (Wd & Od).
  destruct (effective_tolerance_pos _ pixel Wv1 Wr1 Wp) as (We1 & Ne1 & Oe1).
  destruct (effective_tolerance_pos _ pixel Wv2 Wr2 Wp) as (We2 & Ne2 & Oe2).
  change (ord f0_001) with (8589935 * 2 ^ 116) in Oe1, Oe2.
  apply quotient_alpha_mono; try assumption; try lia.
  apply tolerance_monotone_in_range; assumption.
Qed.

(** X11 at the yellow range raised from 0 to 3. *)
Lemma raising_a_range_never_lowers_alpha_witness :
  fle f0 f3 = true /\ fle f0 (dir_match (mkColor3 f0_5 f0_9 f0_1) Yellow) = true /\
  fle (calculate_distance_alpha (with_range default_iop Yellow f0)
         (mkColor3 f0_5 f0_9 f0_1) (mkColor3 f0 f1 f0))
      (calculate_distance_alpha (with_range default_iop Yellow f3)
         (mkColor3 f0_5 f0_9 f0_1) (mkColor3 f0 f1 f0)) = true.
Proof.
  split; [reflexivity|]. split; [reflexivity|].
  exact (raising_a_range_never_lowers_alpha default_iop Yellow f0 f3
           (mkColor3 f0_5 f0_9 f0_1) (mkColor3 f0 f1 f0)
           eq_refl eq_refl eq_refl eq_refl eq_refl eq_refl eq_refl eq_refl eq_refl
           eq_refl eq_refl).
Defined.

(** ** [distance_to] is symmetric *)

Lemma sround_opp (N VD o : Z) : sround N VD o -> sround (- N) VD (- o).
Proof.
  intros [[-> ->]|[[HN (v & Hv & ->)]|[HN (v & Hv & ->)]]].
  - left. split; reflexivity.
  - right; right. split; [lia|]. exists v. rewrite Z.opp_involutive. split; [exact Hv|reflexivity].
  - right; left. split; [lia|]. exists v. split; [exact Hv|lia].
Qed.

Lemma ord_opp (u : float) : ord (SFopp u) = - ord u.
Proof. destruct u as [s|s| |s m e]; cbn [SFopp ord]; try reflexivity; destruct s; cbn [negb cond_Zopp]; lia. Qed.

Lemma wf_opp (u : float) : wf (SFopp u) = wf u.
Proof. destruct u; reflexivity. Qed.

Lemma square_opp (u : float) : fmul (SFopp u) (SFopp u) = fmul u u.
Proof. destruct u as [s|s| |s m e]; try reflexivity; destruct s; reflexivity. Qed.

Lemma square_of_opposite (u v : float) :
  wf u = true -> wf v = true -> is_nan u = false -> is_nan v = false ->
  ord v = - ord u -> fmul v v = fmul u u.
Proof.
  intros Wu Wv Nu Nv H.
  assert (E : eqz v (SFopp u)).
  { apply ord_inj; try assumption.
    - rewrite wf_opp. exact Wu.
    - destruct u; try discriminate; reflexivity.
    - rewrite ord_opp. exact H. }
  destruct E as [->|(s & s' & -> & E)]; [apply square_opp|].
  destruct u as [su| | |]; try discriminate. destruct s, su; reflexivity.
Qed.

(** The two differences of a pair of numbers have the same square. *)
Lemma fsub_swap_square (x y : float) :
  wf x = true -> wf y = true ->
  fmul (fsub x y) (fsub x y) = fmul (fsub y x) (fsub y x).
Proof.
  intros Wx Wy.
  destruct (fin x) eqn:Fx; [destruct (fin y) eqn:Fy|].
  - destruct (fsub_fin x y Wx Wy Fx Fy) as (W1 & N1 & S1).
    destruct (fsub_fin y x Wy Wx Fy Fx) as (W2 & N2 & S2).
    symmetry. apply square_of_opposite; try assumption.
    apply sround_opp in S1. replace (- (ord x - ord y)) with (ord y - ord x) in S1 by lia.
    apply (sround_fun _ 1 _ _ ltac:(lia) S2 S1).
  - destruct y as [sy|sy| |sy my ey]; try discriminate;
    destruct x as [sx|sx| |sx mx ex]; try discriminate; try reflexivity;
      destruct sx, sy; reflexivity.
  - destruct x as [sx|sx| |sx mx ex]; try discriminate;
    destruct y as [sy|sy| |sy my ey]; try reflexivity; destruct sx, sy; reflexivity.
Qed.

(** Property X12.  [Color3::distance_to] is symmetric in its two colours,
    and so is the chroma distance of [calculate_chroma_alpha] in pixel and
    key colour; [distance_to] never returns a negative number (it returns
    NaN or a number [>= 0]). *)
Theorem distance_is_symmetric (c o : Color3) :
  wf_color c = true -> wf_color o = true ->
  distance_to c o = distance_to o c /\
  chroma_distance c o = chroma_distance o c /\
  (is_nan (distance_to c o) = true \/ fle f0 (distance_to c o) = true).
Proof.
  intros Wc Wo.
  destruct (wf_distance_to c o Wc Wo) as (Wd & Od).
  apply wf_color_inv in Wc. apply wf_color_inv in Wo.
  destruct Wc as (C1 & C2 & C3). destruct Wo as (O1 & O2 & O3).
  split; [|split].
  - unfold distance_to.
    rewrite (fsub_swap_square (r c) (r o)), (fsub_swap_square (g c) (g o)),
      (fsub_swap_square (b c) (b o)) by assumption.
    reflexivity.
  - unfold chroma_distance.
    rewrite (fsub_swap_square (fsub (r c) (g c)) (fsub (r o) (g o))),
      (fsub_swap_square (fsub (b c) (g c)) (fsub (b o) (g o))) by auto with wf.
    reflexivity.
  - destruct (is_nan (distance_to c o)) eqn:N; [left; reflexivity|right].
    apply nonneg_fle; assumption.
Qed.

(** X12 at the colours (0.1, 0.9, 0.1) and (0, 1, 0). *)
Lemma distance_is_symmetric_witness :
  wf_color (mkColor3 f0_1 f0_9 f0_1) = true /\ wf_color (mkColor3 f0 f1 f0) = true /\
  distance_to (mkColor3 f0_1 f0_9 f0_1) (mkColor3 f0 f1 f0)
  = distance_to (mkColor3 f0 f1 f0) (mkColor3 f0_1 f0_9 f0_1).
Proof.
  split; [reflexivity|]. split; [reflexivity|].
  exact (proj1 (distance_is_symmetric (mkColor3 f0_1 f0_9 f0_1) (mkColor3 f0 f1 f0)
                  eq_refl eq_refl)).
Defined.

Lemma fsub_self_not_fin (x : float) : fin x = false -> fsub x x = S754_nan.
Proof. destruct x as [s|[]| |s m e]; try discriminate; reflexivity. Qed.

(** Property X13.  The distance of a colour to itself is 0.0 when its
    three channels are finite and NaN as soon as one channel is an infinity
    or NaN. *)
Theorem distance_to_itself (c : Color3) :
  wf_color c = true ->
  distance_to c c = if fin_color c then f0 else S754_nan.
Proof.
  intros W. destruct (fin_color c) eqn:F; [apply distance_to_self; assumption|].
  unfold fin_color in F. unfold distance_to.
  destruct (fin (r c)) eqn:F1; [destruct (fin (g c)) eqn:F2; [destruct (fin (b c)) eqn:F3|]|];
    try discriminate.
  - rewrite (fsub_self_not_fin (b c) F3). repeat nan_simpl. reflexivity.
  - rewrite (fsub_self_not_fin (g c) F2). repeat nan_simpl. reflexivity.
  - rewrite (fsub_self_not_fin (r c) F1). repeat nan_simpl. reflexivity.
Qed.

(** X13 at a colour with an infinite red channel. *)
Lemma distance_to_itself_witness :
  wf_color (mkColor3 (S754_infinity false) f0 f0) = true /\
  distance_to (mkColor3 (S754_infinity false) f0 f0) (mkColor3 (S754_infinity false) f0 f0)
  = S754_nan.
Proof.
  split; [reflexivity|].
  exact (distance_to_itself (mkColor3 (S754_infinity false) f0 f0) eq_refl).
Defined.

(** ** The variance and the four methods *)

Lemma distance_alpha_variance_ord
  (k : SimpleColorKeyerIop) (v1 v2 : float) (pixel key : Color3) :
  wf_ranges k = true -> wf_color pixel = true -> wf_color key = true ->
  wf v1 = true -> wf v2 = true -> fle v1 v2 = true ->
  ord (calculate_distance_alpha (with_variance k v1) pixel key)
  <= ord (calculate_distance_alpha (with_variance k v2) pixel key).
Proof.
  intros Wr Wp Wk W1 W2 Hle. unfold calculate_distance_alpha.
  destruct (wf_distance_to pixel key Wp Wk) as (Wd & Od).
  destruct (effective_tolerance_pos (with_variance k v1) pixel W1 Wr Wp) as (We1 & Ne1 & Oe1).
  destruct (effective_tolerance_pos (with_variance k v2) pixel W2 Wr Wp) as (We2 & Ne2 & Oe2).
  change (ord f0_001) with (8589935 * 2 ^ 116) in Oe1, Oe2.
  apply quotient_alpha_mono; try assumption; try lia.
  apply effective_tolerance_mono; assumption.
Qed.

Lemma chroma_alpha_variance_ord
  (k : SimpleColorKeyerIop) (v1 v2 : float) (pixel key : Color3) :
  wf_color pixel = true -> wf_color key = true ->
  wf v1 = true -> wf v2 = true -> flt f0 v1 = true -> fle v1 v2 = true ->
  ord (calculate_chroma_alpha (with_variance k v1) pixel key)
  <= ord (calculate_chroma_alpha (with_variance k v2) pixel key).
Proof.
  intros Wp Wk W1 W2 P1 Hle. unfold calculate_chroma_alpha. cbn [variance_ with_variance].
  destruct (wf_chroma_distance pixel key Wp Wk) as (Wd & Od).
  destruct (flt_pos_ord v1 W1 P1) as (N1 & O1).
  destruct (fle_true_ord v1 v2 W1 W2 Hle) as (_ & N2 & Ho).
  apply quotient_alpha_mono; try assumption; lia.
Qed.

Lemma blend_mono (c1 c2 d1 d2 a1 a2 : float) :
  wf c1 = true -> fin c1 = true -> 0 <= ord c1 ->
  wf c2 = true -> fin c2 = true -> 0 <= ord c2 ->
  unit_interval d1 -> unit_interval d2 -> unit_interval a1 -> unit_interval a2 ->
  ord d1 <= ord d2 -> ord a1 <= ord a2 ->
  ord (fadd (fmul c1 d1) (fmul c2 a1)) <= ord (fadd (fmul c1 d2) (fmul c2 a2)).
Proof.
  intros W1 F1 O1 W2 F2 O2 Ud1 Ud2 Ua1 Ua2 Hd Ha.
  pose proof (fin_fmul_unit c1 d1 W1 F1 O1 Ud1) as G1.
  pose proof (fin_fmul_unit c1 d2 W1 F1 O1 Ud2) as G2.
  pose proof (fin_fmul_unit c2 a1 W2 F2 O2 Ua1) as G3.
  pose proof (fin_fmul_unit c2 a2 W2 F2 O2 Ua2) as G4.
  pose proof (unit_interval_fin _ Ud1). pose proof (unit_interval_fin _ Ud2).
  pose proof (unit_interval_fin _ Ua1). pose proof (unit_interval_fin _ Ua2).
  destruct Ud1 as (Wd1 & _). destruct Ud2 as (Wd2 & _).
  destruct Ua1 as (Wa1 & _). destruct Ua2 as (Wa2 & _).
  apply fadd_le; auto with wf.
  assert (ord (fmul c1 d1) <= ord (fmul c1 d2))
    by (apply fmul_le; try assumption; apply Z.mul_le_mono_nonneg_l; assumption).
  assert (ord (fmul c2 a1) <= ord (fmul c2 a2))
    by (apply fmul_le; try assumption; apply Z.mul_le_mono_nonneg_l; assumption).
  lia.
Qed.

(** A larger positive variance gives each method a larger or equal alpha. *)
Lemma raw_alpha_variance_ord (k : SimpleColorKeyerIop) (v1 v2 : float) (pixel key : Color3) :
  wf_ranges k = true -> wf_color pixel = true -> wf_color key = true ->
  wf v1 = true -> wf v2 = true -> flt f0 v1 = true -> fle v1 v2 = true ->
  unit_interval (calculate_alpha (with_variance k v1) pixel key) /\
  unit_interval (calculate_alpha (with_variance k v2) pixel key) /\
  ord (calculate_alpha (with_variance k v1) pixel key)
  <= ord (calculate_alpha (with_variance k v2) pixel key).
Proof.
  intros Wr Wp Wk W1 W2 P1 Hle.
  destruct (flt_pos_ord v1 W1 P1) as (N1 & O1).
  destruct (fle_true_ord v1 v2 W1 W2 Hle) as (_ & N2 & Ho).
  assert (P2 : flt f0 v2 = true).
  { rewrite flt_ord by (assumption || reflexivity). apply Z.ltb_lt. change (ord f0) with 0. lia. }
  set (k1 := with_variance k v1). set (k2 := with_variance k v2).
  assert (Wr1 : wf_ranges k1 = true) by exact Wr.
  assert (Wr2 : wf_ranges k2 = true) by exact Wr.
  pose proof (distance_alpha_unit k1 pixel key W1 Wr1 Wp Wk) as Ud1.
  pose proof (distance_alpha_unit k2 pixel key W2 Wr2 Wp Wk) as Ud2.
  pose proof (chroma_alpha_unit k1 pixel key W1 P1 Wp Wk) as Uc1.
  pose proof (chroma_alpha_unit k2 pixel key W2 P2 Wp Wk) as Uc2.
  pose proof (luma_weighted_alpha_unit k1 pixel key W1 Wr1 Wp Wk) as Ul1.
  pose proof (luma_weighted_alpha_unit k2 pixel key W2 Wr2 Wp Wk) as Ul2.
  pose proof (adaptive_alpha_unit k1 pixel key W1 P1 Wr1 Wp Wk) as Ua1.
  pose proof (adaptive_alpha_unit k2 pixel key W2 P2 Wr2 Wp Wk) as Ua2.
  pose proof (distance_alpha_variance_ord k v1 v2 pixel key Wr Wp Wk W1 W2 Hle) as Hd.
  pose proof (chroma_alpha_variance_ord k v1 v2 pixel key Wp Wk W1 W2 P1 Hle) as Hc.
  fold k1 k2 in Hd, Hc.
  pose proof (luma_weight_unit pixel key Wp Wk) as Uw.
  assert (Ha : ord (calculate_adaptive_alpha k1 pixel key)
               <= ord (calculate_adaptive_alpha k2 pixel key)).
  { unfold calculate_adaptive_alpha.
    destruct (flt f0_5 (key_saturation key));
      apply blend_mono; try reflexivity; try assumption; simpl; lia. }
  assert (Hl : ord (calculate_luma_weighted_alpha k1 pixel key)
               <= ord (calculate_luma_weighted_alpha k2 pixel key)).
  { unfold calculate_luma_weighted_alpha.
    apply fmul_le; try apply Ud1; try apply Ud2; try apply Uw;
      try (apply unit_interval_fin; assumption).
    apply Z.mul_le_mono_nonneg_r; [apply Uw|exact Hd]. }
  unfold calculate_alpha. change (keying_method_ k1) with (keying_method_ k).
  change (keying_method_ k2) with (keying_method_ k).
  destruct (keying_method_ k) as [|[[[]|[]|]|[[]|[]|]|]|];
    first [ split; [exact Ua1|split; [exact Ua2|exact Ha]]
          | split; [exact Ul1|split; [exact Ul2|exact Hl]]
          | split; [exact Uc1|split; [exact Uc2|exact Hc]]
          | split; [exact Ud1|split; [exact Ud2|exact Hd]]
          | split; [|split]; [repeat split; simpl; lia..|lia] ].
Qed.

(** Property X14.  Every method is monotone in the variance: for
    variances [0 < v1 <= v2] and the other parameters fixed, the raw alpha
    [calculate_alpha] returns with [v2] is at least the one it returns with
    [v1], whatever the method selector; with a finite gain [>= 0] so is the
    alpha [engine] writes, with the order reversed when [invert] is set. *)
Theorem raising_the_variance_never_lowers_alpha
  (k : SimpleColorKeyerIop) (v1 v2 : float) (pixel : Color3) :
  wf_iop k = true -> wf_color pixel = true ->
  wf v1 = true -> wf v2 = true -> flt f0 v1 = true -> fle v1 v2 = true ->
  (forall key, wf_color key = true ->
     fle (calculate_alpha (with_variance k v1) pixel key)
         (calculate_alpha (with_variance k v2) pixel key) = true) /\
  (fin (gain_ k) = true -> fle f0 (gain_ k) = true ->
   if invert_ k
   then fle (engine_alpha (with_variance k v2) pixel)
            (engine_alpha (with_variance k v1) pixel) = true
   else fle (engine_alpha (with_variance k v1) pixel)
            (engine_alpha (with_variance k v2) pixel) = true).
Proof.
  intros Wk Wp W1 W2 P1 Hle. apply wf_iop_inv in Wk. destruct Wk as (Wkey & _ & Wr & Wg).
  split.
  - intros key Wk.
    destruct (raw_alpha_variance_ord k v1 v2 pixel key Wr Wp Wk W1 W2 P1 Hle)
      as ((Wa1 & Na1 & _) & (Wa2 & Na2 & _) & Ho).
    rewrite fle_ord by assumption. apply Z.leb_le. exact Ho.
  - intros Fg Lg.
    destruct (raw_alpha_variance_ord k v1 v2 pixel (key_color_ k) Wr Wp Wkey W1 W2 P1 Hle)
      as (U1 & U2 & Ho).
    destruct (fle_true_ord f0 (gain_ k) eq_refl Wg Lg) as (_ & Ng & Og).
    change (ord f0) with 0 in Og.
    pose proof (unit_interval_fin _ U1) as F1. pose proof (unit_interval_fin _ U2) as F2.
    destruct U1 as (Wa1 & _). destruct U2 as (Wa2 & _).
    unfold engine_alpha.
    apply (post_process_mono (with_variance k v1) (with_variance k v2)); try assumption;
      try reflexivity.
    cbn [gain_ with_variance]. apply Z.mul_le_mono_nonneg_r; assumption.
Qed.

(** X14 at the Adaptive method with gain 2 and the variances 0.1 and 0.3. *)
Lemma raising_the_variance_never_lowers_alpha_witness :
  wf_iop iop_adaptive = true /\ flt f0 f0_1 = true /\ fle f0_1 f0_3 = true /\
  fle (engine_alpha (with_variance iop_adaptive f0_1) (mkColor3 f0_1 f0_9 f0_1))
      (engine_alpha (with_variance iop_adaptive f0_3) (mkColor3 f0_1 f0_9 f0_1)) = true.
Proof.
  split; [reflexivity|]. split; [reflexivity|]. split; [reflexivity|].
  exact (proj2 (raising_the_variance_never_lowers_alpha iop_adaptive f0_1 f0_3
                  (mkColor3 f0_1 f0_9 f0_1) eq_refl eq_refl eq_refl eq_refl eq_refl eq_refl)
               eq_refl eq_refl).
Defined.

(** ** No alpha beyond the tolerance *)

Lemma fdiv_self (e : float) :
  wf e = true -> fin e = true -> 0 < ord e -> fdiv e e = f1.
Proof.
  intros W F H. destruct e as [s|s| |s m x]; try discriminate.
  destruct (fdiv_fin (S754_finite s m x) s m x W W eq_refl) as (Wq & Nq & S).
  set (e := S754_finite s m x) in *.
  rewrite (Z.sgn_pos _ H), (Z.abs_eq (ord e)) in S by lia.
  pose proof (sround_exact f1 eq_refl eq_refl) as S1. change (ord f1) with (2 ^ 149) in S1.
  apply (eqz_finite _ false 8388608 (-23)). fold f1.
  apply ord_inj; try assumption; try reflexivity. change (ord f1) with (2 ^ 149).
  set (Q := 2 ^ 149) in *. set (Y := ord e) in *.
  assert (E1 : Y * Q * 1 * 1 <= Q * Y) by lia.
  assert (E2 : Q * Y <= Y * Q * 1 * 1) by lia.
  pose proof (sround_mono _ _ _ _ _ _ H Z.lt_0_1 S S1 E1).
  pose proof (sround_mono _ _ _ _ _ _ Z.lt_0_1 H S1 S E2).
  lia.
Qed.

(** A distance of at least the tolerance gives the alpha 0. *)
Lemma quotient_alpha_zero (d e : float) :
  wf d = true -> wf e = true -> is_nan d = false -> is_nan e = false ->
  0 < ord e -> ord e <= ord d ->
  fmax f0 (fsub f1 (fdiv d e)) = f0.
Proof.
  intros Wd We Nd Ne Pe Hle. pose proof inf_ord_pos as Hinf.
  destruct (fin_or_inf d Wd Nd) as [Fd | [ -> | -> ]].
  - assert (Fe : fin e = true).
    { apply fin_ord; try assumption. pose proof (proj1 (fin_ord d Wd Nd) Fd). lia. }
    destruct (fdiv_sign d e Wd We ltac:(lia) Ne Pe) as (Wq & Oq).
    assert (Hq : ord f1 <= ord (fdiv d e)).
    { rewrite <- (fdiv_self e We Fe Pe). apply fdiv_le; try assumption. nia. }
    destruct e as [se|se| |se me xe]; try discriminate.
    destruct (fdiv_fin d se me xe Wd We Fd) as (_ & Nq & _).
    set (q := fdiv d (S754_finite se me xe)) in *.
    assert (Hy : wf (fsub f1 q) = true /\ (is_nan (fsub f1 q) = true \/ ord (fsub f1 q) <= 0)).
    { split; [auto with wf|].
      destruct (fin_or_inf q Wq Nq) as [Fq | [ -> | -> ]].
      - right. change 0 with (ord (fsub f1 f1)).
        apply fsub_le; try reflexivity; try assumption. lia.
      - right. simpl. lia.
      - cbn [ord cond_Zopp] in Oq. lia. }
    destruct Hy as (Wy & Hy). unfold fmax. destruct (flt f0 (fsub f1 q)) eqn:L; [|reflexivity].
    destruct (flt_pos_ord _ Wy L) as (Ny & Oy). destruct Hy as [Hy|Hy]; [congruence|lia].
  - destruct (positive_cases e We Ne Pe) as [->|(m & x & ->)]; reflexivity.
  - cbn [ord cond_Zopp] in Hle. lia.
Qed.

(** Property X15.  No alpha beyond the tolerance: a pixel whose distance to
    the key colour is at least its effective tolerance gets the alpha 0.0
    from the Distance and the Luma Weighted methods, and a pixel whose chroma
    distance is at least the (positive) variance gets the alpha 0.0 from the
    Chroma method. *)
Theorem no_alpha_beyond_the_tolerance (k : SimpleColorKeyerIop) (pixel key : Color3) :
  wf (variance_ k) = true -> wf_ranges k = true ->
  wf_color pixel = true -> wf_color key = true ->
  (fle (effective_tolerance k pixel) (distance_to pixel key) = true ->
   calculate_distance_alpha k pixel key = f0 /\
   calculate_luma_weighted_alpha k pixel key = f0) /\
  (flt f0 (variance_ k) = true ->
   fle (variance_ k) (chroma_distance pixel key) = true ->
   calculate_chroma_alpha k pixel key = f0).
Proof.
  intros Wv Wr Wp Wk. split.
  - intros H.
    destruct (wf_distance_to pixel key Wp Wk) as (Wd & _).
    destruct (effective_tolerance_pos k pixel Wv Wr Wp) as (We & Ne & Oe).
    change (ord f0_001) with (8589935 * 2 ^ 116) in Oe.
    destruct (fle_true_ord _ _ We Wd H) as (_ & Nd & Ho).
    assert (E : calculate_distance_alpha k pixel key = f0).
    { unfold calculate_distance_alpha. apply quotient_alpha_zero; try assumption; lia. }
    split; [exact E|]. unfold calculate_luma_weighted_alpha. rewrite E.
    pose proof (luma_weight_unit pixel key Wp Wk) as Uw.
    pose proof (fsign_luma_weight pixel key Wp Wk) as Sw.
    pose proof (unit_interval_fin _ Uw) as Fw.
    destruct (luma_weight pixel key) as [s|s| |s m e]; try discriminate;
      cbn [fsign] in Sw; subst s; reflexivity.
  - intros Pv H.
    destruct (wf_chroma_distance pixel key Wp Wk) as (Wd & _).
    destruct (flt_pos_ord _ Wv Pv) as (Nv & Ov).
    destruct (fle_true_ord _ _ Wv Wd H) as (_ & Nd & Ho).
    unfold calculate_chroma_alpha. apply quotient_alpha_zero; assumption.
Qed.

(** X15 at the pixel (1, 1, 0): distance 1, tolerance 0.6. *)
Lemma no_alpha_beyond_the_tolerance_witness :
  fle (effective_tolerance iop_yellow_bias (mkColor3 f1 f1 f0))
      (distance_to (mkColor3 f1 f1 f0) (mkColor3 f0 f1 f0)) = true /\
  calculate_distance_alpha iop_yellow_bias (mkColor3 f1 f1 f0) (mkColor3 f0 f1 f0) = f0.
Proof.
  split; [reflexivity|].
  exact (proj1 (proj1 (no_alpha_beyond_the_tolerance iop_yellow_bias
                         (mkColor3 f1 f1 f0) (mkColor3 f0 f1 f0) eq_refl eq_refl eq_refl eq_refl)
                      eq_refl)).
Defined.

(** ** Equal chroma; pixels that do not match a direction *)

(** Property X16.  The Chroma method ignores what pixel and key colour have
    in common on all three channels: with a positive variance, a pixel whose
    two chroma differences [r - g] and [b - g] are those of the key colour
    (finite numbers) gets the alpha 1.0; for instance a grey pixel against
    a grey key colour, whatever their brightness. *)
Theorem equal_chroma_is_fully_keyed (k : SimpleColorKeyerIop) (pixel key : Color3) :
  wf (variance_ k) = true -> flt f0 (variance_ k) = true ->
  wf_color pixel = true -> wf_color key = true ->
  fsub (r pixel) (g pixel) = fsub (r key) (g key) ->
  fsub (b pixel) (g pixel) = fsub (b key) (g key) ->
  fin (fsub (r key) (g key)) = true -> fin (fsub (b key) (g key)) = true ->
  calculate_chroma_alpha k pixel key = f1.
Proof.
  intros Wv Pv Wp Wk Eu Ev Fu Fv.
  apply wf_color_inv in Wk. destruct Wk as (K1 & K2 & K3).
  unfold calculate_chroma_alpha, chroma_distance. rewrite Eu, Ev.
  rewrite !fsub_self by auto with wf.
  change (fsqrt (fadd (fmul f0 f0) (fmul f0 f0))) with f0.
  destruct (flt_pos_ord _ Wv Pv) as (Nv & Ov).
  rewrite fdiv_zero_pos by assumption. reflexivity.
Qed.

(** X16 at a light grey pixel and a dark grey key colour. *)
Lemma equal_chroma_is_fully_keyed_witness :
  flt f0 (variance_ default_iop) = true /\
  fsub f0_75 f0_75 = fsub f0_25 f0_25 /\
  calculate_chroma_alpha default_iop (mkColor3 f0_75 f0_75 f0_75) (mkColor3 f0_25 f0_25 f0_25)
  = f1.
Proof.
  split; [reflexivity|]. split; [reflexivity|].
  exact (equal_chroma_is_fully_keyed default_iop
           (mkColor3 f0_75 f0_75 f0_75) (mkColor3 f0_25 f0_25 f0_25)
           eq_refl eq_refl eq_refl eq_refl eq_refl eq_refl eq_refl eq_refl).
Defined.

Lemma eqz_refl (x : float) : eqz x x.
Proof. left. reflexivity. Qed.

Lemma eqz_fadd_l (a a' t : float) : eqz a a' -> eqz (fadd a t) (fadd a' t).
Proof.
  intros [->|(s & s' & -> & ->)]; [left; reflexivity|].
  destruct t as [st|st| |st mt et].
  - right. destruct s, s', st; cbn; eauto.
  - left. reflexivity.
  - left. reflexivity.
  - left. reflexivity.
Qed.

Lemma eqz_fadd_zero (a : float) (s : bool) : eqz (fadd a (S754_zero s)) a.
Proof.
  destruct a as [sa|sa| |sa ma ea]; try (left; reflexivity).
  right. destruct sa, s; cbn; eauto.
Qed.

Lemma eqz_trans (x y z : float) : eqz x y -> eqz y z -> eqz x z.
Proof.
  intros [->|(s & s' & -> & ->)] [E|(t & t' & E1 & E2)]; subst.
  - left. reflexivity.
  - right. eauto.
  - right. eauto.
  - right. eauto.
Qed.

Lemma eqz_step_zero (c : bool) (s : bool) (a a' : float) :
  eqz a a' -> eqz (step c (S754_zero s) a) a'.
Proof.
  intros H. unfold step. destruct c; [|exact H].
  apply (eqz_trans _ a); [apply eqz_fadd_zero|exact H].
Qed.

Lemma eqz_step (c : bool) (t a a' : float) : eqz a a' -> eqz (step c t a) (step c t a').
Proof. intros H. unfold step. destruct c; [apply eqz_fadd_l|]; exact H. Qed.

(** Leaving out additions of a zero changes the accumulated tolerance at
    most in the sign of a zero. *)
Lemma eqz_run_chain (l1 l2 : list (bool * float)) :
  Forall2 (fun ct1 ct2 : bool * float =>
             ct1 = ct2 \/ ((exists s, snd ct1 = S754_zero s) /\ fst ct2 = false)) l1 l2 ->
  forall a a', eqz a a' -> eqz (run_chain l1 a) (run_chain l2 a').
Proof.
  induction 1 as [|[c1 t1] [c2 t2] l1 l2 Hs Hl IH]; intros a a' Ha; [exact Ha|].
  cbn [run_chain fold_left fst snd]. apply IH.
  destruct Hs as [E|((s & E1) & E2)]; cbn [fst snd] in *.
  - inversion E; subst. apply eqz_step. exact Ha.
  - subst. apply eqz_step_zero. exact Ha.
Qed.

Lemma eqz_floor (a a' : float) : eqz a a' -> fmax f0_001 a = fmax f0_001 a'.
Proof. intros [->|(s & s' & -> & ->)]; [reflexivity|]. destruct s, s'; reflexivity. Qed.

Lemma zero_term (rho : float) (s : bool) :
  wf rho = true -> fin rho = true ->
  exists s', fmul (fmul rho f0_1) (S754_zero s) = S754_zero s'.
Proof.
  intros W F. destruct (fin_scaled_range rho W F) as (Wa & Fa & _).
  destruct (fmul rho f0_1) as [sa|sa| |sa ma ea]; try discriminate; cbn; eauto.
Qed.

(** Property X17.  A range acts only on the pixels that match its
    direction: for a pixel whose match for a direction is 0.0 (no red for the
    red range, [min(r,g) = 0] for the yellow range, ...) the effective
    tolerance and the Distance alpha are the same for every finite range of
    that direction as for the range 0. *)
Theorem a_range_acts_only_on_matching_pixels
  (k : SimpleColorKeyerIop) (d : direction) (rho : float) (pixel key : Color3) :
  wf rho = true -> fin rho = true ->
  (exists s, dir_match pixel d = S754_zero s) ->
  effective_tolerance (with_range k d rho) pixel = effective_tolerance (with_range k d f0) pixel /\
  calculate_distance_alpha (with_range k d rho) pixel key
  = calculate_distance_alpha (with_range k d f0) pixel key.
Proof.
  intros W F (s & Hm).
  assert (E : effective_tolerance (with_range k d rho) pixel
              = effective_tolerance (with_range k d f0) pixel).
  { rewrite !effective_tolerance_chain. apply eqz_floor.
    apply eqz_run_chain; [|apply eqz_refl].
    destruct (zero_term rho s W F) as (s' & Ht).
    destruct d; unfold tol_chain;
      cbn [with_range dir_match range_red_ range_green_ range_blue_
           range_yellow_ range_magenta_ range_cyan_ variance_] in *;
      rewrite ?Hm;
      repeat (apply Forall2_cons || apply Forall2_nil);
      first [ left; reflexivity
            | right; cbn [fst snd]; split; [exists s'; exact Ht|reflexivity] ]. }
  split; [exact E|]. unfold calculate_distance_alpha. rewrite E. reflexivity.
Qed.

(** X17 at the red range 3 and a pixel without red. *)
Lemma a_range_acts_only_on_matching_pixels_witness :
  dir_match (mkColor3 f0 f0_9 f0_1) Red = S754_zero false /\
  calculate_distance_alpha (with_range default_iop Red f3)
    (mkColor3 f0 f0_9 f0_1) (mkColor3 f0 f1 f0)
  = calculate_distance_alpha (with_range default_iop Red f0)
      (mkColor3 f0 f0_9 f0_1) (mkColor3 f0 f1 f0).
Proof.
  split; [reflexivity|].
  exact (proj2 (a_range_acts_only_on_matching_pixels default_iop Red f3
                  (mkColor3 f0 f0_9 f0_1) (mkColor3 f0 f1 f0)
                  eq_refl eq_refl (ex_intro _ false eq_refl))).
Defined.

(** ** [engine] on the rows of an image *)

Lemma write_spec (row : Row) (z : Channel) (X : Z) (v : float) (z' : Channel) (X' : Z) :
  write row z X v z' X' = if (z' =? z) && (X' =? X) then v else row z' X'.
Proof. reflexivity. Qed.

(** The loop run [n] times from [X0] leaves [engine_cell] at the [n]
    positions from [X0] on and nothing elsewhere. *)
Lemma engine_loop_spec (k : SimpleColorKeyerIop) (channels : ChannelMask) (input_row : Row)
    (n : nat) :
  forall (X0 : Z) (row : Row) (z : Channel) (X : Z),
    engine_loop k channels input_row n X0 row z X
    = if (X0 <=? X) && (X <? X0 + Z.of_nat n)
      then engine_cell k channels input_row row z X
      else row z X.
Proof.
  induction n as [|n IH]; intros X0 row z X.
  - cbn [engine_loop]. destruct (Z.leb_spec X0 X), (Z.ltb_spec X (X0 + Z.of_nat 0));
      try reflexivity; lia.
  - cbn [engine_loop]. rewrite IH. unfold engine_cell.
    unfold Chan_Alpha, Chan_Blue, Chan_Green, Chan_Red.
    destruct (intersects channels Mask_Red), (intersects channels Mask_Green),
      (intersects channels Mask_Blue); rewrite ?write_spec;
      unfold Chan_Alpha, Chan_Blue, Chan_Green, Chan_Red;
      destruct (Z.leb_spec (X0 + 1) X), (Z.ltb_spec X (X0 + 1 + Z.of_nat n)),
        (Z.leb_spec X0 X), (Z.ltb_spec X (X0 + Z.of_nat (S n))); try lia;
      cbn [andb];
      destruct (Z.eqb_spec z 4), (Z.eqb_spec z 3), (Z.eqb_spec z 2), (Z.eqb_spec z 1),
        (Z.eqb_spec X X0); try lia; subst; cbn [andb]; reflexivity.
Qed.

Lemma get_inside (input0 : Image) (y x r : Z) (z : Channel) (X : Z) :
  x <= X < r -> contains Mask_RGB z = true -> get input0 y x r Mask_RGB z X = input0 y z X.
Proof.
  intros H C. unfold get. rewrite C.
  destruct (Z.leb_spec x X), (Z.ltb_spec X r); try lia. reflexivity.
Qed.

Lemma pixel_at_get (input0 : Image) (y x r X : Z) :
  x <= X < r -> pixel_at (get input0 y x r Mask_RGB) X = pixel_at (input0 y) X.
Proof.
  intros H. unfold pixel_at. rewrite !get_inside by (assumption || reflexivity). reflexivity.
Qed.

(** [engine] leaves [engine_cell] of the input line inside the span and
    nothing outside it. *)
Lemma engine_row_spec (k : SimpleColorKeyerIop) (input0 : Image)
    (y x r : Z) (channels : ChannelMask) (row : Row) (z : Channel) (X : Z) :
  engine_row k input0 y x r channels row z X
  = if (x <=? X) && (X <? r)
    then engine_cell k channels (input0 y) row z X
    else row z X.
Proof.
  unfold engine_row. rewrite engine_loop_spec.
  destruct (Z.leb_spec x X), (Z.ltb_spec X r), (Z.ltb_spec X (x + Z.of_nat (Z.to_nat (r - x))));
    cbn [andb]; try reflexivity; try lia.
  unfold engine_cell. rewrite pixel_at_get by lia.
  rewrite !get_inside by (try lia; reflexivity). reflexivity.
Qed.

(** Property X18.  [engine] on the span from [x] up to but not including
    [r] of line [y]: at every position [X] of the span the alpha channel of
    the output row holds the final alpha of the input pixel at [X], whether
    or not the alpha channel was asked for, and each of the red, green and
    blue channels holds the input sample when that channel is among
    [channels] and is left as it was otherwise. *)
Theorem engine_writes_every_pixel_of_the_span (k : SimpleColorKeyerIop) (input0 : Image)
    (y x r : Z) (channels : ChannelMask) (row : Row) (X : Z) :
  x <= X < r ->
  let out := engine_row k input0 y x r channels row in
  out Chan_Alpha X = engine_alpha k (pixel_at (input0 y) X) /\
  out Chan_Red X
  = (if intersects channels Mask_Red then input0 y Chan_Red X else row Chan_Red X) /\
  out Chan_Green X
  = (if intersects channels Mask_Green then input0 y Chan_Green X else row Chan_Green X) /\
  out Chan_Blue X
  = (if intersects channels Mask_Blue then input0 y Chan_Blue X else row Chan_Blue X).
Proof.
  intros H out. unfold out. rewrite !engine_row_spec.
  destruct (Z.leb_spec x X), (Z.ltb_spec X r); try lia. cbn [andb]. unfold engine_cell.
  repeat split; cbn [Z.eqb Pos.eqb Chan_Alpha Chan_Red Chan_Green Chan_Blue andb];
    destruct (intersects _ _); reflexivity.
Qed.

(** X18 at position 2 of the span from 0 to 4, only alpha asked for. *)
Lemma engine_writes_every_pixel_of_the_span_witness :
  0 <= 2 < 4 /\
  engine_row default_iop flat_image 0 0 4 Mask_Alpha blank_row Chan_Alpha 2
  = engine_alpha default_iop (mkColor3 f0_1 f0_9 f0_1) /\
  engine_row default_iop flat_image 0 0 4 Mask_Alpha blank_row Chan_Red 2 = f0.
Proof.
  split; [lia|].
  pose proof (engine_writes_every_pixel_of_the_span default_iop flat_image 0 0 4 Mask_Alpha
                blank_row 2 ltac:(lia)) as H.
  split; [exact (proj1 H)|exact (proj1 (proj2 H))].
Defined.

Lemma not_rgba (z : Channel) :
  contains Mask_RGBA z = false ->
  z <> Chan_Alpha /\ z <> Chan_Blue /\ z <> Chan_Green /\ z <> Chan_Red.
Proof.
  intros H. repeat split; intros ->; discriminate.
Qed.

(** Property X19.  [engine] writes nothing else: a sample of the output row
    at a position outside the span, or in a channel that is not among the
    output channels [_validate] declares (red, green, blue and alpha), is
    left as it was.  In particular an empty span ([r <= x]) leaves the whole
    row unchanged. *)
Theorem engine_touches_nothing_else (k : SimpleColorKeyerIop) (input0 : Image)
    (y x r : Z) (channels input0_channels : ChannelMask) (row : Row) (z : Channel) (X : Z) :
  X < x \/ r <= X \/ contains (snd (_validate input0_channels)) z = false ->
  engine_row k input0 y x r channels row z X = row z X.
Proof.
  intros H. rewrite engine_row_spec.
  destruct (Z.leb_spec x X), (Z.ltb_spec X r); cbn [andb]; try reflexivity.
  destruct H as [H|[H|H]]; try lia.
  apply not_rgba in H. destruct H as (Na & Nb & Ng & Nr). unfold engine_cell.
  destruct (Z.eqb_spec z Chan_Alpha), (Z.eqb_spec z Chan_Blue), (Z.eqb_spec z Chan_Green),
    (Z.eqb_spec z Chan_Red); try contradiction. reflexivity.
Qed.

(** X19 at position 7, outside the span from 0 to 4. *)
Lemma engine_touches_nothing_else_witness :
  4 <= 7 /\
  engine_row default_iop flat_image 0 0 4 Mask_RGBA blank_row Chan_Alpha 7 = f0.
Proof.
  split; [lia|].
  apply (engine_touches_nothing_else default_iop flat_image 0 0 4 Mask_RGBA Mask_RGB blank_row
           Chan_Alpha 7).
  right; left; lia.
Defined.

(** Property X20.  [engine] on the span from [x] to [m] followed by
    [engine] on the span from [m] to [r] leaves the row [engine] leaves on
    the span from [x] to [r]: the result does not depend on how a line is
    cut into spans. *)
Theorem engine_on_adjacent_spans (k : SimpleColorKeyerIop) (input0 : Image)
    (y x m r : Z) (channels : ChannelMask) (row : Row) (z : Channel) (X : Z) :
  x <= m <= r ->
  engine_row k input0 y m r channels (engine_row k input0 y x m channels row) z X
  = engine_row k input0 y x r channels row z X.
Proof.
  intros H. rewrite !engine_row_spec. unfold engine_cell. rewrite !engine_row_spec.
  destruct (Z.leb_spec m X), (Z.ltb_spec X r), (Z.leb_spec x X), (Z.ltb_spec X m);
    cbn [andb]; try reflexivity; lia.
Qed.

(** X20 at the spans from 0 to 3 and from 3 to 8. *)
Lemma engine_on_adjacent_spans_witness :
  0 <= 3 <= 8 /\
  engine_row default_iop flat_image 0 3 8 Mask_RGBA
    (engine_row default_iop flat_image 0 0 3 Mask_RGBA blank_row) Chan_Alpha 5
  = engine_row default_iop flat_image 0 0 8 Mask_RGBA blank_row Chan_Alpha 5.
Proof.
  split; [lia|].
  exact (engine_on_adjacent_spans default_iop flat_image 0 0 3 8 Mask_RGBA blank_row
           Chan_Alpha 5 ltac:(lia)).
Defined.

(** Property X21.  [engine] reads of its input only what [_request] asked
    for: when [engine] is called for a line and span inside the requested
    box, two inputs that agree on the requested channels (red, green, blue)
    inside the box give the same output row.  In particular the output does
    not depend on the alpha of the input. *)
Theorem engine_reads_only_what_it_requested (k : SimpleColorKeyerIop) (in1 in2 : Image)
    (x y r t : Z) (channels : ChannelMask) (count : Z)
    (y' x' r' : Z) (channels' : ChannelMask) (row : Row) (z : Channel) (X : Z) :
  let q := _request x y r t channels count in
  req_x q <= x' -> r' <= req_r q -> req_y q <= y' < req_t q ->
  (forall (c : Channel) (Y X' : Z),
     contains (req_channels q) c = true ->
     req_x q <= X' < req_r q -> req_y q <= Y < req_t q ->
     in1 Y c X' = in2 Y c X') ->
  engine_row k in1 y' x' r' channels' row z X = engine_row k in2 y' x' r' channels' row z X.
Proof.
  intros q Hx Hr Hy Hagree. cbn [q _request req_x req_y req_r req_t req_channels] in *.
  rewrite !engine_row_spec.
  destruct (Z.leb_spec x' X), (Z.ltb_spec X r'); cbn [andb]; try reflexivity.
  unfold engine_cell, pixel_at.
  rewrite !(Hagree _ y' X) by (try reflexivity; lia). reflexivity.
Qed.

(** X21 at two inputs that differ in their alpha channel only. *)
Lemma engine_reads_only_what_it_requested_witness :
  engine_row default_iop flat_image 1 2 6 Mask_RGBA blank_row Chan_Alpha 4
  = engine_row default_iop (fun y z X => if z =? Chan_Alpha then f1 else flat_image y z X)
      1 2 6 Mask_RGBA blank_row Chan_Alpha 4.
Proof.
  refine (engine_reads_only_what_it_requested default_iop flat_image
            (fun y z X => if z =? Chan_Alpha then f1 else flat_image y z X)
            0 0 8 2 Mask_RGBA 1 1 2 6 Mask_RGBA blank_row Chan_Alpha 4
            ltac:(cbn; lia) ltac:(cbn; lia) ltac:(cbn; lia) _).
  intros c Y X' Hc _ _. cbn [_request req_channels] in Hc.
  destruct (Z.eqb_spec c Chan_Alpha) as [->|]; [discriminate|reflexivity].
Defined.

Lemma wf_calculate_alpha (k : SimpleColorKeyerIop) (pixel key : Color3) :
  wf_iop k = true -> wf_color pixel = true -> wf_color key = true ->
  wf (calculate_alpha k pixel key) = true.
Proof.
  intros Wk Wp Wkey. apply wf_iop_inv in Wk. destruct Wk as (_ & Wv & Wr & _).
  unfold calculate_alpha.
  destruct (keying_method_ k) as [|[[[]|[]|]|[[]|[]|]|]|]; try reflexivity;
    first [ apply (distance_alpha_unit k pixel key Wv Wr Wp Wkey)
          | apply (luma_weighted_alpha_unit k pixel key Wv Wr Wp Wkey)
          | apply (wf_chroma_alpha k pixel key Wv Wp Wkey)
          | apply (wf_adaptive_alpha k pixel key Wv Wr Wp Wkey) ].
Qed.

(** Property X22.  Every alpha sample [engine] writes is a number between 0
    and 1, for every parameter set (whatever its variance, gain and method
    selector) and every input. *)
Theorem engine_writes_a_matte (k : SimpleColorKeyerIop) (input0 : Image)
    (y x r : Z) (channels : ChannelMask) (row : Row) (X : Z) :
  wf_iop k = true ->
  (forall X', x <= X' < r -> wf_color (pixel_at (input0 y) X') = true) ->
  x <= X < r ->
  let alpha := engine_row k input0 y x r channels row Chan_Alpha X in
  fle f0 alpha = true /\ fle alpha f1 = true.
Proof.
  intros Wk Win H alpha. unfold alpha. rewrite engine_row_spec.
  destruct (Z.leb_spec x X), (Z.ltb_spec X r); try lia. cbn [andb].
  unfold engine_cell. cbn [Z.eqb Pos.eqb Chan_Alpha].
  apply unit_interval_fle. unfold engine_alpha. apply post_process_unit.
  - apply wf_calculate_alpha; [exact Wk|apply Win; exact H|apply (wf_iop_inv k Wk)].
  - apply (wf_iop_inv k Wk).
Qed.

(** X22 at the Adaptive method with gain 2. *)
Lemma engine_writes_a_matte_witness :
  wf_iop iop_adaptive = true /\ 0 <= 1 < 4 /\
  fle (engine_row iop_adaptive flat_image 0 0 4 Mask_RGBA blank_row Chan_Alpha 1) f1 = true.
Proof.
  split; [reflexivity|]. split; [lia|].
  refine (proj2 (engine_writes_a_matte iop_adaptive flat_image 0 0 4 Mask_RGBA blank_row 1
                   eq_refl _ ltac:(lia))).
  intros X' _. reflexivity.
Defined.

(** Property X23.  When red, green and blue are among the channels asked
    for, running [engine] again on its own output leaves that output
    unchanged: the colour channels are passed through and the alpha is
    computed from them alone. *)
Theorem keying_twice_changes_nothing (k : SimpleColorKeyerIop) (input0 : Image)
    (y x r : Z) (channels : ChannelMask) (row : Row) (z : Channel) (X : Z) :
  intersects channels Mask_Red = true ->
  intersects channels Mask_Green = true ->
  intersects channels Mask_Blue = true ->
  let out := engine_row k input0 y x r channels row in
  engine_row k (fun _ => out) y x r channels out z X = out z X.
Proof.
  intros HR HG HB out. unfold out. rewrite !engine_row_spec.
  destruct (Z.leb_spec x X), (Z.ltb_spec X r); cbn [andb]; try reflexivity.
  unfold engine_cell, pixel_at. rewrite !engine_row_spec.
  destruct (Z.leb_spec x X), (Z.ltb_spec X r); try lia. cbn [andb].
  unfold engine_cell, pixel_at. rewrite HR, HG, HB.
  unfold Chan_Alpha, Chan_Red, Chan_Green, Chan_Blue.
  destruct (Z.eqb_spec z 4), (Z.eqb_spec z 3), (Z.eqb_spec z 2), (Z.eqb_spec z 1);
    try lia; cbn [Z.eqb Pos.eqb andb]; reflexivity.
Qed.

(** X23 at the span from 0 to 4 with all four channels asked for. *)
Lemma keying_twice_changes_nothing_witness :
  intersects Mask_RGBA Mask_Red = true /\
  engine_row default_iop
    (fun _ => engine_row default_iop flat_image 0 0 4 Mask_RGBA blank_row) 0 0 4 Mask_RGBA
    (engine_row default_iop flat_image 0 0 4 Mask_RGBA blank_row) Chan_Alpha 2
  = engine_row default_iop flat_image 0 0 4 Mask_RGBA blank_row Chan_Alpha 2.
Proof.
  split; [reflexivity|].
  exact (keying_twice_changes_nothing default_iop flat_image 0 0 4 Mask_RGBA blank_row
           Chan_Alpha 2 eq_refl eq_refl eq_refl).
Defined.

(** ** The channels [_validate] declares *)

(** Property X24.  [_validate]: the channels of the node are those of its
    input with alpha added - alpha is always among them, also for an input
    without colour channels, no channel of the input is lost and no other
    channel is added; the conditional second [turn_on] never changes the
    result. *)
Theorem validate_always_offers_alpha (input0_channels : ChannelMask) :
  let info_ := fst (_validate input0_channels) in
  info_ = turn_on input0_channels Mask_Alpha /\
  contains info_ Chan_Alpha = true /\
  (forall z, contains input0_channels z = true -> contains info_ z = true) /\
  (forall z, contains info_ z = true -> contains input0_channels z = true \/ z = Chan_Alpha).
Proof.
  intros info_.
  assert (E : info_ = turn_on input0_channels Mask_Alpha).
  { unfold info_, _validate. cbn [fst]. destruct (intersects _ _); [|reflexivity].
    unfold turn_on. rewrite <- Z.lor_assoc, Z.lor_diag. reflexivity. }
  split; [exact E|]. rewrite E. unfold turn_on, contains.
  split; [|split].
  - rewrite Z.lor_spec. rewrite orb_true_iff. right. reflexivity.
  - intros z H. rewrite Z.lor_spec, H. reflexivity.
  - intros z H. rewrite Z.lor_spec, orb_true_iff in H. destruct H as [H|H]; [left; exact H|right].
    unfold Mask_Alpha, Chan_Alpha in *. change (Z.shiftl 1 (4 - 1)) with 8 in H.
    destruct (Z.eq_dec (z - 1) 3) as [E3|E3]; [lia|].
    exfalso. destruct (z - 1) as [|p|p]; try discriminate.
    destruct p as [p|p|]; try discriminate; destruct p as [p|p|]; try discriminate;
      try (destruct p; discriminate); lia.
Qed.
